(** * Knowledge source pipeline: text segmentation, indexing, retrieval

    A shallow embedding of the knowledge-source server
    (text_processor.py, vector_client.py, confluence_client.py, server.py)
    and the properties of its specification.

    Python values are modelled as follows.
    - A [str] whose characters are processed is the list of its code
      points ([N]); [len] is the number of code points, as in Python.
      Keys, tool names and messages, which are only compared and passed
      on, are [string]s.
    - An [int] is a [Z]; an optional argument is an [option].
    - A dict that is read with [.get(key, default)] is a [gmap] from keys
      to values, or a record of optional fields; a [set] is a [gset].
    - A call that can raise returns a [result]; the calls on the remote
      services are recorded in a trace, or the service is a parameter.
    - A [while True] loop takes fuel, the number of turns allowed. *)

From Stdlib Require Import ZArith NArith Lia Ascii String.
From stdpp Require Import base option list strings pretty gmap.

Local Open Scope Z_scope.

(** ** Python strings *)

Module Py.

Abbreviation str := (list N).

(** A string literal, one code point per character. *)
Fixpoint lit (x : string) : str :=
  match x with
  | EmptyString => []
  | String a r => N_of_ascii a :: lit r
  end.

Definition LF : N := 10.
Definition TAB : N := 9.
Definition SP : N := 32.

Definition len {A} (l : list A) : Z := Z.of_nat (length l).

(** Truth value of a sequence: [if s:] holds when [s] is not empty. *)
Definition truthy {A} (l : list A) : bool :=
  match l with [] => false | _ :: _ => true end.

(** [x or d] on an optional integer: [None] and [0] are both false. *)
Definition int_or (x : option Z) (d : Z) : Z :=
  match x with
  | Some z => if z =? 0 then d else z
  | None => d
  end.

(** [str.isspace] on one code point, which is also what [\s] matches in
    a [str] pattern. *)
Definition isspace (c : N) : bool :=
  ((9 <=? c) && (c <=? 13) || (28 <=? c) && (c <=? 32)
   || (c =? 133) || (c =? 160) || (c =? 5760)
   || (8192 <=? c) && (c <=? 8202)
   || (c =? 8232) || (c =? 8233) || (c =? 8239) || (c =? 8287)
   || (c =? 12288))%N.

Fixpoint lstrip (s : str) : str :=
  match s with
  | [] => []
  | c :: r => if isspace c then lstrip r else s
  end.

Fixpoint rstrip (s : str) : str :=
  match s with
  | [] => []
  | c :: r =>
      match rstrip r with
      | [] => if isspace c then [] else [c]
      | r' => c :: r'
      end
  end.

(** [s.strip()] *)
Definition strip (s : str) : str := rstrip (lstrip s).

Fixpoint startswith (p s : str) : bool :=
  match p, s with
  | [], _ => true
  | a :: p', b :: s' => (a =? b)%N && startswith p' s'
  | _ :: _, [] => false
  end.

(** [s.replace(old, new)] scans from the left; an occurrence of [old]
    is replaced and the scan resumes after it. [skip] counts the
    characters of the occurrence that are still to be passed over. *)
Fixpoint replace_go (old new : str) (skip : nat) (s : str) : str :=
  match s with
  | [] => []
  | c :: r =>
      match skip with
      | S k => replace_go old new k r
      | O =>
          if startswith old s
          then new ++ replace_go old new (length old - 1) r
          else c :: replace_go old new 0 r
      end
  end.

Definition replace (old new s : str) : str :=
  match old with
  | [] => new ++ flat_map (fun c => c :: new) s
  | _ :: _ => replace_go old new 0 s
  end.

Definition cons_head (c : N) (l : list str) : list str :=
  match l with
  | [] => [[c]]
  | x :: xs => (c :: x) :: xs
  end.

(** [s.split(sep)] for a separator of one character. *)
Fixpoint split (sep : N) (s : str) : list str :=
  match s with
  | [] => [[]]
  | c :: r =>
      if (c =? sep)%N then [] :: split sep r
      else cons_head c (split sep r)
  end.

(** [sep.join(l)] *)
Fixpoint join (sep : str) (l : list str) : str :=
  match l with
  | [] => []
  | x :: xs =>
      match xs with
      | [] => x
      | _ :: _ => x ++ sep ++ join sep xs
      end
  end.

(** [l[:n]]: a negative bound counts from the end. *)
Definition slice_to {A} (n : Z) (l : list A) : list A :=
  if 0 <=? n then take (Z.to_nat n) l
  else take (Z.to_nat (len l + n)) l.

(** [l[k:]]: a negative bound counts from the end. *)
Definition slice_from {A} (k : Z) (l : list A) : list A :=
  if 0 <=? k then drop (Z.to_nat k) l
  else drop (Z.to_nat (len l + k)) l.

End Py.

Import Py.

(** ** Regular expressions

    The patterns of the program have no alternation and no empty match.
    A pattern is given by a [matcher]: from the character before the
    current position and the text that starts there, the length of the
    match that starts at this position, if there is one. *)

Module Re.

Definition matcher := option N -> str -> option nat.

(** Length of the longest prefix whose characters all satisfy [p]. *)
Fixpoint run (p : N -> bool) (s : str) : nat :=
  match s with
  | [] => O
  | c :: r => if p c then S (run p r) else O
  end.

(** [c{k,}] for a character class [c], greedy. *)
Definition at_least (k : nat) (p : N -> bool) : matcher :=
  fun _ s =>
    let n := run p s in
    if (Nat.leb k n && Nat.ltb 0 n)%bool then Some n else None.

(** [(?<=q)m]: the match must be preceded by a character of class [q]. *)
Definition preceded_by (q : N -> bool) (m : matcher) : matcher :=
  fun prev s =>
    match prev with
    | Some c => if q c then m prev s else None
    | None => None
    end.

(** [<[^>]+>]: after the bracket the class takes every character up to
    the next closing bracket; giving characters back cannot help, as
    none of them is a closing bracket. *)
Definition tag : matcher :=
  fun _ s =>
    match s with
    | c :: r =>
        if (c =? 60)%N then
          let n := run (fun x => negb (x =? 62)%N) r in
          match n, r !! n with
          | S _, Some _ => Some (n + 2)%nat   (* [r !! n] closes the tag *)
          | _, _ => None
          end
        else None
    | [] => None
    end.

(** [re.sub(pattern, repl, s)]: leftmost matches, not overlapping. *)
Fixpoint sub_go (m : matcher) (repl : str) (prev : option N)
    (skip : nat) (s : str) : str :=
  match s with
  | [] => []
  | c :: r =>
      match skip with
      | S k => sub_go m repl (Some c) k r
      | O =>
          match m prev s with
          | Some (S n) => repl ++ sub_go m repl (Some c) n r
          | _ => c :: sub_go m repl (Some c) 0 r
          end
      end
  end.

Definition sub (m : matcher) (repl s : str) : str :=
  sub_go m repl None 0 s.

(** [re.split(pattern, s)]: the pieces between the matches. *)
Fixpoint split_go (m : matcher) (prev : option N) (skip : nat)
    (s : str) : list str :=
  match s with
  | [] => [[]]
  | c :: r =>
      match skip with
      | S k => split_go m (Some c) k r
      | O =>
          match m prev s with
          | Some (S n) => [] :: split_go m (Some c) n r
          | _ => cons_head c (split_go m (Some c) 0 r)
          end
      end
  end.

Definition split (m : matcher) (s : str) : list str :=
  split_go m None 0 s.

(** [[...]]: one character of a class. *)
Definition one (p : N -> bool) : matcher :=
  fun _ s =>
    match s with
    | c :: _ => if p c then Some 1%nat else None
    | [] => None
    end.

End Re.

(** ** Exceptions *)

(** The exceptions that derive from [Exception], which are the ones the
    program raises and the ones [except Exception] catches. *)
Inductive exn :=
| KeyError (key : string)
| ValueError (msg : string)
| TypeError (msg : string)
| AttributeError (msg : string)
| OverflowError (msg : string)
| OtherError (msg : string).   (* any other subclass of [Exception] *)

(** [str(e)] *)
Definition exn_message (e : exn) : string :=
  match e with
  | KeyError key => "'" +:+ key +:+ "'"
  | ValueError msg | TypeError msg | AttributeError msg | OverflowError msg
  | OtherError msg => msg
  end.

(** The message of the [AttributeError] that the lookup of an attribute
    raises on an object that does not have it. *)
Definition no_attribute (type_name attribute : string) : exn :=
  AttributeError
    ("'" +:+ type_name +:+ "' object has no attribute '" +:+ attribute
     +:+ "'").

Inductive result (A : Type) :=
| Return (a : A)
| Raise (e : exn).
Arguments Return {A} a.
Arguments Raise {A} e.

#[global] Instance result_ret : MRet result := fun A a => Return a.
#[global] Instance result_bind : MBind result := fun A B f m =>
  match m with
  | Return a => f a
  | Raise e => Raise e
  end.

(** [try: body / except Exception as e: handler(e)] *)
Definition try_except {A} (body : result A) (handler : exn -> result A)
    : result A :=
  match body with
  | Return a => Return a
  | Raise e => handler e
  end.

(** [x or d] on an optional string: [None] and the empty string are both
    false. *)
Definition str_or (x : option str) (d : str) : str :=
  match x with
  | Some (c :: r) => c :: r
  | _ => d
  end.

(** ** The text processor (text_processor.py) *)

Module TextProcessor.

Record t := { chunk_size : Z; chunk_overlap : Z }.

(** [TextProcessor()] *)
Definition init : t := {| chunk_size := 512; chunk_overlap := 50 |}.

(** The part of a page that [extract_text] reads:
    [page["body"]["storage"]["value"]], every level of which may be
    missing. *)
Record Storage := { value : option str }.
Record Body := { storage : option Storage }.
Record Page := { body : option Body }.

(** The six replacements of [_remove_html_tags], as the source has
    them. The first and the last decode an entity. The four between them
    replace a string by itself: the ampersand by the ampersand, each
    angle bracket by itself, and the double quote (the character 34) by
    the double quote; in the line of the double quote the first argument
    is written with three quote characters, and it is read as the
    string of one double quote, like the second. *)
Definition decode_entities (html : str) : str :=
  let html := replace (lit "&nbsp;") (lit " ") html in
  let html := replace (lit "&") (lit "&") html in
  let html := replace (lit "<") (lit "<") html in
  let html := replace (lit ">") (lit ">") html in
  let html := replace [34%N] [34%N] html in
  let html := replace (lit "&#39;") (lit "'") html in
  html.

Definition _remove_html_tags (html : str) : str :=
  let html := decode_entities html in
  let text := Re.sub Re.tag [] html in
  let text := replace [LF; LF] [LF] text in
  text.

Definition blank (c : N) : bool := ((c =? SP) || (c =? TAB))%N.
Definition newline (c : N) : bool := (c =? LF)%N.

Definition _clean_whitespace (text : str) : str :=
  let text := Re.sub (Re.at_least 3 newline) [LF; LF] text in
  let text := Re.sub (Re.at_least 1 blank) [SP] text in
  let lines := strip <$> split LF text in
  let text := join [LF] (filter (fun line => truthy line = true) lines) in
  text.

Definition extract_text (confluence_page : Page) : str :=
  let body := default {| storage := None |} (body confluence_page) in
  let storage := default {| value := None |} (storage body) in
  let html_content := default [] (value storage) in
  if negb (truthy html_content) then []
  else
    let text := _remove_html_tags html_content in
    let text := _clean_whitespace text in
    strip text.

(** [extract_text] on a page as the service may send it. A key of the
    page is missing, or holds a value of the expected type (an object
    for ["body"] and ["storage"], a string for ["value"]), or holds
    another value: the [null] of JSON (the type [NoneType], false) or a
    value of another type, of which the name of the type and the truth
    value are kept. [.get] on a value that is not a dict raises
    [AttributeError], and so does [.replace] on a value that is not a
    string. *)
Inductive slot (A : Type) :=
| missing
| holds (a : A)
| other (type_name : string) (truth : bool).
Arguments missing {A}.
Arguments holds {A} a.
Arguments other {A} type_name truth.

Record JsonStorage := { json_value : slot str }.
Record JsonBody := { json_storage : slot JsonStorage }.
Record JsonPage := { json_body : slot JsonBody }.

Definition extract_text_json (confluence_page : JsonPage) : result str :=
  match json_body confluence_page with
  | other type_name _ => Raise (no_attribute type_name "get")
  | missing => Return []
  | holds body =>
      match json_storage body with
      | other type_name _ => Raise (no_attribute type_name "get")
      | missing => Return []
      | holds storage =>
          match json_value storage with
          | missing => Return []
          | other type_name truth =>
              if negb truth then Return []
              else Raise (no_attribute type_name "replace")
          | holds html_content =>
              if negb (truthy html_content) then Return []
              else
                let text := _remove_html_tags html_content in
                let text := _clean_whitespace text in
                Return (strip text)
          end
      end
  end.



Definition _split_by_paragraphs (text : str) : list str :=
  let paragraphs := Re.split (Re.at_least 2 newline) text in
  omap (fun p => if truthy (strip p) then Some (strip p) else None)
    paragraphs.

Definition terminator (c : N) : bool :=
  ((c =? 46) || (c =? 33) || (c =? 63))%N.

Definition _split_by_sentences (text : str) : list str :=
  let pattern := Re.preceded_by terminator (Re.at_least 1 isspace) in
  let sentences := Re.split pattern text in
  omap (fun s => if truthy (strip s) then Some (strip s) else None)
    sentences.

(** One turn of the loop of [_split_long_text]. *)
Definition long_step (chunk_size : Z) (chunks : list str)
    (sentence : str) : list str :=
  let sentence := strip sentence in
  match last chunks with
  | None => chunks ++ [sentence]
  | Some last_chunk =>
      if len last_chunk + len sentence + 1 >? chunk_size
      then chunks ++ [sentence]
      else removelast chunks ++ [last_chunk ++ lit " " ++ sentence]
  end.

Definition _split_long_text (text : str) (chunk_size : Z) : list str :=
  let sentences := _split_by_sentences text in
  foldl (long_step chunk_size) [] sentences.

Definition close (chunks : list str) (current_chunk : str) : list str :=
  if truthy current_chunk then chunks ++ [current_chunk] else chunks.

(** One turn of the loop of [split_text], on the pair of [chunks] and
    [current_chunk]. *)
Definition step (chunk_size chunk_overlap : Z)
    (st : list str * str) (paragraph : str) : list str * str :=
  let '(chunks, current_chunk) := st in
  let paragraph := strip paragraph in
  if len paragraph >? chunk_size then
    let chunks := close chunks current_chunk in
    (chunks ++ _split_long_text paragraph chunk_size, [])
  else if len current_chunk + len paragraph + 2 >? chunk_size then
    let chunks := close chunks current_chunk in
    match last chunks with
    | Some prev =>
        if chunk_overlap >? 0 then
          let overlap_text := slice_from (- chunk_overlap) prev in
          (chunks, overlap_text ++ lit " " ++ paragraph)
        else (chunks, paragraph)
    | None => (chunks, paragraph)
    end
  else if truthy current_chunk then
    (chunks, current_chunk ++ [LF; LF] ++ paragraph)
  else (chunks, paragraph).

Definition split_text (self : t) (text : str)
    (chunk_size chunk_overlap : option Z) : list str :=
  let chunk_size := int_or chunk_size self.(TextProcessor.chunk_size) in
  let chunk_overlap :=
    int_or chunk_overlap self.(TextProcessor.chunk_overlap) in
  if negb (truthy text) then []
  else
    let paragraphs := _split_by_paragraphs text in
    if negb (truthy paragraphs) then []
    else
      let '(chunks, current_chunk) :=
        foldl (step chunk_size chunk_overlap) ([], []) paragraphs in
      close chunks current_chunk.

(** [max_length] is 200 when the caller gives none. *)
Definition truncate_for_preview (text : str) (max_length : Z) : str :=
  if len text <=? max_length then text
  else strip (slice_to max_length text) ++ lit "...".

Section Embedding.

(** [\w] on one code point: the letters and digits of Unicode and the
    underscore, a table of the interpreter. *)
Variable word : N -> bool.

(** The class [[\w\s.,!?;:'-]], whose complement is replaced. *)
Definition kept (c : N) : bool :=
  word c || isspace c || bool_decide (c ∈ lit ".,!?;:'-").

Definition clean_for_embedding (text : str) : str :=
  let text := Re.sub (Re.one (fun c => negb (kept c))) (lit " ") text in
  let text := Re.sub (Re.at_least 1 isspace) (lit " ") text in
  strip text.

End Embedding.

End TextProcessor.

(** ** The vector store client (vector_client.py) *)

Module VectorStoreClient.

(** The calls that [delete] makes on [self.index]. *)
Inductive call :=
| DeleteAll (namespace : str)
| Delete (ids : list str) (namespace : str).

(** [self.index], the object that [self.pinecone.Index(host=host)]
    returns, as [delete] uses it: the name of its class, and the two
    methods that [delete] looks up on it. A method that the object does
    not have is [None]: looking it up raises [AttributeError]. A method
    gives [str(result)] of what it returns, or the exception it
    raises. *)
Record Index := {
  type_name : string;
  index_delete : option (list str -> str -> result string);
  index_delete_all : option (str -> result string)
}.

Record t := {
  namespace : str;
  index : Index
}.

(** [self.index.<name>] *)
Definition getattr {A} (obj : Index) (name : string) (method : option A)
    : result A :=
  match method with
  | Some m => Return m
  | None => Raise (no_attribute (type_name obj) name)
  end.

(** The end of [delete]: the dict returned after the [calls] made on the
    index, when the body of the [try] returned [str(result)] or raised. *)
Definition answer (calls : list call) (outcome : result string)
    : gmap string string * list call :=
  match outcome with
  | Return result =>
      ({[ "status" := "success"; "details" := result ]}, calls)
  | Raise e => ({[ "error" := exn_message e ]}, calls)
  end.

(** The dict that [delete] returns, and the calls made on the index. *)
Definition delete (self : t) (ids : option (list str))
    (namespace : option str) (delete_all : bool)
    : gmap string string * list call :=
  let ns := str_or namespace self.(VectorStoreClient.namespace) in
  if delete_all then
    match getattr self.(index) "delete_all" (index_delete_all self.(index)) with
    | Return method => answer [DeleteAll ns] (method ns)
    | Raise e => answer [] (Raise e)
    end
  else if truthy (default [] ids) then
    match getattr self.(index) "delete" (index_delete self.(index)) with
    | Return method =>
        answer [Delete (default [] ids) ns] (method (default [] ids) ns)
    | Raise e => answer [] (Raise e)
    end
  else ({[ "error" := "Must provide ids or delete_all=True" ]}, []).

(** [range(0, stop, step)]: the values [0], [step], [2 * step], ... below
    [stop]; [fuel] bounds their number. *)
Fixpoint range_from (fuel i stop step : nat) : list nat :=
  match fuel with
  | O => []
  | S fuel =>
      if (i <? stop)%nat then i :: range_from fuel (i + step) stop step
      else []
  end.

Definition range (stop step : nat) : list nat := range_from stop 0 stop step.

Section Embeddings.

Context {Embedding : Type}.

(** [self.openai.embeddings.create(model=..., input=batch)]: the
    embeddings of [response.data], or the exception of the provider. *)
Variable create : list str -> result (list Embedding).

Definition batch_size : nat := 100.

(** The loop of [batch_embed] over the starts of the batches: the batches
    that are sent, and the embeddings or the exception. *)
Fixpoint embed_batches (starts : list nat) (texts : list str)
    (embeddings : list Embedding)
    : list (list str) * result (list Embedding) :=
  match starts with
  | [] => ([], Return embeddings)
  | i :: starts =>
      let batch := take batch_size (drop i texts) in
      match create batch with
      | Return data =>
          let '(sent, r) := embed_batches starts texts (embeddings ++ data) in
          (batch :: sent, r)
      | Raise e => ([batch], Raise e)
      end
  end.

Definition batch_embed (texts : list str)
    : list (list str) * result (list Embedding) :=
  if negb (truthy texts) then ([], Return [])
  else embed_batches (range (length texts) batch_size) texts [].

End Embeddings.

End VectorStoreClient.

(** ** The document source client (confluence_client.py) *)

Module ConfluenceClient.

Section Paging.

(** A page summary of the listing, and the state of the remote
    service. *)
Context {Summary Upstream : Type}.

(** One request [/space/{space_key}/content/page?start=..&limit=..]:
    the list [result.get("page", {}).get("results", [])] and the next
    state of the service. [_make_request] does not raise: a failed
    request gives a dict without ["page"], hence the empty list. *)
Variable request : Upstream -> Z -> Z -> list Summary * Upstream.

Definition limit : Z := 100.

(** The [while True] loop of [get_space_pages]; [fuel] bounds the
    number of requests. *)
Fixpoint get_space_pages_loop (fuel : nat) (u : Upstream) (start : Z)
    (all_pages : list Summary) : option (list Summary * Upstream) :=
  match fuel with
  | O => None
  | S fuel =>
      let '(pages, u) := request u start limit in
      if negb (truthy pages) then Some (all_pages, u)
      else
        let all_pages := all_pages ++ pages in
        if len pages <? limit then Some (all_pages, u)
        else get_space_pages_loop fuel u (start + limit) all_pages
  end.

Definition get_space_pages (fuel : nat) (u : Upstream)
    : option (list Summary * Upstream) :=
  get_space_pages_loop fuel u 0 [].

(** The state of the service before the [k]-th request of a listing
    that is still running, and the pages that request returns. *)
Fixpoint state_before (u : Upstream) (k : nat) : Upstream :=
  match k with
  | O => u
  | S k =>
      (request (state_before u k) (Z.of_nat k * limit) limit).2
  end.

Definition page (u : Upstream) (k : nat) : list Summary :=
  (request (state_before u k) (Z.of_nat k * limit) limit).1.

Definition short (u : Upstream) (k : nat) : Prop :=
  len (page u k) < limit.

End Paging.

(** *** Requests *)

(** [s.rstrip(ch)] for one character. *)
Fixpoint rstrip_char (ch : N) (s : str) : str :=
  match s with
  | [] => []
  | c :: r =>
      match rstrip_char ch r with
      | [] => if (c =? ch)%N then [] else [c]
      | r' => c :: r'
      end
  end.

Record t := { url : str; email : str; api_token : str }.

(** [ConfluenceClient(url, email, api_token)]; the headers, which are
    built from the credentials, are the same in every request. *)
Definition init (url email api_token : str) : t :=
  {| url := rstrip_char 47 url; email := email; api_token := api_token |}.

(** An element of a list of results, with the keys that are read: a
    space, a page summary or a search result. *)
Record Item := {
  item_id : option str;       (* ["id"] *)
  item_key : option str;      (* ["key"] *)
  item_name : option str;     (* ["name"] *)
  item_type : option str;     (* ["type"] *)
  content_id : option str     (* ["content"]["id"] *)
}.

(** The JSON object of an answer, with the keys that are read. *)
Record Response := {
  results : option (list Item);        (* ["results"] *)
  page_results : option (list Item);   (* ["page"]["results"] *)
  error : option string;               (* ["error"] *)
  title : option str;                  (* ["title"] *)
  space_key : TextProcessor.slot (option str);
                                       (* ["space"], and its ["key"] *)
  webui : TextProcessor.slot (option str);
                                       (* ["_links"], and its ["webui"] *)
  version : TextProcessor.slot (option Z);
                                       (* ["version"], and its ["number"] *)
  content : TextProcessor.JsonPage;    (* the part under ["body"] *)
  other_keys : bool                    (* there are keys that are not read *)
}.

(** The key of a slot is in the dict. *)
Definition filled {A} (x : TextProcessor.slot A) : bool :=
  match x with
  | TextProcessor.missing => false
  | _ => true
  end.

Definition present {A} (x : option A) : bool :=
  match x with Some _ => true | None => false end.

(** The truth value of the dict: it has a key. *)
Definition has_key (r : Response) : bool :=
  present (results r) || present (page_results r) || present (error r)
  || present (title r) || filled (space_key r) || filled (webui r)
  || filled (version r) || filled (TextProcessor.json_body (content r))
  || other_keys r.

(** The [params] of a search request. *)
Record Params := { cql : str; params_limit : Z; expand : str }.

(** The query that [search_pages] builds. *)
Definition search_cql (query : str) (space_key : option str) : str :=
  let cql := lit "text ~ " ++ [34%N] ++ query ++ [34%N] in
  let cql :=
    match space_key with
    | Some (c :: r) =>
        cql ++ lit " AND space = " ++ [34%N] ++ (c :: r) ++ [34%N]
    | _ => cql
    end in
  cql ++ lit " AND type = page ORDER BY lastmodified DESC".

Section Requests.

Context {Upstream : Type}.

(** [requests.request(method, url, params=params, ...)] with
    [raise_for_status()] and [response.json()]: the answer of the
    service or the exception, and the next state of the service. *)
Variable transport :
  Upstream -> string -> str -> option Params -> result Response * Upstream.

(** The dict with an empty list of results and [str(e)] as error. *)
Definition error_response (e : exn) : Response :=
  {| results := Some []; page_results := None;
     error := Some (exn_message e); title := None;
     space_key := TextProcessor.missing; webui := TextProcessor.missing;
     version := TextProcessor.missing;
     content := {| TextProcessor.json_body := TextProcessor.missing |};
     other_keys := false |}.

Definition _make_request (self : t) (u : Upstream) (method : string)
    (endpoint : str) (params : option Params) : Response * Upstream :=
  let url := self.(url) ++ lit "/wiki/rest/api" ++ endpoint in
  let '(response, u) := transport u method url params in
  (match response with
   | Return json => json
   | Raise e => error_response e
   end, u).

Definition get_all_spaces (self : t) (u : Upstream) (limit : Z)
    : list Item * Upstream :=
  let '(result, u) :=
    _make_request self u "GET"
      (lit "/space?limit=" ++ lit (pretty limit) ++ lit "&expand=key,homepage")
      None in
  (default [] (results result), u).

Definition get_all_space_keys (self : t) (u : Upstream)
    : list str * Upstream :=
  let '(spaces, u) := get_all_spaces self u 100 in
  (omap (fun s => match item_key s with
                  | Some (c :: r) => Some (c :: r)
                  | _ => None
                  end) spaces, u).

(** One request of [get_space_pages]. *)
Definition space_pages_request (self : t) (space_key : str) (u : Upstream)
    (start limit : Z) : list Item * Upstream :=
  let '(result, u) :=
    _make_request self u "GET"
      (lit "/space/" ++ space_key ++ lit "/content/page?start="
       ++ lit (pretty start) ++ lit "&limit=" ++ lit (pretty limit))
      None in
  (default [] (page_results result), u).

Definition get_page_by_id (self : t) (u : Upstream) (page_id : str)
    : Response * Upstream :=
  _make_request self u "GET"
    (lit "/content/" ++ page_id ++ lit "?expand=body.storage,version,space")
    None.

(** [get_page_by_id] does not raise: the [except] branch, which returns
    [None], is never taken. *)
Definition get_page_content (self : t) (u : Upstream) (page_id : str)
    : option Response * Upstream :=
  let '(response, u) := get_page_by_id self u page_id in
  (Some response, u).

Definition search_pages (self : t) (u : Upstream) (query : str)
    (space_key : option str) (limit : Z) : Response * Upstream :=
  _make_request self u "GET" (lit "/content/search")
    (Some {| cql := search_cql query space_key; params_limit := limit;
             expand := lit "content.version,content.space" |}).

End Requests.

End ConfluenceClient.

(** ** The server (server.py) *)

(** JSON data: the argument object of a tool call and the payload of its
    answer. *)
#[warnings="-register-all"] Inductive json :=
| JNull
| JBool (b : bool)
| JInt (z : Z)
| JFloat (literal : string)   (* a number with a fraction or an exponent *)
| JStr (s : string)
| JList (l : list json)
| JDict (l : list (string * json)).

(** The name of the type of the value of a JSON datum. *)
Definition type_of (j : json) : string :=
  match j with
  | JNull => "NoneType"
  | JBool _ => "bool"
  | JInt _ => "int"
  | JFloat _ => "float"
  | JStr _ => "str"
  | JList _ => "list"
  | JDict _ => "dict"
  end.

(** A number: an integer, or a float, with which nothing is computed. *)
Inductive number :=
| Int (z : Z)
| Float.

(** What a handler returns: data that [json.dumps] accepts, or an object
    that it rejects. *)
Inductive pyobj :=
| Jsonable (j : json)
| Opaque.

Record TextContent := { type : string; text : string }.

Module Server.

(** *** Indexing *)

Record Document := {
  id : str; title : str; content : str; space : str; url : str
}.

Record Metadata := {
  page_id : str; page_title : str; meta_space : str; meta_url : str;
  chunk_index : nat; meta_text : str
}.

Record IndexEntry (Embedding : Type) := {
  entry_id : str; values : Embedding; metadata : Metadata
}.
Arguments entry_id {Embedding} _.
Arguments values {Embedding} _.
Arguments metadata {Embedding} _.

(** The calls on the vector client, in the order they are made. *)
Inductive event (Embedding : Type) :=
| Embedded (text : str)
| Upserted (vectors : list (IndexEntry Embedding)).
Arguments Embedded {Embedding} text.
Arguments Upserted {Embedding} vectors.

(** A computation that makes calls and returns or raises. *)
Record io (Embedding A : Type) := IO {
  trace : list (event Embedding);
  outcome : result A
}.
Arguments IO {Embedding A} trace outcome.
Arguments trace {Embedding A} _.
Arguments outcome {Embedding A} _.

#[global] Instance io_ret {E} : MRet (io E) := fun A a => IO [] (Return a).
#[global] Instance io_bind {E} : MBind (io E) := fun A B f m =>
  match outcome m with
  | Return a => IO (trace m ++ trace (f a)) (outcome (f a))
  | Raise e => IO (trace m) (Raise e)
  end.
#[global] Instance io_fmap {E} : FMap (io E) := fun A B f m =>
  IO (trace m) (match outcome m with
                | Return a => Return (f a)
                | Raise e => Raise e
                end).

(** A call of [split_text] with one positional argument and keyword
    arguments: a keyword that is not a parameter of the method, or that
    names the parameter already given, is a [TypeError]. *)
Definition call_split_text (self : TextProcessor.t) (text : str)
    (kwargs : list (string * Z)) : result (list str) :=
  match
    List.find
      (fun kv => negb (bool_decide (kv.1 ∈ ["chunk_size"; "chunk_overlap"])))
      kwargs
  with
  | Some (k, _) =>
      Raise (TypeError
        ("TextProcessor.split_text() got an unexpected keyword argument '"
         +:+ k +:+ "'"))
  | None =>
      let kw : gmap string Z := list_to_map kwargs in
      Return (TextProcessor.split_text self text
                (kw !! "chunk_size") (kw !! "chunk_overlap"))
  end.

Section Indexing.

Context {Embedding : Type}.

(** [self.text_processor] and [self.vector_client.generate_embedding],
    which raises when the embedding service fails. *)
Variable text_processor : TextProcessor.t.
Variable generate_embedding : str -> result Embedding.

Definition embed (chunk : str) : io Embedding Embedding :=
  IO [Embedded chunk] (generate_embedding chunk).

(** [self.vector_client.upsert(chunks)]: the client catches the
    failures of the index itself, and its answer is not read. *)
Definition upsert (chunks : list (IndexEntry Embedding))
    : io Embedding unit :=
  IO [Upserted chunks] (Return tt).

Definition lift {A} (r : result A) : io Embedding A := IO [] r.

(** The body of the inner loop, for the chunk [i]. *)
Definition index_chunk (doc : Document) (ic : nat * str)
    : io Embedding (IndexEntry Embedding) :=
  let '(i, chunk) := ic in
  embedding ← embed chunk;
  mret {|
    entry_id := doc.(id) ++ lit "_" ++ lit (pretty i);
    values := embedding;
    metadata := {|
      page_id := doc.(id);
      page_title := doc.(title);
      meta_space := doc.(space);
      meta_url := doc.(url);
      chunk_index := i;
      meta_text := slice_to 200 chunk
    |}
  |}.

(** The body of the outer loop. *)
Definition index_document (doc : Document)
    : io Embedding (list (IndexEntry Embedding)) :=
  text_chunks ← lift (call_split_text text_processor doc.(content)
                        [("chunk_size", 512); ("overlap", 50)]);
  mapM (index_chunk doc) (zip (seq 0 (length text_chunks)) text_chunks).

Definition _index_documents (documents : list Document)
    : io Embedding Z :=
  per_document ← mapM index_document documents;
  let chunks := concat per_document in
  _ ← (if truthy chunks then upsert chunks else mret tt);
  mret (len chunks).

End Indexing.

(** *** Merging *)

Inductive Relevance := high | medium.

Inductive Preview :=
| chunk_preview (s : str)
| content_preview (s : str).

Section Merging.

(** The type of the similarity scores, with the values [0] and [1.0]
    that the program writes. *)
Context {Score : Type} (score_0 score_1 : Score).

(** A match of the vector search: a dict with an optional
    ["metadata"] dict, whose values are strings, and an optional
    ["score"]. *)
Record Match := {
  match_metadata : option (gmap string str);
  match_score : option Score
}.

Record VectorResults := { matches : option (list Match) }.

Record Result := {
  result_id : str;
  result_title : str;
  result_space : str;
  result_url : str;
  result_score : Score;
  relevance : Relevance;
  preview : Preview
}.

Definition match_page_id (m : Match) : str :=
  default [] (default ∅ (match_metadata m) !! "page_id").

Definition vector_entry (m : Match) : Result :=
  let metadata := default ∅ (match_metadata m) in
  {| result_id := default [] (metadata !! "page_id");
     result_title := default (lit "Untitled") (metadata !! "page_title");
     result_space := default (lit "unknown") (metadata !! "space");
     result_url := default [] (metadata !! "url");
     result_score := default score_0 (match_score m);
     relevance := high;
     preview := chunk_preview (default [] (metadata !! "text")) |}.

Definition document_entry (doc : Document) : Result :=
  {| result_id := doc.(id);
     result_title := doc.(title);
     result_space := doc.(space);
     result_url := doc.(url);
     result_score := score_1;
     relevance := medium;
     preview := content_preview (slice_to 200 doc.(content) ++ lit "...") |}.

(** One turn of the first loop, on [seen_ids] and [final_results]. *)
Definition vector_step (st : gset str * list Result) (m : Match)
    : gset str * list Result :=
  let '(seen_ids, final_results) := st in
  let page_id := match_page_id m in
  if truthy page_id && bool_decide (page_id ∉ seen_ids)
  then ({[ page_id ]} ∪ seen_ids, final_results ++ [vector_entry m])
  else st.

(** One turn of the second loop. *)
Definition document_step (st : gset str * list Result) (doc : Document)
    : gset str * list Result :=
  let '(seen_ids, final_results) := st in
  if bool_decide (doc.(id) ∉ seen_ids)
  then ({[ doc.(id) ]} ∪ seen_ids, final_results ++ [document_entry doc])
  else st.

Definition _merge_results (documents : list Document)
    (vector_results : VectorResults) (top_k : Z) : list Result :=
  let '(seen_ids, final_results) :=
    foldl vector_step (∅, [])
      (slice_to top_k (default [] (matches vector_results))) in
  if negb (truthy final_results) then
    (foldl document_step (seen_ids, final_results)
       (slice_to top_k documents)).2
  else final_results.

End Merging.

(** *** The tool-call handler *)

Section Tools.

(** [json.dumps(_, ensure_ascii=False, indent=2)] on data it accepts. *)
Variable render : json -> string.

(** The handlers whose work is done by the remote services: what they
    return or raise, from their arguments. *)
Variable _search_knowledge : json -> json -> json -> result pyobj.
Variable _sync_knowledge_source : json -> json -> result pyobj.
Variable _get_space_info : result pyobj.

(** The clock: the day of the month and the length of the month of
    [datetime.now()], and the timestamp of today's date with another
    day of the month. *)
Variable today : Z.
Variable month_length : Z.
Variable mktime : Z -> Z.

(** [get_recent_pages(date_filter, limit)] and the list built from its
    answer. *)
Variable recent_pages : Z -> json -> result pyobj.

Definition dumps (o : pyobj) : result string :=
  match o with
  | Jsonable j => Return (render j)
  | Opaque => Raise (TypeError "Object is not JSON serializable")
  end.

(** [arguments[key]] *)
Definition getitem (arguments : gmap string json) (key : string)
    : result json :=
  match arguments !! key with
  | Some v => Return v
  | None => Raise (KeyError key)
  end.

(** [n - days] for an integer [n]; a boolean counts as an integer, and
    a float gives a float. *)
Definition int_minus (n : Z) (days : json) : result number :=
  match days with
  | JInt d => Return (Int (n - d))
  | JBool b => Return (Int (n - (if b then 1 else 0)))
  | JFloat _ => Return Float
  | _ =>
      Raise (TypeError
        ("unsupported operand type(s) for -: 'int' and '" +:+ type_of days
         +:+ "'"))
  end.

(** [datetime.now().replace(day=day)]: the day is converted to a C [int]
    of 32 bits, through a C [long], of 64 bits here, and then compared
    with the days of the month. *)
Definition replace_day (day : number) : result Z :=
  match day with
  | Float =>
      Raise (TypeError "'float' object cannot be interpreted as an integer")
  | Int day =>
      if (day <? - 2 ^ 63) || (2 ^ 63 <=? day) then
        Raise (OverflowError "Python int too large to convert to C long")
      else if 2 ^ 31 <=? day then
        Raise (OverflowError "signed integer is greater than maximum")
      else if day <? - 2 ^ 31 then
        Raise (OverflowError "signed integer is less than minimum")
      else if (1 <=? day) && (day <=? month_length) then Return day
      else Raise (ValueError "day is out of range for month")
  end.

Definition _get_recent_updates (days limit : json) : result pyobj :=
  day ← int_minus today days;
  date ← replace_day day;
  let date_filter := mktime date in
  recent_pages date_filter limit.

Definition error_result (e : exn) : json :=
  JDict [("error", JStr (exn_message e))].

Definition dispatch (name : string) (arguments : gmap string json)
    : result pyobj :=
  if decide (name = "search_knowledge") then
    query ← getitem arguments "query";
    _search_knowledge query
      (default JNull (arguments !! "space_key"))
      (default (JInt 5) (arguments !! "top_k"))
  else if decide (name = "sync_knowledge_source") then
    _sync_knowledge_source
      (default JNull (arguments !! "space_key"))
      (default (JBool false) (arguments !! "full_sync"))
  else if decide (name = "get_space_info") then
    _get_space_info
  else if decide (name = "get_recent_updates") then
    _get_recent_updates
      (default (JInt 7) (arguments !! "days"))
      (default (JInt 20) (arguments !! "limit"))
  else
    Return (Jsonable (JDict [("error", JStr ("Unknown tool: " +:+ name))])).

Definition call_tool (name : string) (arguments : gmap string json)
    : result (list TextContent) :=
  try_except
    (result ← dispatch name arguments;
     text ← dumps result;
     mret [{| type := "text"; text := text |}])
    (fun e =>
       text ← dumps (Jsonable (error_result e));
       mret [{| type := "text"; text := text |}]).

End Tools.

(** *** Searching and synchronizing *)

(** The dict that [_search_knowledge] returns; its ["metadata"] is a
    constant, and [list(set(...))] is given as the set. *)
Record SearchAnswer (Score : Type) := {
  answer_query : str;
  answer_results : list (@Result Score);
  total_found : Z;
  sources : gset str
}.
Arguments answer_query {Score} _.
Arguments answer_results {Score} _.
Arguments total_found {Score} _.
Arguments sources {Score} _.

(** The dict that [_sync_knowledge_source] returns. *)
Record SyncAnswer := {
  status : string;
  spaces_synced : Z;
  documents_indexed : Z;
  chunks_created : Z;
  sync_type : string
}.

Section Knowledge.

Context {Embedding Score Upstream : Type} (score_0 score_1 : Score).

(** [self.text_processor], [self.confluence_client] with the service
    behind it, and [self.vector_client]: its embedding call, as in the
    indexing, and its [search(query, top_k)]. *)
Variable text_processor : TextProcessor.t.
Variable confluence_client : ConfluenceClient.t.
Variable transport :
  Upstream -> string -> str -> option ConfluenceClient.Params ->
  result ConfluenceClient.Response * Upstream.
Variable generate_embedding : str -> result Embedding.
Variable vector_search : str -> Z -> result (@VectorResults Score).

(** [page_content.get(level, {}).get(key, d)]: on a level that holds a
    value that is not a dict, [.get] raises [AttributeError]. *)
Definition get_in {A} (level : TextProcessor.slot (option A)) (d : A)
    : result A :=
  match level with
  | TextProcessor.missing => Return d
  | TextProcessor.holds v => Return (default d v)
  | TextProcessor.other type_name _ => Raise (no_attribute type_name "get")
  end.

(** The document built from the content of a page; [unknown] is the
    space when the content names none. The text is extracted first, then
    the dict is built key by key: the space, the address and the version
    are read in levels that may hold a value that is not a dict. The
    number of the version, and its date, which is read in the same
    level, are not used afterwards. *)
Definition document_of (page_id unknown : str)
    (page_content : ConfluenceClient.Response) : result Document :=
  content ←
    TextProcessor.extract_text_json (ConfluenceClient.content page_content);
  space ← get_in (ConfluenceClient.space_key page_content) unknown;
  url ← get_in (ConfluenceClient.webui page_content) [];
  _ ← get_in (ConfluenceClient.version page_content) 1;
  Return {| id := page_id;
            title :=
              default (lit "Untitled") (ConfluenceClient.title page_content);
            content := content;
            space := space;
            url := url |}.

(** The body of both loops over pages, once the id of the page is known:
    an exception inside the [try] skips the page. *)
Definition fetch (page_id unknown : str) (st : list Document * Upstream)
    : list Document * Upstream :=
  let '(documents, u) := st in
  let '(page_content, u) :=
    ConfluenceClient.get_page_content transport confluence_client u page_id in
  match page_content with
  | Some page_content =>
      if ConfluenceClient.has_key page_content then
        match document_of page_id unknown page_content with
        | Return document => (documents ++ [document], u)
        | Raise _ => (documents, u)
        end
      else (documents, u)
  | None => (documents, u)
  end.

(** One turn of the loop of [_search_knowledge]. *)
Definition search_step (st : list Document * Upstream)
    (result : ConfluenceClient.Item) : list Document * Upstream :=
  match ConfluenceClient.content_id result with
  | Some (c :: r) => fetch (c :: r) (lit "unknown") st
  | _ => st
  end.

(** One turn of the inner loop of [_sync_knowledge_source]: a page
    without ["id"] raises [KeyError], which is caught. *)
Definition sync_step (space : str) (st : list Document * Upstream)
    (page : ConfluenceClient.Item) : list Document * Upstream :=
  match ConfluenceClient.item_id page with
  | Some page_id => fetch page_id space st
  | None => st
  end.

Definition io_try {A} (body : io Embedding A)
    (handler : exn -> io Embedding A) : io Embedding A :=
  match outcome body with
  | Return _ => body
  | Raise e => IO (trace body ++ trace (handler e)) (outcome (handler e))
  end.

Definition _search_knowledge (u : Upstream) (query : str)
    (space_key : option str) (top_k : Z)
    : io Embedding (SearchAnswer Score) * Upstream :=
  let '(search_results, u) :=
    ConfluenceClient.search_pages transport confluence_client u query
      space_key 20 in
  let '(documents, u) :=
    foldl search_step ([], u)
      (slice_to 10 (default [] (ConfluenceClient.results search_results))) in
  (_ ← (if truthy documents then
          io_try
            (_ ← _index_documents text_processor generate_embedding documents;
             mret tt)
            (fun _ => mret tt)   (* a warning is printed *)
        else mret tt);
   let vector_results :=
     match vector_search query top_k with
     | Return vector_results => vector_results
     | Raise _ => {| matches := Some [] |}
     end in
   let final_results :=
     _merge_results score_0 score_1 documents vector_results top_k in
   mret {| answer_query := query;
           answer_results := final_results;
           total_found := len final_results;
           sources := list_to_set (result_space <$> final_results) |},
   u).

(** The loop of [_sync_knowledge_source] over the spaces, on the state
    of the service, the calls made on the vector client and the two
    totals; [fuel] is the fuel of each listing. *)
Fixpoint sync_spaces (fuel : nat) (u : Upstream)
    (events : list (event Embedding)) (total_documents total_chunks : Z)
    (spaces : list str)
    : option (Upstream * list (event Embedding) * Z * Z) :=
  match spaces with
  | [] => Some (u, events, total_documents, total_chunks)
  | space :: spaces =>
      match
        ConfluenceClient.get_space_pages
          (ConfluenceClient.space_pages_request transport confluence_client
             space) fuel u
      with
      | None => None
      | Some (pages, u) =>
          let '(documents, u) := foldl (sync_step space) ([], u) pages in
          if truthy documents then
            let indexing :=
              _index_documents text_processor generate_embedding documents in
            match outcome indexing with
            | Return chunk_count =>
                sync_spaces fuel u (events ++ trace indexing)
                  (total_documents + len documents)
                  (total_chunks + chunk_count) spaces
            | Raise _ =>   (* a warning is printed *)
                sync_spaces fuel u (events ++ trace indexing)
                  total_documents total_chunks spaces
            end
          else sync_spaces fuel u events total_documents total_chunks spaces
      end
  end.

Definition _sync_knowledge_source (fuel : nat) (u : Upstream)
    (space_key : option str) (full_sync : bool)
    : option (SyncAnswer * list (event Embedding) * Upstream) :=
  let '(spaces, u) :=
    match space_key with
    | Some (c :: r) => ([c :: r], u)
    | _ => ConfluenceClient.get_all_space_keys transport confluence_client u
    end in
  match sync_spaces fuel u [] 0 0 spaces with
  | None => None
  | Some (u, events, total_documents, total_chunks) =>
      Some ({| status := "success";
               spaces_synced := len spaces;
               documents_indexed := total_documents;
               chunks_created := total_chunks;
               sync_type := if full_sync then "full" else "incremental" |},
            events, u)
  end.

(** [_get_space_info]: the key, the name and the type of every space. *)
Definition _get_space_info (u : Upstream)
    : list (str * str * str) * Upstream :=
  let '(spaces, u) :=
    ConfluenceClient.get_all_spaces transport confluence_client u 100 in
  ((fun s => (default [] (ConfluenceClient.item_key s),
              default [] (ConfluenceClient.item_name s),
              default (lit "global") (ConfluenceClient.item_type s)))
     <$> spaces, u).

End Knowledge.

End Server.

(** ** The steps of the normalization *)

Module Steps.

(** The steps of [_remove_html_tags] and [_clean_whitespace], by name,
    and their composition without the two steps that change nothing
    (the replacement of two newlines by one and the final [strip]). *)
Definition strip_tags (s : str) : str := Re.sub Re.tag [] s.

Definition collapse_newlines (s : str) : str :=
  Re.sub (Re.at_least 3 TextProcessor.newline) [LF; LF] s.

Definition collapse_blanks (s : str) : str :=
  Re.sub (Re.at_least 1 TextProcessor.blank) [SP] s.

Definition strip_blank_lines (s : str) : str :=
  join [LF] (filter (fun line => line ≠ []) (strip <$> split LF s)).

Definition normalize (raw : option str) : str :=
  match raw with
  | None => []
  | Some html =>
      strip_blank_lines
        (collapse_blanks
           (collapse_newlines
              (strip_tags (TextProcessor.decode_entities html))))
  end.

End Steps.

(** ** The operations in the words of the specification *)

Module Spec.

(** Normalization of markup, in three passes.

    First the two entities that are decoded, in one pass from the left:
    [&nbsp;] gives a space and [&#39;] an apostrophe; [skip] counts the
    characters of the entity that are still to be passed over. *)
Fixpoint decode_go (skip : nat) (s : str) : str :=
  match s with
  | [] => []
  | c :: r =>
      match skip with
      | S k => decode_go k r
      | O =>
          if startswith (lit "&nbsp;") s then 32%N :: decode_go 5 r
          else if startswith (lit "&#39;") s then 39%N :: decode_go 4 r
          else c :: decode_go 0 r
      end
  end.

Definition decode (s : str) : str := decode_go 0 s.

(** Then the tag spans, removed in one pass from the left. A span is an
    opening bracket, one or more characters that are not a closing
    bracket, and a closing bracket: [closing s] is the place of the
    first closing bracket of [s], and [span s] the length of the span
    that starts [s]. *)
Fixpoint closing (s : str) : option nat :=
  match s with
  | [] => None
  | c :: r => if (c =? 62)%N then Some O else S <$> closing r
  end.

Definition span (s : str) : option nat :=
  match s with
  | c :: r =>
      if (c =? 60)%N then
        match closing r with
        | Some (S n) => Some (S n + 2)%nat
        | _ => None
        end
      else None
  | [] => None
  end.

Fixpoint remove_spans_go (skip : nat) (s : str) : str :=
  match s with
  | [] => []
  | c :: r =>
      match skip with
      | S k => remove_spans_go k r
      | O =>
          match span s with
          | Some (S n) => remove_spans_go n r
          | _ => c :: remove_spans_go 0 r
          end
      end
  end.

Definition remove_spans (s : str) : str := remove_spans_go 0 s.

(** Last the lines: in every line each run of spaces and tabs becomes
    one space and the line is trimmed; the lines that are then empty
    are dropped, and the others are joined by single newlines. *)
Definition space_or_tab (c : N) : bool := ((c =? 32) || (c =? 9))%N.

Fixpoint collapse (s : str) : str :=
  match s with
  | [] => []
  | c :: r =>
      if space_or_tab c then
        match r with
        | d :: _ => if space_or_tab d then collapse r else 32%N :: collapse r
        | [] => [32%N]
        end
      else c :: collapse r
  end.

Definition lines (s : str) : list str :=
  filter (fun line => line ≠ [])
    ((fun line => strip (collapse line)) <$> split LF s).

Definition normalize (html : str) : str :=
  join [LF] (lines (remove_spans (decode html))).

(** Deduplication by a key, the first occurrence winning: an element is
    kept, and the later elements with its key are dropped. *)
Definition first_occurrences {A} (key : A -> str) (l : list A) : list A :=
  foldr (fun x kept => x :: filter (fun y => key y ≠ key x) kept) [] l.

(** Merge. The underlying document of a vector match is the page that
    the ["page_id"] of its metadata names; a match without metadata,
    without a page id or with an empty one names no document. *)
Definition document_id {Score} (m : @Server.Match Score) : option str :=
  match Server.match_metadata m with
  | Some metadata =>
      match metadata !! "page_id" with
      | Some (c :: r) => Some (c :: r)
      | _ => None
      end
  | None => None
  end.

(** A value of the metadata of a match, [d] when it is not there. *)
Definition metadata_field {Score} (m : @Server.Match Score) (key : string)
    (d : str) : str :=
  match Server.match_metadata m with
  | Some metadata =>
      match metadata !! key with
      | Some v => v
      | None => d
      end
  | None => d
  end.

(** The entry of a vector match, tagged high. *)
Definition vector_result {Score} (score_0 : Score) (m : @Server.Match Score)
    : @Server.Result Score :=
  {| Server.result_id := metadata_field m "page_id" [];
     Server.result_title := metadata_field m "page_title" (lit "Untitled");
     Server.result_space := metadata_field m "space" (lit "unknown");
     Server.result_url := metadata_field m "url" [];
     Server.result_score :=
       match Server.match_score m with
       | Some score => score
       | None => score_0
       end;
     Server.relevance := Server.high;
     Server.preview := Server.chunk_preview (metadata_field m "text" []) |}.

(** The entry of a candidate of the document source, tagged medium. *)
Definition document_result {Score} (score_1 : Score) (doc : Server.Document)
    : @Server.Result Score :=
  {| Server.result_id := Server.id doc;
     Server.result_title := Server.title doc;
     Server.result_space := Server.space doc;
     Server.result_url := Server.url doc;
     Server.result_score := score_1;
     Server.relevance := Server.medium;
     Server.preview :=
       Server.content_preview
         (slice_to 200 (Server.content doc) ++ lit "...") |}.

End Spec.

(** ** Concrete inputs and auxiliary notions of the proofs *)

Module Examples.


(** A collection of 250 documents, served on request: the pages
    [start], ..., [start + limit - 1] that exist. *)
Definition listing (u : unit) (start limit : Z) : list nat * unit :=
  (take (Z.to_nat limit) (drop (Z.to_nat start) (seq 0 250)), u).

(** Two paragraphs of two sentences each, nine characters long. *)
Definition two_paragraphs : str :=
  lit "One. Two." ++ [LF; LF] ++ lit "Six. Ten.".

(** One paragraph of two sentences, seventeen characters long. *)
Definition two_sentences : str := lit "aaaaaaa. bbbbbbb.".

(** Two paragraphs of eight characters. *)
Definition short_paragraphs : str :=
  lit "aaaaaaaa" ++ [LF; LF] ++ lit "bbbbbbbb".

(** A text without markup, with spaces, a tab, blank lines, an
    ampersand and a bracket. *)
Definition plain_text : str :=
  lit "  R&D: " ++ [TAB] ++ lit " 1 < 2 " ++ [LF; LF; LF]
    ++ lit " next  line ".

(** Two short paragraphs, a paragraph of two sentences that is cut, and
    two more short paragraphs. *)
Definition mixed_paragraphs : str :=
  lit "aaaaaaaa" ++ [LF; LF] ++ lit "bbbbbbbb" ++ [LF; LF]
    ++ lit "One two. Three four." ++ [LF; LF] ++ lit "cc" ++ [LF; LF]
    ++ lit "dddddddddd".

End Examples.

(** A match that the first loop of [_merge_results] adds: it has a page id,
    which was not seen. *)
Definition fresh_match {Score : Type} (seen : gset str) (m : @Server.Match Score)
    : Prop :=
  Server.match_page_id m ≠ [] ∧ Server.match_page_id m ∉ seen.

(** A text that does not start, or does not end, with a space. *)
Definition starts_clean (s : str) : Prop :=
  match s with c :: _ => isspace c = false | [] => True end.

Definition ends_clean (s : str) : Prop :=
  match last s with Some c => isspace c = false | None => True end.

(** The character before the position reached after [t]. *)
Definition before (prev : option N) (t : str) : option N :=
  match last t with Some c => Some c | None => prev end.

(** [w] put in front of the first piece. *)
Definition prepend_head (w : str) (l : list str) : list str :=
  match l with
  | [] => [w]
  | x :: xs => (w ++ x) :: xs
  end.

(** [re.sub] with a pattern [c{k,}]. *)
Definition squeeze (k : nat) (p : N → bool) (repl s : str) : str :=
  Re.sub (Re.at_least k p) repl s.

(** The first line of a text and the lines after it that are not empty. *)
Definition shape (s : str) : str * list str :=
  match split LF s with
  | h :: t => (h, filter (λ l, l ≠ []) t)
  | [] => ([], [])
  end.

(** The non-empty lines of a text, from its shape; the shape of a text
    with one more character in front. *)
Definition shape_lines (x : str * list str) : list str :=
  filter (λ l, l ≠ []) [x.1] ++ x.2.

Definition shape_cons (c : N) (x : str * list str) : str * list str :=
  if decide (c = LF) then ([], shape_lines x) else (c :: x.1, x.2).

(** [page["body"]["storage"]["value"]], when every level is there. *)
Definition raw_markup (p : TextProcessor.Page) : option str :=
  match TextProcessor.body p with
  | Some b =>
      match TextProcessor.storage b with
      | Some st => TextProcessor.value st
      | None => None
      end
  | None => None
  end.

(** The lines that whitespace cleaning keeps: trimmed, and not empty. *)
Definition content_lines (s : str) : list str :=
  filter (λ l, l ≠ []) (strip <$> split LF s).

(** A line as the cleaning leaves it. *)
Definition clean_line (l : str) : Prop :=
  l ≠ [] ∧ (LF ∉ l) ∧ starts_clean l ∧ ends_clean l.

(** No two newlines in a row. *)
Fixpoint blank_line_free (s : str) : Prop :=
  match s with
  | c :: r =>
      match r with
      | d :: _ => ¬ (c = LF ∧ d = LF) ∧ blank_line_free r
      | [] => True
      end
  | [] => True
  end.

(** [e] occurs in [s]. *)
Fixpoint occurs (e s : str) : bool :=
  match s with
  | [] => false
  | _ :: r => startswith e s || occurs e r
  end.

(** [c] is a character of [s]. *)
Definition has (c : N) (s : str) : bool := existsb (N.eqb c) s.

(** [s] starts with a closing bracket. *)
Definition closes (s : str) : bool :=
  match s with
  | c :: _ => (c =? 62)%N
  | [] => false
  end.

(** No span [<...>] with at least one character between the brackets:
    every opening bracket is followed at once by a closing one, or by
    none at all. *)
Fixpoint tag_free (s : str) : bool :=
  match s with
  | [] => true
  | c :: r => (negb (c =? 60)%N || closes r || negb (has 62 r)) && tag_free r
  end.

(** The entities of markup: the non-breaking space, the ampersand, the
    two angle brackets, the double quote and the apostrophe. *)
Definition entities : list str :=
  [lit "&nbsp;"; lit "&amp;"; lit "&lt;"; lit "&gt;"; lit "&quot;";
   lit "&#39;"].

(** A text free of markup: it has no tag span and none of the
    entities. *)
Definition markup_free (t : str) : Prop :=
  tag_free t = true ∧ Forall (λ e, occurs e t = false) entities.

(** [s] starts with a character that is not a space. *)
Definition leads (s : str) : bool :=
  match s with
  | c :: _ => negb (isspace c)
  | [] => false
  end.

(** The words of a text: its maximal runs of characters that are not
    spaces. *)
Fixpoint words (s : str) : list str :=
  match s with
  | [] => []
  | c :: r =>
      if isspace c then words r
      else if leads r then cons_head c (words r)
      else [c] :: words r
  end.

(** The characters of [s] before its first space. *)
Definition first_word (s : str) : str :=
  take (Re.run (λ c, negb (isspace c)) s) s.

(** The words of a text, one space between them. *)
Definition spaced (s : str) : str := join [SP] (words s).

(** The page whose markup is [html]. *)
Definition page_of (html : str) : TextProcessor.Page :=
  {| TextProcessor.body :=
       Some {| TextProcessor.storage :=
                 Some {| TextProcessor.value := Some html |} |} |}.

(** No tab, and no space after a space. *)
Fixpoint tidy (s : str) : Prop :=
  match s with
  | [] => True
  | c :: r =>
      c ≠ TAB
      ∧ (TextProcessor.blank c = true → Re.run TextProcessor.blank r = O)
      ∧ tidy r
  end.

(** A chunk that starts with the tail of the chunk before it and a
    space. *)
Definition overlapped (chunk_overlap : Z) (prev chunk : str) : Prop :=
  ∃ rest, chunk = slice_from (- chunk_overlap) prev ++ lit " " ++ rest.

(** Every chunk after the first is overlapped with the one before. *)
Definition chained (chunk_overlap : Z) (chunks : list str) : Prop :=
  ∀ i prev chunk,
    chunks !! i = Some prev → chunks !! S i = Some chunk →
    overlapped chunk_overlap prev chunk.

(** A pattern whose matches are made of spaces. *)
Definition gap (m : Re.matcher) : Prop :=
  ∀ prev s n, m prev s = Some n → Forall (λ c, isspace c = true) (take n s).

(** A text with a character that is not a space. *)
Definition inked (s : str) : Prop := Exists (λ c, isspace c = false) s.

(** Every space of the text is the character [SP], and no space follows
    it. *)
Fixpoint packed (s : str) : Prop :=
  match s with
  | [] => True
  | c :: r => (isspace c = true → c = SP ∧ Re.run isspace r = O) ∧ packed r
  end.

(** A service that is down: every request raises. *)
Definition service_down (u : unit) (method : string) (url : str)
    (params : option ConfluenceClient.Params)
    : result ConfluenceClient.Response * unit :=
  (Raise (OtherError "connection refused"), u).

(** The client of the examples. *)
Definition example_client : ConfluenceClient.t :=
  ConfluenceClient.init (lit "https://example.atlassian.net/") (lit "a@b.c")
    (lit "token").



(** A service whose pages have a title and a body that is [null]. *)
Definition service_null_body (u : unit) (method : string) (url : str)
    (params : option ConfluenceClient.Params)
    : result ConfluenceClient.Response * unit :=
  (Return {| ConfluenceClient.results := None;
             ConfluenceClient.page_results := None;
             ConfluenceClient.error := None;
             ConfluenceClient.title := Some (lit "Guide");
             ConfluenceClient.space_key := TextProcessor.missing;
             ConfluenceClient.webui := TextProcessor.missing;
             ConfluenceClient.version := TextProcessor.missing;
             ConfluenceClient.content :=
               {| TextProcessor.json_body :=
                    TextProcessor.other "NoneType" false |};
             ConfluenceClient.other_keys := false |}, u).

(** A service that answers the first request with a full page of 100
    summaries and fails from the second request on; its state is the
    number of requests made. *)
Definition service_failing (u : nat) (method : string) (url : str)
    (params : option ConfluenceClient.Params)
    : result ConfluenceClient.Response * nat :=
  (match u with
   | O =>
       Return {| ConfluenceClient.results := None;
                 ConfluenceClient.page_results :=
                   Some (replicate 100
                           {| ConfluenceClient.item_id := Some (lit "42");
                              ConfluenceClient.item_key := None;
                              ConfluenceClient.item_name := None;
                              ConfluenceClient.item_type := None;
                              ConfluenceClient.content_id := None |});
                 ConfluenceClient.error := None;
                 ConfluenceClient.title := None;
                 ConfluenceClient.space_key := TextProcessor.missing;
                 ConfluenceClient.webui := TextProcessor.missing;
                 ConfluenceClient.version := TextProcessor.missing;
                 ConfluenceClient.content :=
                   {| TextProcessor.json_body := TextProcessor.missing |};
                 ConfluenceClient.other_keys := false |}
   | S _ => Raise (OtherError "connection reset")
   end, S u).

(** The character before is one that ends a sentence. *)
Definition terminated (prev : option N) : Prop :=
  match prev with
  | Some p => TextProcessor.terminator p = true
  | None => False
  end.

(** No space of the text comes after a character that ends a sentence:
    the text has no place where a sentence would be cut. [prev] is the
    character before the text. *)
Fixpoint seamless (prev : option N) (s : str) : Prop :=
  match s with
  | [] => True
  | c :: r => ¬ (terminated prev ∧ isspace c = true) ∧ seamless (Some c) r
  end.

(** The pattern of [_split_by_sentences]. *)
Definition sentence_gap : Re.matcher :=
  Re.preceded_by TextProcessor.terminator (Re.at_least 1 isspace).

(** The text ends with a character that ends a sentence. *)
Definition ends_sentence (s : str) : Prop :=
  ∃ c, last s = Some c ∧ TextProcessor.terminator c = true.

(** Every text of the list but the last. *)
Fixpoint but_last (P : str → Prop) (l : list str) : Prop :=
  match l with
  | [] => True
  | x :: r =>
      match r with
      | [] => True
      | _ :: _ => P x ∧ but_last P r
      end
  end.

(** What a chunk of [split_text] is made of: paragraphs joined by blank
    lines, after a prefix; or sentences of one [paragraph], joined by
    single spaces. *)
Inductive piece :=
| Packed (prefix : str) (paragraphs : list str)
| Sentences (paragraph : str) (sentences : list str).

Definition render (x : piece) : str :=
  match x with
  | Packed prefix paragraphs => prefix ++ join [LF; LF] paragraphs
  | Sentences _ sentences => join [SP] sentences
  end.

(** The paragraphs or the sentences that a chunk holds. *)
Definition units (x : piece) : list str :=
  match x with
  | Packed _ paragraphs => paragraphs
  | Sentences _ sentences => sentences
  end.

(** The units of a text for a chunk size: its paragraphs, and instead of
    a paragraph that is longer than the chunk size, its sentences. *)
Definition paragraph_units (chunk_size : Z) (p : str) : list str :=
  if len p >? chunk_size then TextProcessor._split_by_sentences p else [p].

Definition text_units (chunk_size : Z) (text : str) : list str :=
  concat (paragraph_units chunk_size
            <$> TextProcessor._split_by_paragraphs text).

(** The prefix of a chunk of paragraphs whose first paragraph is [first],
    from the chunk [prev] before it: the last [chunk_overlap] characters
    of that chunk and a space, when the overlap is positive and the chunk
    before holds paragraphs, or holds sentences while [first] leaves no
    room for two more characters within the chunk size; no prefix
    otherwise, and none for the first chunk. *)
Definition expected_prefix (chunk_size chunk_overlap : Z)
    (prev : option piece) (first : str) : str :=
  match prev with
  | None => []
  | Some q =>
      if (0 <? chunk_overlap)
         && match q with
            | Packed _ _ => true
            | Sentences _ _ => chunk_size <? len first + 2
            end
      then slice_from (- chunk_overlap) (render q) ++ [SP]
      else []
  end.

(** A chunk of paragraphs has the prefix that the chunk before it
    gives. *)
Definition link (chunk_size chunk_overlap : Z) (prev : option piece)
    (x : piece) : Prop :=
  match x with
  | Packed prefix paragraphs =>
      prefix
      = expected_prefix chunk_size chunk_overlap prev
          (default [] (head paragraphs))
  | Sentences _ _ => True
  end.

Fixpoint linked (chunk_size chunk_overlap : Z) (prev : option piece)
    (l : list piece) : Prop :=
  match l with
  | [] => True
  | x :: r =>
      link chunk_size chunk_overlap prev x
      ∧ linked chunk_size chunk_overlap (Some x) r
  end.

(** What a chunk holds, for a chunk size and the paragraphs of the text:
    paragraphs of the text that are not longer than the chunk size and,
    unless there is only one, fit the chunk size together with the
    prefix; or consecutive sentences of a paragraph of the text that is
    longer than the chunk size, which fit the chunk size unless there is
    only one. *)
Definition sized (chunk_size : Z) (known : list str) (x : piece) : Prop :=
  match x with
  | Packed prefix paragraphs =>
      paragraphs ≠ []
      ∧ Forall (λ p, p ∈ known ∧ p ≠ [] ∧ len p ≤ chunk_size) paragraphs
      ∧ (len (render x) ≤ chunk_size ∨ ∃ p, paragraphs = [p])
  | Sentences paragraph sentences =>
      sentences ≠ []
      ∧ paragraph ∈ known ∧ chunk_size < len paragraph
      ∧ (∃ a b,
           TextProcessor._split_by_sentences paragraph
           = a ++ sentences ++ b)
      ∧ (len (render x) ≤ chunk_size
         ∨ ∃ s, sentences = [s] ∧ chunk_size < len s)
  end.

(** A group of sentences that makes a chunk: it is not empty, and it fits
    the chunk size unless it is one sentence that is longer. *)
Definition grouped (chunk_size : Z) (g : list str) : Prop :=
  g ≠ [] ∧ (len (join [SP] g) ≤ chunk_size
            ∨ ∃ s, g = [s] ∧ chunk_size < len s).

(** The last element of [l], or [prev] when [l] is empty. *)
Definition last_or {A} (prev : option A) (l : list A) : option A :=
  match last l with
  | Some x => Some x
  | None => prev
  end.

(** The chunk that is still open, as a list. *)
Definition open_list (open : option (str * list str)) : list piece :=
  match open with
  | Some (prefix, paragraphs) => [Packed prefix paragraphs]
  | None => []
  end.

(** The state of the loop of [split_text] after the paragraphs [done]:
    the chunks that are closed and the one that is open. *)
Definition reads (chunk_size chunk_overlap : Z) (known : list str)
    (chunks : list str) (current : str) (closed : list piece)
    (open : option (str * list str)) (done : list str) : Prop :=
  chunks = render <$> closed
  ∧ current = match open with
              | Some (prefix, ps) => prefix ++ join [LF; LF] ps
              | None => []
              end
  ∧ (open = None →
     closed = [] ∨ ∃ (p : str) ss, last closed = Some (Sentences p ss))
  ∧ Forall (sized chunk_size known) (closed ++ open_list open)
  ∧ linked chunk_size chunk_overlap None (closed ++ open_list open)
  ∧ concat (units <$> (closed ++ open_list open))
    = concat (paragraph_units chunk_size <$> done).

(** * Properties *)

(** ** Vector index: delete *)

Section Delete.

Import VectorStoreClient.



(** The calls made on the index are calls of methods that it has. *)
Lemma delete_calls self ids ns delete_all c :
  c ∈ (delete self ids ns delete_all).2 →
  match c with
  | DeleteAll _ => index_delete_all (index self) ≠ None
  | Delete _ _ => index_delete (index self) ≠ None
  end.
Proof.
  unfold delete.
  destruct delete_all; [|destruct (truthy _)].
  - destruct (index_delete_all (index self)) as [m|]; simpl.
    + destruct (m _); simpl; by intros ->%list_elem_of_singleton.
    + by intros ?%elem_of_nil.
  - destruct (index_delete (index self)) as [m|]; simpl.
    + destruct (m _ _); simpl; by intros ->%list_elem_of_singleton.
    + by intros ?%elem_of_nil.
  - by intros ?%elem_of_nil.
Qed.


End Delete.


(** ** The tool-call handler *)

Section Tools.

Import Server.

Variable render : json -> string.
Variable search : json -> json -> json -> result pyobj.
Variable sync : json -> json -> result pyobj.
Variable space_info : result pyobj.
Variable today month_length : Z.
Variable mktime : Z -> Z.
Variable recent_pages : Z -> json -> result pyobj.

Let handle :=
  call_tool render search sync space_info today month_length mktime
    recent_pages.
Let run :=
  dispatch search sync space_info today month_length mktime recent_pages.

Lemma dumps_jsonable j : dumps render (Jsonable j) = Return (render j).
Proof. reflexivity. Qed.

(** The recent-updates handler raises when the day computed falls
    outside the month. *)
Lemma recent_updates_out_of_range (d : Z) limit :
  - 2 ^ 31 ≤ today - d < 2 ^ 31 →
  ¬ (1 ≤ today - d ≤ month_length) →
  _get_recent_updates today month_length mktime recent_pages (JInt d) limit
  = Raise (ValueError "day is out of range for month").
Proof.
  intros Hint H. unfold _get_recent_updates, replace_day. cbn [int_minus].
  cbn [mbind result_bind].
  rewrite (proj2 (orb_false_iff _ _)) by (split; [apply Z.ltb_ge|apply Z.leb_gt]; lia).
  rewrite (proj2 (Z.leb_gt _ _)), (proj2 (Z.ltb_ge _ _)) by lia.
  case_match; [|done].
  apply andb_true_iff in H0 as [?%Z.leb_le ?%Z.leb_le]. lia.
Qed.

(** A number of days that is not a number, and one that is a float. *)
Lemma recent_updates_not_an_integer limit :
  _get_recent_updates today month_length mktime recent_pages (JStr "7") limit
  = Raise (TypeError "unsupported operand type(s) for -: 'int' and 'str'")
  ∧ _get_recent_updates today month_length mktime recent_pages
      (JFloat "1.5") limit
    = Raise (TypeError "'float' object cannot be interpreted as an integer").
Proof. by split. Qed.

(** C8: whatever the tool name and the arguments, and whatever the
    handlers return or raise, the tool-call handler returns one text
    content whose text is the JSON of the value of the handler or of an
    object with an ["error"] string; it never raises. *)
Theorem call_tool_never_raises (name : string)
    (arguments : gmap string json) :
  ∃ payload : json,
    handle name arguments
      = Return [{| type := "text"; text := render payload |}]
    ∧ (run name arguments = Return (Jsonable payload)
       ∨ ∃ e, (run name arguments = Raise e
               ∨ run name arguments = Return Opaque)
              ∧ payload = JDict [("error", JStr (exn_message e))]).
Proof.
  unfold handle, run, call_tool.
  destruct (dispatch _ _ _ _ _ _ _ _ _) as [[j|]|e] eqn:E; simpl.
  - exists j. eauto.
  - eexists. split; [reflexivity|]. right. eexists. eauto.
  - eexists. split; [reflexivity|]. right. eexists. eauto.
Qed.

End Tools.

(** On the 4th of a month, the default of 7 days gives the day -3: the
    answer is an error object. *)
Example call_tool_recent_updates_early_in_month
    (render : json -> string) search sync space_info mktime recent_pages :
  Server.call_tool render search sync space_info 4 30 mktime recent_pages
    "get_recent_updates" ∅
  = Return [{| type := "text";
               text := render (JDict
                 [("error", JStr "day is out of range for month")]) |}].
Proof. reflexivity. Qed.

(** A search without the required argument answers with the [KeyError]. *)
Example call_tool_search_without_query
    (render : json -> string) search sync space_info mktime recent_pages :
  Server.call_tool render search sync space_info 4 30 mktime recent_pages
    "search_knowledge" ∅
  = Return [{| type := "text";
               text := render (JDict [("error", JStr "'query'")]) |}].
Proof. reflexivity. Qed.

Example call_tool_unknown_tool
    (render : json -> string) search sync space_info mktime recent_pages :
  Server.call_tool render search sync space_info 4 30 mktime recent_pages
    "drop_index" ∅
  = Return [{| type := "text";
               text := render (JDict
                 [("error", JStr "Unknown tool: drop_index")]) |}].
Proof. reflexivity. Qed.

(** ** Indexing *)

Section Indexing.

Import Server.

Context {Embedding : Type}.
Variable text_processor : TextProcessor.t.
Variable generate_embedding : str -> result Embedding.

(** The keyword [overlap] is not a parameter of [split_text]. *)
Lemma split_text_overlap_keyword (text : str) :
  call_split_text text_processor text
    [("chunk_size", 512); ("overlap", 50)]
  = Raise (TypeError
      "TextProcessor.split_text() got an unexpected keyword argument 'overlap'").
Proof. reflexivity. Qed.

Lemma index_document_raises (doc : Document) :
  index_document text_processor generate_embedding doc
  = IO [] (Raise (TypeError
      "TextProcessor.split_text() got an unexpected keyword argument 'overlap'")).
Proof. reflexivity. Qed.

(** With no document there is no call and the count is 0. *)
Lemma index_no_documents :
  _index_documents text_processor generate_embedding [] = IO [] (Return 0).
Proof. reflexivity. Qed.

(** C1 (the code at the failing inputs): as soon as there is one
    document, whatever its content, [_index_documents] raises a
    [TypeError] before any embedding or upsert call is made: no chunk
    count is returned. *)
Theorem index_documents_raises (doc : Document) (documents : list Document) :
  _index_documents text_processor generate_embedding (doc :: documents)
  = IO [] (Raise (TypeError
      "TextProcessor.split_text() got an unexpected keyword argument 'overlap'")).
Proof.
  unfold _index_documents. cbn [mapM]. rewrite index_document_raises.
  reflexivity.
Qed.

End Indexing.

(** ** Merging of the search results *)

Section FirstOccurrences.
Context {A : Type} (key : A → str).

Lemma filter_all (P : A → Prop) `{!∀ x, Decision (P x)} (l : list A) :
  (∀ x, P x) → filter P l = l.
Proof.
  intros HP. induction l as [|x l IH]; [done|].
  by rewrite filter_cons_True, IH.
Qed.

Lemma first_occurrences_cons x l :
  Spec.first_occurrences key (x :: l)
  = x :: filter (λ y, key y ≠ key x) (Spec.first_occurrences key l).
Proof. reflexivity. Qed.

Lemma first_occurrences_filter (P : A → Prop) `{!∀ x, Decision (P x)} l :
  (∀ x y, key x = key y → P x → P y) →
  filter P (Spec.first_occurrences key l)
  = Spec.first_occurrences key (filter P l).
Proof.
  intros HP. induction l as [|x l IH]; [done|].
  rewrite first_occurrences_cons, !filter_cons.
  destruct (decide (P x)) as [Hx|Hx].
  - rewrite first_occurrences_cons. f_equal.
    rewrite <-IH, !list_filter_filter. apply list_filter_iff. tauto.
  - rewrite <-IH, list_filter_filter. apply list_filter_iff.
    intros y. split; [tauto|]. intros Hy. split; [done|].
    intros Hk. apply Hx. by apply (HP y).
Qed.

Lemma first_occurrences_elem_of x l :
  x ∈ Spec.first_occurrences key l → x ∈ l.
Proof.
  revert x. induction l as [|y l IH]; intros x; [done|].
  rewrite first_occurrences_cons, elem_of_cons, list_elem_of_filter.
  set_solver.
Qed.

Lemma first_occurrences_NoDup l :
  NoDup (key <$> Spec.first_occurrences key l).
Proof.
  induction l as [|x l IH]; [constructor|].
  rewrite first_occurrences_cons, fmap_cons. constructor.
  - rewrite list_elem_of_fmap. intros (y & Hk & Hy).
    apply list_elem_of_filter in Hy as [Hy _]. congruence.
  - revert IH. generalize (Spec.first_occurrences key l). intros k.
    induction k as [|y k IHk]; [done|].
    rewrite fmap_cons, NoDup_cons. intros [Hy Hk].
    rewrite filter_cons. destruct (decide _); [|auto].
    rewrite fmap_cons, NoDup_cons. split; [|auto].
    rewrite list_elem_of_fmap in Hy |- *. intros (z & ? & Hz).
    apply Hy. exists z. split; [done|].
    by apply list_elem_of_filter in Hz as [_ ?].
Qed.
End FirstOccurrences.

Section Merging.
Import Server.
Context {Score : Type} (score_0 score_1 : Score).
Abbreviation Match := (@Match Score).
Abbreviation Result := (@Result Score).

Lemma vector_entry_id (m : Match) :
  result_id (vector_entry score_0 m) = match_page_id m.
Proof. reflexivity. Qed.

Lemma truthy_true {A} (l : list A) : truthy l = true ↔ l ≠ [].
Proof. by destruct l. Qed.

Lemma vector_loop (l : list Match) seen acc :
  foldl (vector_step score_0) (seen, acc) l
  = (list_to_set (match_page_id <$>
       Spec.first_occurrences match_page_id (filter (fresh_match seen) l)) ∪ seen,
     acc ++ (vector_entry score_0 <$>
       Spec.first_occurrences match_page_id (filter (fresh_match seen) l))).
Proof.
  revert seen acc. induction l as [|m l IH]; intros seen acc.
  - simpl. f_equal; [set_solver|by rewrite app_nil_r].
  - cbn [foldl]. rewrite filter_cons. unfold vector_step at 2.
    destruct (decide (fresh_match seen m)) as [[Hne Hin]|Hno].
    + rewrite (proj2 (truthy_true _) Hne), bool_decide_eq_true_2 by done.
      cbn [andb]. rewrite IH, first_occurrences_cons.
      rewrite first_occurrences_filter by congruence.
      rewrite list_filter_filter.
      assert (filter (fresh_match ({[match_page_id m]} ∪ seen)) l
              = filter (λ x, match_page_id x ≠ match_page_id m
                             ∧ fresh_match seen x) l) as ->.
      { apply list_filter_iff. unfold fresh_match. set_solver. }
      f_equal.
      * rewrite fmap_cons. set_solver.
      * by rewrite fmap_cons, <-app_assoc.
    + assert (truthy (match_page_id m)
              && bool_decide (match_page_id m ∉ seen) = false) as ->.
      { apply andb_false_iff.
        destruct (match_page_id m) eqn:E; [by left|right].
        apply bool_decide_eq_false. intros ?. apply Hno.
        unfold fresh_match. by rewrite E. }
      apply IH.
Qed.

Lemma document_loop (l : list Document) seen (acc : list Result) :
  (foldl (document_step score_1) (seen, acc) l).2
  = acc ++ (document_entry score_1 <$>
       Spec.first_occurrences id (filter (λ d, id d ∉ seen) l)).
Proof.
  revert seen acc. induction l as [|d l IH]; intros seen acc.
  - simpl. by rewrite app_nil_r.
  - cbn [foldl]. rewrite filter_cons. unfold document_step at 2.
    destruct (decide (id d ∉ seen)) as [Hin|Hin].
    + rewrite bool_decide_eq_true_2 by done.
      rewrite IH, first_occurrences_cons.
      rewrite first_occurrences_filter by congruence.
      rewrite list_filter_filter.
      assert (filter (λ x, id x ∉ ({[id d]} ∪ seen)) l
              = filter (λ x, id x ≠ id d ∧ id x ∉ seen) l) as ->.
      { apply list_filter_iff. set_solver. }
      by rewrite fmap_cons, <-app_assoc.
    + rewrite bool_decide_eq_false_2 by done. apply IH.
Qed.

Lemma first_occurrences_ext {A} (key key' : A → str) (l : list A) :
  (∀ x, key x = key' x) →
  Spec.first_occurrences key l = Spec.first_occurrences key' l.
Proof.
  intros H. induction l as [|x l IH]; [done|].
  rewrite !first_occurrences_cons, IH. f_equal.
  apply list_filter_iff. intros y. by rewrite !H.
Qed.

Lemma match_page_id_document_id (m : Match) :
  match_page_id m = default [] (Spec.document_id m).
Proof.
  unfold match_page_id, Spec.document_id.
  destruct (match_metadata m) as [metadata|]; [|done]. simpl.
  by destruct (metadata !! "page_id") as [[|c r]|].
Qed.

Lemma document_id_some (m : Match) :
  Spec.document_id m ≠ None ↔ match_page_id m ≠ [].
Proof.
  rewrite match_page_id_document_id. unfold Spec.document_id.
  destruct (match_metadata m) as [metadata|]; [|done].
  by destruct (metadata !! "page_id") as [[|c r]|].
Qed.

Lemma document_id_result_id (m : Match) :
  Spec.document_id m ≠ None →
  Spec.document_id m = Some (result_id (Spec.vector_result score_0 m)).
Proof.
  unfold Spec.document_id, Spec.vector_result, Spec.metadata_field. simpl.
  destruct (match_metadata m) as [metadata|]; [|done].
  by destruct (metadata !! "page_id") as [[|c r]|].
Qed.

Lemma vector_entry_result (m : Match) :
  vector_entry score_0 m = Spec.vector_result score_0 m.
Proof.
  unfold vector_entry, Spec.vector_result, Spec.metadata_field.
  destruct (match_metadata m) as [metadata|], (match_score m); simpl;
    by rewrite ?lookup_empty.
Qed.

(** C3: with the document id of a vector match read from its metadata,
    the merged list is made of the first [top_k] vector matches that name
    a document, one entry for the first occurrence of each document id,
    every entry tagged [high], when there is at least one such match;
    otherwise, and only then, it is made of the first [top_k] candidates
    of the document source, one entry for the first occurrence of each
    id, every entry tagged [medium]. The two are never mixed and no id
    occurs twice. *)
Theorem merge_results_exclusive (documents : list Document)
    (vector_results : @VectorResults Score) (top_k : Z) :
  let candidates := slice_to top_k (default [] (matches vector_results)) in
  let vector_part :=
    Spec.first_occurrences (λ m, default [] (Spec.document_id m))
      (filter (λ m, Spec.document_id m ≠ None) candidates) in
  let fallback :=
    Spec.first_occurrences id (slice_to top_k documents) in
  let final_results :=
    _merge_results score_0 score_1 documents vector_results top_k in
  final_results
    = (if decide (vector_part = [])
       then Spec.document_result score_1 <$> fallback
       else Spec.vector_result score_0 <$> vector_part)
  ∧ NoDup (result_id <$> final_results)
  ∧ (vector_part ≠ [] →
     Forall (λ r, relevance r = high
                  ∧ ∃ m, m ∈ candidates
                         ∧ Spec.document_id m = Some (result_id r))
       final_results)
  ∧ (vector_part = [] →
     Forall (λ r, relevance r = medium
                  ∧ ∃ doc, doc ∈ slice_to top_k documents
                           ∧ id doc = result_id r)
       final_results)
  ∧ (Forall (λ r, relevance r = high) final_results
     ∨ Forall (λ r, relevance r = medium) final_results).
Proof.
  intros C V D r.
  assert (r = if decide (V = []) then Spec.document_result score_1 <$> D
              else Spec.vector_result score_0 <$> V) as Hr.
  { subst r. unfold _merge_results. rewrite vector_loop.
    rewrite (list_filter_iff (fresh_match ∅) (λ m, Spec.document_id m ≠ None));
      last first.
    { intros m. rewrite document_id_some. unfold fresh_match. set_solver. }
    rewrite (first_occurrences_ext match_page_id
               (λ m, default [] (Spec.document_id m)))
      by apply match_page_id_document_id.
    fold C. fold V. destruct V as [|v V'].
    - rewrite decide_True by done. cbn [fmap list_fmap app truthy negb].
      rewrite document_loop. cbn [app]. unfold D. f_equal. f_equal.
      apply filter_all. set_solver.
    - rewrite decide_False by done. cbn [snd].
      apply list_fmap_ext. intros _ m _. apply vector_entry_result. }
  assert (V ≠ [] →
          Forall (λ r, relevance r = high
                       ∧ ∃ m, m ∈ C ∧ Spec.document_id m = Some (result_id r))
            r) as Hhigh.
  { intros HV. rewrite Hr, decide_False by done.
    apply Forall_fmap, Forall_forall. intros m Hm. split; [done|].
    apply first_occurrences_elem_of, list_elem_of_filter in Hm as [Hid Hm].
    exists m. split; [done|]. by apply document_id_result_id. }
  assert (V = [] →
          Forall (λ r, relevance r = medium
                       ∧ ∃ doc, doc ∈ slice_to top_k documents
                                ∧ id doc = result_id r)
            r) as Hmedium.
  { intros HV. rewrite Hr, decide_True by done.
    apply Forall_fmap, Forall_forall. intros doc Hdoc. split; [done|].
    apply first_occurrences_elem_of in Hdoc. by exists doc. }
  split; [done|]. split; [|split; [done|split; [done|]]].
  - rewrite Hr. destruct (decide (V = [])).
    + rewrite <-list_fmap_compose. apply (first_occurrences_NoDup id).
    + rewrite <-list_fmap_compose.
      rewrite (list_fmap_ext _ (λ m, default [] (Spec.document_id m)) V);
        [apply first_occurrences_NoDup|].
      intros i m Hm%list_elem_of_lookup_2. cbn [compose].
      apply first_occurrences_elem_of, list_elem_of_filter in Hm as [Hid _].
      by rewrite (document_id_result_id m Hid).
  - destruct (decide (V = [])) as [HV|HV].
    + right. eapply Forall_impl; [by apply Hmedium|]. by intros ? [? _].
    + left. eapply Forall_impl; [by apply Hhigh|]. by intros ? [? _].
Qed.
End Merging.

(** ** Listing the documents of a collection *)

Section Paging.
Import ConfluenceClient.
Context {Summary Upstream : Type}.
Variable request : Upstream → Z → Z → list Summary * Upstream.

Lemma request_page (u : Upstream) (k : nat) :
  request (state_before request u k) (Z.of_nat k * limit) limit
  = (page request u k, state_before request u (S k)).
Proof. unfold page. cbn [state_before]. by destruct (request _ _ _). Qed.

(** The first short page, when there is one. *)
Lemma short_below (u : Upstream) (n : nat) :
  (∀ k, (k < n)%nat → ¬ short request u k)
  ∨ ∃ m, (m < n)%nat ∧ short request u m
         ∧ ∀ k, (k < m)%nat → ¬ short request u k.
Proof.
  induction n as [|n [IH|(m & ? & ? & ?)]].
  - left. lia.
  - destruct (decide (len (page request u n) < limit)) as [Hs|Hs].
    + right. exists n. auto.
    + left. intros k Hk. destruct (decide (k = n)) as [->|]; [done|].
      apply IH. lia.
  - right. exists m. auto with lia.
Qed.

Lemma first_short (u : Upstream) (n : nat) :
  short request u n →
  ∃ m, (m ≤ n)%nat ∧ short request u m
       ∧ ∀ k, (k < m)%nat → ¬ short request u k.
Proof.
  intros Hn. destruct (short_below u (S n)) as [Hno|(m & ? & ? & ?)].
  - by destruct (Hno n); [lia|].
  - exists m. auto with lia.
Qed.

(** The loop from the [k]-th request on, when the first short page is
    the page [k + d]. *)
Lemma loop_from (u : Upstream) (d k fuel : nat) (acc : list Summary) :
  (∀ j, (k ≤ j < k + d)%nat → ¬ short request u j) →
  short request u (k + d) →
  get_space_pages_loop request fuel (state_before request u k)
    (Z.of_nat k * limit) acc
  = if decide (fuel ≤ d)%nat then None
    else Some (acc ++ concat (page request u <$> seq k (S d)),
               state_before request u (S (k + d))).
Proof.
  revert k fuel acc. induction d as [|d IH]; intros k fuel acc Hfull Hshort.
  - destruct fuel as [|fuel]; [done|].
    rewrite decide_False by lia. cbn [get_space_pages_loop].
    rewrite request_page. rewrite Nat.add_0_r in Hshort |- *.
    cbn [seq fmap list_fmap concat]. rewrite app_nil_r.
    destruct (page request u k) as [|p ps] eqn:E.
    + cbn [truthy negb]. by rewrite app_nil_r.
    + cbn [truthy negb]. unfold short in Hshort. rewrite E in Hshort.
      by rewrite (proj2 (Z.ltb_lt _ _) Hshort).
  - destruct fuel as [|fuel]; [done|].
    cbn [get_space_pages_loop]. rewrite request_page.
    assert (¬ short request u k) as Hk by (apply Hfull; lia).
    unfold short in Hk.
    destruct (page request u k) as [|p ps] eqn:E.
    { exfalso. apply Hk. unfold len, limit. simpl. lia. }
    cbn [truthy negb].
    rewrite (proj2 (Z.ltb_ge _ _)) by lia.
    replace (Z.of_nat k * limit + limit) with (Z.of_nat (S k) * limit) by lia.
    rewrite IH.
    + destruct (decide (fuel ≤ d)%nat), (decide (S fuel ≤ S d)%nat);
        try lia; [done|].
      cbn [seq fmap list_fmap concat]. rewrite E, <-app_assoc.
      do 3 f_equal. lia.
    + intros j Hj. apply Hfull. lia.
    + by replace (S k + d)%nat with (k + S d)%nat by lia.
Qed.

(** C7: when some request of the listing returns fewer than 100 pages,
    the loop stops at the first such request, [m]: fuel for [m]
    requests is not enough, and with more it returns the pages of the
    requests 0 to [m], in order. The [k]-th request asks for the
    offset [100 * k]. *)
Theorem get_space_pages_terminates (u : Upstream) (n : nat) :
  short request u n →
  ∃ m, (m ≤ n)%nat
    ∧ short request u m
    ∧ (∀ k, (k < m)%nat → ¬ short request u k)
    ∧ (∀ fuel, (fuel ≤ m)%nat → get_space_pages request fuel u = None)
    ∧ (∀ fuel, (m < fuel)%nat →
         get_space_pages request fuel u
         = Some (concat (page request u <$> seq 0 (S m)),
                 state_before request u (S m))).
Proof.
  intros Hn. destruct (first_short u n Hn) as (m & Hm & Hs & Hfull).
  assert (∀ fuel, get_space_pages request fuel u
            = if decide (fuel ≤ m)%nat then None
              else Some ([] ++ concat (page request u <$> seq 0 (S m)),
                         state_before request u (S (0 + m)))) as Hloop.
  { intros fuel. apply (loop_from u m 0 fuel []); [|done].
    intros j Hj. apply Hfull. lia. }
  exists m. repeat split; try done.
  - intros fuel Hf. by rewrite Hloop, decide_True.
  - intros fuel Hf. by rewrite Hloop, decide_False by lia.
Qed.
End Paging.

(** A listing of 250 documents takes three requests. *)
Lemma get_space_pages_terminates_witness :
  ConfluenceClient.short Examples.listing () 2
  ∧ ∃ m, (m ≤ 2)%nat
      ∧ ConfluenceClient.short Examples.listing () m
      ∧ (∀ k, (k < m)%nat → ¬ ConfluenceClient.short Examples.listing () k)
      ∧ (∀ fuel, (fuel ≤ m)%nat →
           ConfluenceClient.get_space_pages Examples.listing fuel () = None)
      ∧ (∀ fuel, (m < fuel)%nat →
           ConfluenceClient.get_space_pages Examples.listing fuel ()
           = Some (concat (ConfluenceClient.page Examples.listing ()
                             <$> seq 0 (S m)),
                   ConfluenceClient.state_before Examples.listing () (S m))).
Proof.
  split; [by vm_compute|].
  apply (get_space_pages_terminates Examples.listing () 2). by vm_compute.
Defined.

(** ** Normalization *)

Section Strip.

Lemma lstrip_starts_clean s : starts_clean (lstrip s).
Proof.
  induction s as [|c r IH]; [done|]. simpl.
  by destruct (isspace c) eqn:E.
Qed.

Lemma lstrip_clean s : starts_clean s → lstrip s = s.
Proof. destruct s as [|c r]; [done|]. simpl. by intros ->. Qed.

Lemma rstrip_cons c r :
  rstrip (c :: r)
  = if decide (rstrip r = []) then (if isspace c then [] else [c])
    else c :: rstrip r.
Proof. simpl. by destruct (rstrip r). Qed.

Lemma rstrip_ends_clean s : ends_clean (rstrip s).
Proof.
  induction s as [|c r IH]; [done|]. rewrite rstrip_cons.
  destruct (decide (rstrip r = [])) as [E|E].
  - by destruct (isspace c) eqn:Ec.
  - unfold ends_clean in *. by destruct (rstrip r).
Qed.

Lemma rstrip_clean s : ends_clean s → rstrip s = s.
Proof.
  induction s as [|c r IH]; [done|]. intros H. rewrite rstrip_cons.
  destruct r as [|d r].
  - unfold ends_clean in H. simpl in *. by rewrite H.
  - rewrite IH by done. by rewrite decide_False.
Qed.

Lemma rstrip_starts_clean s : starts_clean s → starts_clean (rstrip s).
Proof.
  destruct s as [|c r]; [done|]. intros H. rewrite rstrip_cons.
  simpl in H. destruct (decide _); by rewrite ?H.
Qed.

Lemma strip_starts_clean s : starts_clean (strip s).
Proof. apply rstrip_starts_clean, lstrip_starts_clean. Qed.

Lemma strip_ends_clean s : ends_clean (strip s).
Proof. apply rstrip_ends_clean. Qed.

Lemma strip_clean s : starts_clean s → ends_clean s → strip s = s.
Proof. intros. unfold strip. by rewrite lstrip_clean, rstrip_clean. Qed.

Lemma strip_strip s : strip (strip s) = strip s.
Proof. apply strip_clean; [apply strip_starts_clean|apply strip_ends_clean]. Qed.

Lemma elem_of_lstrip c s : c ∈ lstrip s → c ∈ s.
Proof.
  induction s as [|d r IH]; [done|]. simpl.
  destruct (isspace d); [|done]. intros. right. auto.
Qed.

Lemma elem_of_rstrip c s : c ∈ rstrip s → c ∈ s.
Proof.
  induction s as [|d r IH]; [done|]. rewrite rstrip_cons.
  destruct (decide _).
  - destruct (isspace d); [by intros ?%elem_of_nil|].
    intros ->%list_elem_of_singleton. left.
  - rewrite !elem_of_cons. intros [->|]; auto.
Qed.

Lemma elem_of_strip c s : c ∈ strip s → c ∈ s.
Proof. intros. by apply elem_of_lstrip, elem_of_rstrip. Qed.

Lemma length_lstrip s : (length (lstrip s) ≤ length s)%nat.
Proof.
  induction s as [|d r IH]; [done|]. simpl.
  destruct (isspace d); simpl; lia.
Qed.

Lemma length_rstrip s : (length (rstrip s) ≤ length s)%nat.
Proof.
  induction s as [|d r IH]; [done|]. rewrite rstrip_cons.
  destruct (decide _); [destruct (isspace d)|]; simpl; lia.
Qed.

Lemma length_strip s : (length (strip s) ≤ length s)%nat.
Proof.
  unfold strip. etrans; [apply length_rstrip|apply length_lstrip].
Qed.

End Strip.

Section Engine.

Lemma before_cons prev c t : before prev (c :: t) = before (Some c) t.
Proof. unfold before. rewrite last_cons. by destruct (last t). Qed.

Lemma sub_go_skip m repl prev k s :
  Re.sub_go m repl prev k s
  = Re.sub_go m repl (before prev (take k s)) 0 (drop k s).
Proof.
  revert prev k. induction s as [|c r IH]; intros prev k.
  - by destruct k.
  - destruct k as [|k]; [done|].
    cbn [Re.sub_go take drop]. by rewrite IH, before_cons.
Qed.

Lemma split_go_skip m prev k s :
  Re.split_go m prev k s
  = Re.split_go m (before prev (take k s)) 0 (drop k s).
Proof.
  revert prev k. induction s as [|c r IH]; intros prev k.
  - by destruct k.
  - destruct k as [|k]; [done|].
    cbn [Re.split_go take drop]. by rewrite IH, before_cons.
Qed.

Lemma replace_go_skip old new k s :
  replace_go old new k s = replace_go old new 0 (drop k s).
Proof.
  revert k. induction s as [|c r IH]; intros k.
  - by destruct k.
  - destruct k as [|k]; [done|]. cbn [replace_go drop]. by rewrite IH.
Qed.

(** A pattern [c{k,}] does not look at the character before. *)
Lemma sub_go_at_least_before k p repl prev prev' skip s :
  Re.sub_go (Re.at_least k p) repl prev skip s
  = Re.sub_go (Re.at_least k p) repl prev' skip s.
Proof.
  revert prev prev' skip. induction s as [|c r IH]; intros prev prev' skip.
  - done.
  - cbn [Re.sub_go]. destruct skip; [done|apply IH].
Qed.

Lemma run_all p w s :
  Forall (λ c, p c = true) w → Re.run p (w ++ s) = (length w + Re.run p s)%nat.
Proof.
  induction 1 as [|c w Hc _ IH]; [done|]. simpl. by rewrite Hc, IH.
Qed.

Lemma run_take p s : Forall (λ c, p c = true) (take (Re.run p s) s).
Proof.
  induction s as [|c r IH]; [constructor|]. simpl.
  destruct (p c) eqn:E; [|constructor]. by constructor.
Qed.

Lemma run_drop p s : Re.run p (drop (Re.run p s) s) = O.
Proof.
  induction s as [|c r IH]; [done|]. simpl.
  destruct (p c) eqn:E; [done|]. simpl. by rewrite E.
Qed.

Lemma run_le p s : (Re.run p s ≤ length s)%nat.
Proof.
  induction s as [|c r IH]; [done|]. simpl. destruct (p c); simpl; lia.
Qed.

Lemma squeeze_nil k p repl : squeeze k p repl [] = [].
Proof. done. Qed.

Lemma squeeze_cons k p repl c r :
  squeeze k p repl (c :: r)
  = if decide (k ≤ Re.run p (c :: r) ∧ 0 < Re.run p (c :: r))%nat
    then repl ++ squeeze k p repl (drop (Re.run p (c :: r)) (c :: r))
    else c :: squeeze k p repl r.
Proof.
  unfold squeeze, Re.sub. cbn [Re.sub_go]. unfold Re.at_least at 1.
  destruct (decide _) as [[H1 H2]|H].
  - rewrite (proj2 (andb_true_iff _ _)); last first.
    { split; [by apply Nat.leb_le|by apply Nat.ltb_lt]. }
    destruct (Re.run p (c :: r)) as [|n] eqn:E; [lia|].
    rewrite sub_go_skip. cbn [drop].
    by rewrite (sub_go_at_least_before _ _ _ _ None).
  - rewrite (proj2 (andb_false_iff _ _)); last first.
    { destruct (decide (k ≤ Re.run p (c :: r))%nat).
      - right. apply Nat.ltb_ge. lia.
      - left. apply Nat.leb_gt. lia. }
    by rewrite (sub_go_at_least_before _ _ _ _ None).
Qed.

End Engine.

Section Lines.

Implicit Types (s w : str) (c : N).

Lemma split_nonempty s : split LF s ≠ [].
Proof.
  destruct s as [|c r]; [done|]. simpl.
  destruct (c =? LF)%N; [done|]. by destruct (split LF r).
Qed.

Lemma split_cons c s :
  split LF (c :: s)
  = if decide (c = LF) then [] :: split LF s else cons_head c (split LF s).
Proof.
  simpl. destruct (decide (c = LF)) as [->|H]; [done|].
  by rewrite (proj2 (N.eqb_neq _ _) H).
Qed.

Lemma nonblank_lines s :
  filter (λ l, l ≠ []) (split LF s) = shape_lines (shape s).
Proof.
  unfold shape, shape_lines. pose proof (split_nonempty s).
  destruct (split LF s) as [|h t]; [done|]. simpl.
  rewrite !filter_cons, filter_nil. by destruct (decide (h ≠ [])).
Qed.

Lemma shape_cons_eq c s : shape (c :: s) = shape_cons c (shape s).
Proof.
  unfold shape_cons. rewrite <-nonblank_lines. unfold shape.
  rewrite split_cons. pose proof (split_nonempty s).
  destruct (decide (c = LF)); [|by destruct (split LF s)].
  by destruct (split LF s).
Qed.

Lemma shape_newlines w s :
  w ≠ [] → Forall (λ c, c = LF) w → shape (w ++ s) = shape_cons LF (shape s).
Proof.
  intros Hw Hall. induction Hall as [|c w -> Hall IH]; [done|].
  cbn [app]. rewrite shape_cons_eq. destruct w as [|d w]; [done|].
  rewrite IH by done. unfold shape_cons. rewrite !decide_True by done.
  unfold shape_lines. done.
Qed.

(** Strong induction on the length of a text. *)
Lemma str_length_ind (P : str → Prop) :
  (∀ s, (∀ r, (length r < length s)%nat → P r) → P s) → ∀ s, P s.
Proof.
  intros H s. remember (length s) as n eqn:E.
  revert s E. induction n as [n IH] using lt_wf_ind. intros s ->.
  apply H. intros r Hr. by apply (IH (length r)).
Qed.

(** Collapsing runs of newlines leaves the first line and the later
    non-empty lines as they are. *)
Lemma shape_squeeze_newlines k repl s :
  repl ≠ [] → Forall (λ c, c = LF) repl →
  shape (squeeze k TextProcessor.newline repl s) = shape s.
Proof.
  intros Hne Hall. induction s as [s IH] using str_length_ind.
  destruct s as [|c r]; [done|]. rewrite squeeze_cons.
  destruct (decide _) as [[_ Hrun]|_].
  - rewrite (shape_newlines repl) by done.
    rewrite IH; last first.
    { rewrite length_drop. simpl in *. lia. }
    set (n := Re.run TextProcessor.newline (c :: r)) in *.
    rewrite <-(take_drop n (c :: r)) at 2.
    rewrite (shape_newlines (take n (c :: r))); [done| |].
    + intros E. apply (f_equal length) in E. rewrite length_take in E.
      simpl in E. lia.
    + eapply Forall_impl; [apply run_take|].
      intros x Hx. by apply N.eqb_eq.
  - rewrite !shape_cons_eq, IH; [done|simpl; lia].
Qed.

End Lines.

Section Replace.

Lemma replace_go_cons old new c r :
  replace_go old new 0 (c :: r)
  = if startswith old (c :: r)
    then new ++ replace_go old new 0 (drop (length old - 1) r)
    else c :: replace_go old new 0 r.
Proof. cbn [replace_go]. by rewrite replace_go_skip. Qed.

(** [text.replace("\n\n", "\n")], equation by equation. *)
Lemma replace_newlines_pair r :
  replace [LF; LF] [LF] (LF :: LF :: r) = LF :: replace [LF; LF] [LF] r.
Proof. unfold replace. by rewrite replace_go_cons. Qed.

Lemma replace_newlines_other c r :
  ¬ (c = LF ∧ head r = Some LF) →
  replace [LF; LF] [LF] (c :: r) = c :: replace [LF; LF] [LF] r.
Proof.
  intros H. unfold replace. rewrite replace_go_cons.
  destruct (startswith _ _) eqn:E; [|done]. exfalso. apply H.
  cbn [startswith] in E. destruct r as [|d r]; [by rewrite andb_false_r in E|].
  apply andb_true_iff in E as [E1%N.eqb_eq E2].
  apply andb_true_iff in E2 as [E2%N.eqb_eq _]. by subst.
Qed.

Lemma shape_replace_newlines s :
  shape (replace [LF; LF] [LF] s) = shape s.
Proof.
  induction s as [s IH] using str_length_ind.
  destruct s as [|c r]; [done|].
  destruct (decide (c = LF ∧ head r = Some LF)) as [[-> Hr]|H].
  - destruct r as [|d r]; [done|]. injection Hr as ->.
    rewrite replace_newlines_pair, !shape_cons_eq, IH by (simpl; lia).
    unfold shape_cons. by rewrite !decide_True.
  - rewrite replace_newlines_other, !shape_cons_eq, IH by (done || simpl; lia).
    done.
Qed.

End Replace.

Section JoinSplit.

Implicit Types (s w : str) (c : N).

Lemma split_no_newline w : LF ∉ w → split LF w = [w].
Proof.
  induction w as [|c w IH]; [done|]. rewrite not_elem_of_cons.
  intros [Hc Hw]. by rewrite split_cons, decide_False, IH.
Qed.

Lemma split_app w s :
  LF ∉ w → split LF (w ++ s) = prepend_head w (split LF s).
Proof.
  induction w as [|c w IH].
  - intros _. simpl. pose proof (split_nonempty s). by destruct (split LF s).
  - rewrite not_elem_of_cons. intros [Hc Hw]. cbn [app].
    rewrite split_cons, decide_False, IH by done.
    pose proof (split_nonempty s). by destruct (split LF s).
Qed.

Lemma split_app_newline w s :
  LF ∉ w → split LF (w ++ LF :: s) = w :: split LF s.
Proof.
  intros. rewrite split_app, split_cons, decide_True by done.
  simpl. by rewrite app_nil_r.
Qed.

Lemma split_lines_no_newline s : Forall (λ l, LF ∉ l) (split LF s).
Proof.
  induction s as [|c r IH].
  - constructor; [apply not_elem_of_nil|constructor].
  - rewrite split_cons. destruct (decide (c = LF)).
    + constructor; [apply not_elem_of_nil|done].
    + destruct (split LF r) as [|h t]; simpl.
      * constructor; [|constructor].
        apply not_elem_of_cons. split; [congruence|apply not_elem_of_nil].
      * inversion_clear IH. constructor; [|done].
        apply not_elem_of_cons. split; [congruence|done].
Qed.

Lemma join_cons_cons sep (x y : str) (l : list str) :
  join sep (x :: y :: l) = x ++ sep ++ join sep (y :: l).
Proof. done. Qed.

Lemma join_split s : join [LF] (split LF s) = s.
Proof.
  induction s as [|c r IH]; [done|]. rewrite split_cons.
  pose proof (split_nonempty r).
  destruct (decide (c = LF)) as [->|].
  - destruct (split LF r) as [|h t]; [done|].
    rewrite join_cons_cons, IH. done.
  - destruct (split LF r) as [|h [|h' t]]; [done| |].
    + simpl in *. by rewrite IH.
    + cbn [cons_head]. rewrite join_cons_cons. rewrite join_cons_cons in IH.
      cbn [app] in *. by rewrite IH.
Qed.

Lemma split_join (l : list str) :
  l ≠ [] → Forall (λ x, LF ∉ x) l → split LF (join [LF] l) = l.
Proof.
  intros Hne Hall. induction Hall as [|x l Hx Hall IH]; [done|].
  destruct l as [|y l].
  - by apply split_no_newline.
  - rewrite join_cons_cons. cbn [app].
    by rewrite split_app_newline, IH.
Qed.

End JoinSplit.

Section Blanks.

Import TextProcessor.
Implicit Types (s w : str) (c : N).

Lemma blank_not_newline c : blank c = true → c ≠ LF.
Proof. intros H ->. done. Qed.

Lemma collapse_blanks_cons_other c r :
  blank c = false →
  Steps.collapse_blanks (c :: r) = c :: Steps.collapse_blanks r.
Proof.
  intros H. unfold Steps.collapse_blanks. fold (squeeze 1 blank [SP] (c :: r)).
  rewrite squeeze_cons. simpl. rewrite H. by rewrite decide_False by lia.
Qed.

Lemma collapse_blanks_prefix w s :
  w ≠ [] → Forall (λ c, blank c = true) w → Re.run blank s = O →
  Steps.collapse_blanks (w ++ s) = SP :: Steps.collapse_blanks s.
Proof.
  intros Hw Hall Hs. destruct w as [|c w]; [done|].
  unfold Steps.collapse_blanks.
  fold (squeeze 1 blank [SP] ((c :: w) ++ s)). cbn [app].
  rewrite squeeze_cons.
  change (c :: w ++ s) with ((c :: w) ++ s).
  rewrite run_all, Hs, Nat.add_0_r by done.
  rewrite decide_True by (simpl; lia).
  by rewrite drop_app_length.
Qed.

Lemma run_first_line p s h t :
  split LF s = h :: t → Re.run p s = O → Re.run p h = O.
Proof.
  destruct s as [|c r]; [by intros [= <- <-]|].
  rewrite split_cons. destruct (decide (c = LF)); [by intros [= <- <-]|].
  pose proof (split_nonempty r). destruct (split LF r); [done|].
  intros [= <- <-]. simpl. by destruct (p c).
Qed.

(** Collapsing the blanks of a text collapses those of each line. *)
Lemma split_collapse_blanks s :
  split LF (Steps.collapse_blanks s) = Steps.collapse_blanks <$> split LF s.
Proof.
  induction s as [s IH] using str_length_ind.
  destruct s as [|c r]; [done|].
  destruct (blank c) eqn:Hc.
  - set (n := Re.run blank (c :: r)).
    assert (0 < n)%nat as Hn by (unfold n; simpl; rewrite Hc; lia).
    assert (Forall (λ c, blank c = true) (take n (c :: r))) as Hall
      by apply run_take.
    assert (take n (c :: r) ≠ []) as Hne.
    { intros E. apply (f_equal length) in E. rewrite length_take in E.
      pose proof (run_le blank (c :: r)). fold n in H. simpl in *. lia. }
    assert (LF ∉ take n (c :: r)) as Hnl.
    { intros Hin. eapply Forall_forall in Hall; [|done]. done. }
    pose proof (run_drop blank (c :: r)) as Hrest. fold n in Hrest.
    rewrite <-(take_drop n (c :: r)).
    rewrite collapse_blanks_prefix by done.
    rewrite split_cons, decide_False by done.
    rewrite IH by (rewrite length_drop; simpl; lia).
    rewrite split_app by done.
    pose proof (split_nonempty (drop n (c :: r))).
    destruct (split LF (drop n (c :: r))) as [|h t] eqn:E; [done|].
    cbn [fmap list_fmap cons_head prepend_head]. f_equal.
    rewrite collapse_blanks_prefix; [done..|].
    by eapply run_first_line.
  - rewrite collapse_blanks_cons_other by done.
    rewrite !split_cons, IH by (simpl; lia).
    destruct (decide (c = LF)); [done|].
    pose proof (split_nonempty r).
    destruct (split LF r) as [|h t]; [done|].
    cbn [fmap list_fmap cons_head]. by rewrite collapse_blanks_cons_other.
Qed.

End Blanks.

Section Clean.

Import TextProcessor.
Implicit Types (s w : str) (c : N).

Lemma clean_whitespace_spec text :
  _clean_whitespace text
  = Steps.strip_blank_lines
      (Steps.collapse_blanks (Steps.collapse_newlines text)).
Proof.
  unfold _clean_whitespace, Steps.strip_blank_lines. f_equal.
  apply list_filter_iff. intros l. apply truthy_true.
Qed.

Lemma filter_fmap_nonempty (f : str → str) (l : list str) :
  f [] = [] →
  filter (λ x, x ≠ []) (f <$> l)
  = filter (λ x, x ≠ []) (f <$> filter (λ x, x ≠ []) l).
Proof.
  intros Hf. induction l as [|x l IH]; [done|].
  rewrite fmap_cons, !filter_cons.
  destruct (decide (x ≠ [])) as [Hx|Hx].
  - by rewrite fmap_cons, filter_cons, IH.
  - apply dec_stable in Hx as ->. rewrite Hf. by rewrite decide_False by auto.
Qed.

(** The lines kept after the blanks are collapsed depend on the first
    line of the text and on its later non-empty lines only. *)
Lemma content_lines_collapse_blanks s :
  content_lines (Steps.collapse_blanks s)
  = filter (λ x, x ≠ [])
      ((strip ∘ Steps.collapse_blanks) <$> shape_lines (shape s)).
Proof.
  unfold content_lines.
  rewrite split_collapse_blanks, <-list_fmap_compose.
  by rewrite filter_fmap_nonempty, nonblank_lines.
Qed.

Lemma content_lines_shape s s' :
  shape s = shape s' →
  content_lines (Steps.collapse_blanks s)
  = content_lines (Steps.collapse_blanks s').
Proof. intros H. by rewrite !content_lines_collapse_blanks, H. Qed.

(** Removing one of two adjacent newlines before the cleaning changes
    nothing. *)
Lemma clean_whitespace_replace_newlines text :
  _clean_whitespace (replace [LF; LF] [LF] text) = _clean_whitespace text.
Proof.
  rewrite !clean_whitespace_spec. unfold Steps.strip_blank_lines.
  fold (content_lines (Steps.collapse_blanks
          (Steps.collapse_newlines (replace [LF; LF] [LF] text)))).
  fold (content_lines (Steps.collapse_blanks (Steps.collapse_newlines text))).
  f_equal. apply content_lines_shape.
  unfold Steps.collapse_newlines.
  fold (squeeze 3 newline [LF; LF] (replace [LF; LF] [LF] text)).
  fold (squeeze 3 newline [LF; LF] text).
  rewrite !shape_squeeze_newlines by first [done | by repeat constructor].
  apply shape_replace_newlines.
Qed.

(** *** The cleaned text is trimmed and has no blank line *)

Lemma content_lines_clean s : Forall clean_line (content_lines s).
Proof.
  unfold content_lines. apply Forall_forall. intros l.
  rewrite list_elem_of_filter, list_elem_of_fmap.
  intros [Hne (x & -> & Hx)]. split; [done|]. split; [|split].
  - intros Hin%elem_of_strip.
    by eapply (Forall_forall (λ l, LF ∉ l)) in Hx;
      [|apply split_lines_no_newline].
  - apply strip_starts_clean.
  - apply strip_ends_clean.
Qed.

Lemma join_nonempty (x : str) (l : list str) :
  x ≠ [] → join [LF] (x :: l) ≠ [].
Proof. destruct l, x; done. Qed.

Lemma ends_clean_app s s' : s' ≠ [] → ends_clean s' → ends_clean (s ++ s').
Proof.
  unfold ends_clean. intros Hne H. rewrite last_app.
  destruct (last s') eqn:E; [done|]. by apply last_None in E.
Qed.

Lemma join_clean (l : list str) :
  Forall clean_line l →
  starts_clean (join [LF] l) ∧ ends_clean (join [LF] l).
Proof.
  induction 1 as [|x l (Hne & _ & Hs & He) Hall [IHs IHe]]; [done|].
  destruct l as [|y l]; [done|]. rewrite join_cons_cons. split.
  - by destruct x.
  - apply ends_clean_app.
    + intros E%app_eq_nil. by destruct E.
    + apply (ends_clean_app [LF]); [|done].
      inversion_clear Hall as [|?? [Hy _] _]. by apply join_nonempty.
Qed.

Lemma strip_join_clean (l : list str) :
  Forall clean_line l → strip (join [LF] l) = join [LF] l.
Proof. intros [??]%join_clean. by apply strip_clean. Qed.

End Clean.

Section Normalize.

Import TextProcessor.
Implicit Types (s w : str) (c : N).

Lemma extract_text_absent page :
  raw_markup page = None → extract_text page = [].
Proof.
  unfold raw_markup, extract_text.
  destruct page as [[[[[[v|]]|]]|]]; simpl; by intros [=].
Qed.

Lemma extract_text_present page html :
  raw_markup page = Some html →
  extract_text page
  = if truthy html
    then strip (_clean_whitespace (_remove_html_tags html))
    else [].
Proof.
  unfold raw_markup, extract_text.
  destruct page as [[[[[[v|]]|]]|]]; simpl; intros [=]. subst.
  by destruct html.
Qed.

Lemma strip_blank_lines_clean s :
  strip (Steps.strip_blank_lines s) = Steps.strip_blank_lines s.
Proof. apply strip_join_clean, content_lines_clean. Qed.

(** With markup, [extract_text] is the cleaning of the markup without its
    entities and tags. *)
Lemma extract_text_markup_clean page html :
  raw_markup page = Some html →
  extract_text page = Steps.normalize (Some html).
Proof.
  intros E. rewrite (extract_text_present _ _ E).
  destruct html as [|c r]; [done|]. cbn [truthy Steps.normalize].
  unfold _remove_html_tags.
  rewrite clean_whitespace_replace_newlines, clean_whitespace_spec.
  apply strip_blank_lines_clean.
Qed.

Lemma extract_text_lines page :
  ∃ l, Forall clean_line l ∧ extract_text page = join [LF] l.
Proof.
  destruct (raw_markup page) as [html|] eqn:E.
  - rewrite (extract_text_markup_clean _ _ E).
    eexists. split; [apply content_lines_clean|done].
  - rewrite extract_text_absent by done. exists []. by split.
Qed.

Lemma blank_line_free_no_newline s : LF ∉ s → blank_line_free s.
Proof.
  induction s as [|c [|d r] IH]; [done..|].
  rewrite not_elem_of_cons. intros [Hc Hr].
  split; [|by apply IH]. intros [-> _]. done.
Qed.

Lemma blank_line_free_app_newline w s :
  w ≠ [] → LF ∉ w → head s ≠ Some LF → blank_line_free s →
  blank_line_free (w ++ LF :: s).
Proof.
  intros Hne Hw Hs Hfree. induction w as [|c [|d w] IH]; [done| |].
  - apply not_elem_of_cons in Hw as [Hc _]. split; [by intros [-> _]|].
    destruct s as [|d s]; [done|]. split; [|done].
    intros [_ ->]. by apply Hs.
  - apply not_elem_of_cons in Hw as [Hc Hw]. split; [by intros [-> _]|].
    by apply IH.
Qed.

Lemma blank_line_free_join (l : list str) :
  Forall clean_line l → blank_line_free (join [LF] l).
Proof.
  induction 1 as [|x l (Hne & Hnl & _) Hall IH]; [done|].
  destruct l as [|y l]; [by apply blank_line_free_no_newline|].
  rewrite join_cons_cons. apply blank_line_free_app_newline; [done..| |done].
  inversion_clear Hall as [|?? (Hy & _ & Hs & _) _].
  destruct y as [|d y]; [done|]. destruct l; simpl; intros [= ->]; done.
Qed.

Lemma blank_line_free_spec s a b :
  blank_line_free s → s ≠ a ++ [LF; LF] ++ b.
Proof.
  intros Hfree ->. induction a as [|c a IH].
  - by destruct Hfree as [[] _].
  - apply IH. destruct a; by destruct Hfree.
Qed.

Lemma run_newline_blank_line_free s :
  blank_line_free s → (Re.run newline s < 2)%nat.
Proof.
  destruct s as [|c [|d r]]; simpl; [lia|destruct (newline c); lia|].
  intros [H _]. destruct (newline c) eqn:Ec; [|lia].
  destruct (newline d) eqn:Ed; [|lia].
  apply N.eqb_eq in Ec, Ed. by destruct H.
Qed.

Lemma split_paragraphs_blank_line_free prev s :
  blank_line_free s → Re.split_go (Re.at_least 2 newline) prev 0 s = [s].
Proof.
  revert prev. induction s as [|c r IH]; intros prev Hfree; [done|].
  cbn [Re.split_go]. unfold Re.at_least at 1.
  pose proof (run_newline_blank_line_free _ Hfree) as Hrun.
  rewrite (proj2 (andb_false_iff _ _)) by (left; apply Nat.leb_gt; lia).
  rewrite IH; [done|]. destruct r; [done|]. by destruct Hfree.
Qed.

(** C10: the text that [extract_text] returns has no two newlines in a
    row; splitting it into paragraphs gives the text itself, or
    nothing when it is empty: at most one paragraph. *)
Theorem extract_text_single_paragraph (page : Page) :
  (∀ a b, extract_text page ≠ a ++ [LF; LF] ++ b)
  ∧ _split_by_paragraphs (extract_text page)
    = (if decide (extract_text page = []) then []
       else [extract_text page])
  ∧ (length (_split_by_paragraphs (extract_text page)) ≤ 1)%nat.
Proof.
  destruct (extract_text_lines page) as (l & Hl & ->).
  assert (blank_line_free (join [LF] l)) as Hfree
    by by apply blank_line_free_join.
  assert (_split_by_paragraphs (join [LF] l)
          = if decide (join [LF] l = []) then [] else [join [LF] l]) as E.
  { unfold _split_by_paragraphs, Re.split.
    rewrite split_paragraphs_blank_line_free by done. cbn [omap list_omap].
    rewrite strip_join_clean by done.
    by destruct (join [LF] l). }
  split; [|split; [done|]].
  - intros a b. by apply blank_line_free_spec.
  - rewrite E. destruct (decide _); simpl; lia.
Qed.

End Normalize.

Section Tidy.

Import TextProcessor.
Implicit Types (s w t : str) (c : N).

Lemma blank_cases c : blank c = true → c = SP ∨ c = TAB.
Proof.
  unfold blank. intros H.
  apply orb_true_iff in H as [E|E]; apply N.eqb_eq in E; auto.
Qed.

Lemma collapse_blanks_tidy s : tidy s → Steps.collapse_blanks s = s.
Proof.
  induction s as [|c r IH]; [done|]. intros (Htab & Hrun & Hr).
  destruct (blank c) eqn:Hc.
  - destruct (blank_cases c Hc) as [-> | ->]; [|done].
    change (SP :: r) with ([SP] ++ r).
    rewrite collapse_blanks_prefix; [by rewrite IH|done| |by apply Hrun].
    by repeat constructor.
  - by rewrite collapse_blanks_cons_other, IH.
Qed.

Lemma run_collapse_blanks s :
  Re.run blank s = O → Re.run blank (Steps.collapse_blanks s) = O.
Proof.
  destruct s as [|c r]; [done|]. simpl. destruct (blank c) eqn:Hc; [done|].
  intros _. rewrite collapse_blanks_cons_other by done. simpl. by rewrite Hc.
Qed.

Lemma tidy_collapse_blanks s : tidy (Steps.collapse_blanks s).
Proof.
  induction s as [s IH] using str_length_ind.
  destruct s as [|c r]; [done|].
  destruct (blank c) eqn:Hc.
  - set (n := Re.run blank (c :: r)).
    assert (0 < n)%nat as Hn by (unfold n; simpl; rewrite Hc; lia).
    rewrite <-(take_drop n (c :: r)).
    rewrite collapse_blanks_prefix.
    + split; [done|]. split.
      * intros _. apply run_collapse_blanks, run_drop.
      * apply IH. rewrite length_drop. simpl. lia.
    + intros E. apply (f_equal length) in E. rewrite length_take in E.
      pose proof (run_le blank (c :: r)). fold n in H. simpl in *. lia.
    + apply run_take.
    + apply run_drop.
  - rewrite collapse_blanks_cons_other by done.
    split; [by intros ->|]. split; [by rewrite Hc|].
    apply IH. simpl. lia.
Qed.

Lemma tidy_lstrip s : tidy s → tidy (lstrip s).
Proof.
  induction s as [|c r IH]; [done|]. intros H. simpl.
  destruct (isspace c); [|done]. apply IH. apply H.
Qed.

Lemma rstrip_head s : rstrip s ≠ [] → head (rstrip s) = head s.
Proof.
  destruct s as [|c r]; [done|]. rewrite rstrip_cons.
  destruct (decide _); [|done]. by destruct (isspace c).
Qed.

Lemma run_rstrip p s : Re.run p s = O → Re.run p (rstrip s) = O.
Proof.
  intros H. destruct (decide (rstrip s = [])) as [->|Hne]; [done|].
  apply rstrip_head in Hne. destruct s as [|c r]; [done|].
  destruct (rstrip (c :: r)) as [|d r']; [done|].
  injection Hne as ->. simpl in *. by destruct (p c).
Qed.

Lemma tidy_rstrip s : tidy s → tidy (rstrip s).
Proof.
  induction s as [|c r IH]; [done|]. intros (Htab & Hrun & Hr).
  rewrite rstrip_cons. destruct (decide _).
  - by destruct (isspace c).
  - split; [done|]. split; [|by apply IH].
    intros Hc. by apply run_rstrip, Hrun.
Qed.

Lemma tidy_strip s : tidy s → tidy (strip s).
Proof. intros. by apply tidy_rstrip, tidy_lstrip. Qed.

Lemma content_lines_tidy s :
  Forall tidy (content_lines (Steps.collapse_blanks s)).
Proof.
  unfold content_lines. rewrite split_collapse_blanks.
  apply Forall_forall. intros l.
  rewrite list_elem_of_filter, list_elem_of_fmap.
  intros [_ (x & -> & Hx)]. apply tidy_strip.
  apply list_elem_of_fmap in Hx as (y & -> & _).
  apply tidy_collapse_blanks.
Qed.

Lemma collapse_newlines_blank_line_free s :
  blank_line_free s → Steps.collapse_newlines s = s.
Proof.
  unfold Steps.collapse_newlines. fold (squeeze 3 newline [LF; LF] s).
  induction s as [|c r IH]; [done|]. intros Hfree.
  pose proof (run_newline_blank_line_free _ Hfree).
  rewrite squeeze_cons, decide_False by lia.
  rewrite IH; [done|]. destruct r; [done|]. by destruct Hfree.
Qed.

Lemma fmap_id_on {A} (f : A → A) (l : list A) :
  Forall (λ x, f x = x) l → f <$> l = l.
Proof. induction 1 as [|x l Hx _ IH]; [done|]. by rewrite fmap_cons, Hx, IH. Qed.

Lemma filter_id_on {A} (P : A → Prop) `{!∀ x, Decision (P x)} (l : list A) :
  Forall P l → filter P l = l.
Proof.
  induction 1 as [|x l Hx _ IH]; [done|]. by rewrite filter_cons_True, IH.
Qed.

(** A text made of trimmed, tidy, non-empty lines is left as it is. *)
Lemma clean_fixed (l : list str) :
  Forall clean_line l → Forall tidy l →
  Steps.strip_blank_lines
    (Steps.collapse_blanks (Steps.collapse_newlines (join [LF] l)))
  = join [LF] l.
Proof.
  intros Hclean Htidy. destruct (decide (l = [])) as [->|Hne]; [done|].
  assert (Forall (λ x, LF ∉ x) l) as Hnl.
  { eapply Forall_impl; [exact Hclean|]. intros x Hx. apply Hx. }
  rewrite collapse_newlines_blank_line_free
    by by apply blank_line_free_join.
  assert (Steps.collapse_blanks (join [LF] l) = join [LF] l) as ->.
  { rewrite <-(join_split (Steps.collapse_blanks _)).
    rewrite split_collapse_blanks, split_join by done. f_equal.
    apply fmap_id_on. eapply Forall_impl; [exact Htidy|].
    apply collapse_blanks_tidy. }
  unfold Steps.strip_blank_lines. rewrite split_join by done. f_equal.
  rewrite fmap_id_on.
  - apply filter_id_on. eapply Forall_impl; [exact Hclean|].
    intros x Hx. apply Hx.
  - eapply Forall_impl; [exact Hclean|]. intros x Hx.
    apply strip_clean; apply Hx.
Qed.

Lemma raw_markup_page_of t : raw_markup (page_of t) = Some t.
Proof. done. Qed.

End Tidy.

(** *** Texts free of markup *)

Section MarkupFree.

Import TextProcessor.
Implicit Types (s w t e : str) (c : N).

Lemma replace_no_occurrence e new s :
  e ≠ [] → occurs e s = false → replace e new s = s.
Proof.
  intros He. unfold replace. destruct e as [|a e]; [done|]. clear He.
  induction s as [|c r IH]; [done|].
  cbn [occurs]. intros [H1 H2]%orb_false_iff.
  by rewrite replace_go_cons, H1, IH.
Qed.

Lemma startswith_app e s :
  startswith e s = true → s = e ++ drop (length e) s.
Proof.
  revert s. induction e as [|a e IH]; intros s; [done|].
  destruct s as [|c r]; [done|]. cbn [startswith].
  intros [->%N.eqb_eq H]%andb_true_iff. cbn [app length drop].
  f_equal. by apply IH.
Qed.

(** Replacing a string by itself changes nothing. *)
Lemma replace_same e s : e ≠ [] → replace e e s = s.
Proof.
  intros He. unfold replace. destruct e as [|a e]; [done|]. clear He.
  induction s as [s IH] using str_length_ind.
  destruct s as [|c r]; [done|]. rewrite replace_go_cons.
  destruct (startswith _ _) eqn:E.
  - rewrite IH by (rewrite length_drop; simpl; lia).
    apply startswith_app in E. cbn [length drop] in E.
    replace (length (a :: e) - 1)%nat with (length e) by (simpl; lia).
    done.
  - by rewrite IH by (simpl; lia).
Qed.

Lemma decode_entities_two html :
  decode_entities html
  = replace (lit "&#39;") (lit "'") (replace (lit "&nbsp;") (lit " ") html).
Proof. unfold decode_entities. cbv zeta. by rewrite !replace_same. Qed.

Lemma decode_entities_markup_free t :
  Forall (λ e, occurs e t = false) entities → decode_entities t = t.
Proof.
  unfold entities. intros H. rewrite decode_entities_two.
  repeat (apply Forall_cons in H as [? H]).
  by do 2 (rewrite (replace_no_occurrence _ _ t) by done).
Qed.

Lemma has_false c s : has c s = false ↔ c ∉ s.
Proof.
  unfold has. induction s as [|d r IH]; [by split; [intros _ ?%elem_of_nil|]|].
  cbn [existsb]. rewrite orb_false_iff, IH, not_elem_of_cons, N.eqb_neq. done.
Qed.

Lemma run_not_member c s :
  c ∉ s → Re.run (λ x, negb (x =? c)%N) s = length s.
Proof.
  induction s as [|d r IH]; [done|]. rewrite not_elem_of_cons.
  intros [Hd Hr]. simpl.
  rewrite (proj2 (N.eqb_neq d c)) by done. simpl. by rewrite IH.
Qed.

Lemma strip_tags_tag_free prev s :
  tag_free s = true → Re.sub_go Re.tag [] prev 0 s = s.
Proof.
  revert prev. induction s as [|c r IH]; intros prev; [done|].
  cbn [tag_free]. intros [H1 H2]%andb_true_iff.
  cbn [Re.sub_go]. rewrite IH by done.
  assert (Re.tag prev (c :: r) = None) as ->; [|done].
  unfold Re.tag. cbv zeta. destruct (c =? 60)%N eqn:Hc; [|done].
  cbn [negb orb] in H1. apply orb_true_iff in H1 as [H1|H1].
  - destruct r as [|d r]; [done|]. cbn [closes] in H1.
    cbn [Re.run]. by rewrite H1.
  - apply negb_true_iff, has_false in H1.
    rewrite run_not_member by done.
    destruct (length r) as [|n] eqn:E; [done|].
    by rewrite (lookup_ge_None_2 r (S n)) by lia.
Qed.

Lemma normalize_markup_free t :
  markup_free t →
  Steps.normalize (Some t)
  = Steps.strip_blank_lines
      (Steps.collapse_blanks (Steps.collapse_newlines t)).
Proof.
  intros [Htag Hent]. unfold Steps.normalize, Steps.strip_tags, Re.sub.
  by rewrite decode_entities_markup_free, strip_tags_tag_free.
Qed.

End MarkupFree.

Section Words.

Import TextProcessor.
Implicit Types (s w t e : str) (c : N).

Lemma words_cons c s :
  words (c :: s)
  = if isspace c then words s
    else if leads s then cons_head c (words s) else [c] :: words s.
Proof. done. Qed.

Lemma words_spaces_app w s :
  Forall (λ c, isspace c = true) w → words (w ++ s) = words s.
Proof.
  induction 1 as [|c w Hc _ IH]; [done|]. cbn [app].
  by rewrite words_cons, Hc.
Qed.

Lemma leads_words s : leads s = true → words s ≠ [].
Proof.
  destruct s as [|c r]; [done|]. cbn [leads]. intros Hc%negb_true_iff.
  rewrite words_cons, Hc. destruct (leads r); [|done].
  by destruct (words r).
Qed.

Lemma leads_app s t : s ≠ [] → leads (s ++ t) = leads s.
Proof. by destruct s. Qed.

Lemma cons_head_app c (l k : list str) :
  l ≠ [] → cons_head c (l ++ k) = cons_head c l ++ k.
Proof. by destruct l. Qed.

(** A space between two texts separates their words. *)
Lemma words_app_space s d t :
  isspace d = true → words (s ++ d :: t) = words s ++ words t.
Proof.
  intros Hd. induction s as [|c r IH].
  - cbn [app]. by rewrite words_cons, Hd.
  - cbn [app]. rewrite !words_cons, IH.
    destruct (isspace c); [done|].
    assert (leads (r ++ d :: t) = leads r) as ->.
    { destruct r as [|c' r]; [|done]. cbn [app leads]. by rewrite Hd. }
    destruct (leads r) eqn:Hr; [|done].
    apply cons_head_app. by apply leads_words.
Qed.

Lemma isspace_newline : isspace LF = true.
Proof. done. Qed.

Lemma words_join (l : list str) :
  words (join [LF] l) = concat (words <$> l).
Proof.
  induction l as [|x [|y l] IH]; [done| |].
  - cbn [join fmap list_fmap concat]. by rewrite app_nil_r.
  - rewrite join_cons_cons. cbn [app].
    rewrite words_app_space by done. by rewrite IH.
Qed.

Lemma words_lstrip s : words (lstrip s) = words s.
Proof.
  induction s as [|c r IH]; [done|]. cbn [lstrip].
  destruct (isspace c) eqn:E; [|done]. by rewrite words_cons, E.
Qed.

Lemma rstrip_nonspace c s : isspace c = false → rstrip (c :: s) ≠ [].
Proof. intros H. rewrite rstrip_cons. destruct (decide _); by rewrite ?H. Qed.

Lemma leads_rstrip s : leads (rstrip s) = leads s.
Proof.
  destruct s as [|c r]; [done|].
  destruct (isspace c) eqn:Hc.
  - cbn [leads]. rewrite Hc, rstrip_cons.
    destruct (decide _); [by rewrite Hc|]. cbn [leads]. by rewrite Hc.
  - pose proof (rstrip_nonspace c r Hc) as Hne.
    apply rstrip_head in Hne. cbn [leads]. rewrite Hc.
    destruct (rstrip (c :: r)) as [|d r']; [done|].
    injection Hne as ->. cbn [leads]. by rewrite Hc.
Qed.

Lemma words_rstrip s : words (rstrip s) = words s.
Proof.
  induction s as [|c r IH]; [done|]. rewrite rstrip_cons.
  destruct (decide (rstrip r = [])) as [E|E].
  - rewrite words_cons. rewrite <-IH, <-(leads_rstrip r), E.
    destruct (isspace c) eqn:Hc; [done|]. by rewrite words_cons, Hc.
  - by rewrite !words_cons, IH, leads_rstrip.
Qed.

Lemma words_strip s : words (strip s) = words s.
Proof. unfold strip. by rewrite words_rstrip, words_lstrip. Qed.

(** Collapsing runs of spaces keeps the words. *)
Lemma words_squeeze k p repl s :
  (∀ c, p c = true → isspace c = true) →
  repl ≠ [] → Forall (λ c, isspace c = true) repl →
  words (squeeze k p repl s) = words s
  ∧ leads (squeeze k p repl s) = leads s.
Proof.
  intros Hp Hne Hrepl. induction s as [s IH] using str_length_ind.
  destruct s as [|c r]; [done|]. rewrite squeeze_cons.
  destruct (decide _) as [[_ Hrun]|_].
  - set (n := Re.run p (c :: r)) in *.
    destruct (IH (drop n (c :: r))) as [IHw IHl].
    { rewrite length_drop. simpl. lia. }
    assert (p c = true) as Hc.
    { unfold n in Hrun. simpl in Hrun. destruct (p c); [done|lia]. }
    split.
    + rewrite words_spaces_app, IHw by done.
      rewrite <-(take_drop n (c :: r)) at 2.
      rewrite words_spaces_app; [done|].
      eapply Forall_impl; [apply run_take|]. apply Hp.
    + rewrite leads_app by done. cbn [leads]. rewrite (Hp c Hc).
      destruct repl as [|d repl]; [done|]. cbn [leads].
      apply Forall_cons in Hrepl as [-> _]. done.
  - destruct (IH r) as [IHw IHl]; [simpl; lia|].
    split; [|done]. by rewrite !words_cons, IHw, IHl.
Qed.

Lemma words_clean s :
  words (Steps.strip_blank_lines
           (Steps.collapse_blanks (Steps.collapse_newlines s)))
  = words s.
Proof.
  assert (∀ x, words (Steps.strip_blank_lines x) = words x) as Hlines.
  { intros x. unfold Steps.strip_blank_lines. rewrite words_join.
    rewrite <-(join_split x) at 2. rewrite words_join.
    generalize (split LF x). intros l.
    induction l as [|y l IH]; [done|].
    rewrite fmap_cons, filter_cons.
    destruct (decide (strip y ≠ [])) as [Hy|Hy].
    - rewrite !fmap_cons. cbn [concat]. by rewrite IH, words_strip.
    - apply dec_stable in Hy. rewrite fmap_cons. cbn [concat].
      by rewrite IH, <-(words_strip y), Hy. }
  rewrite Hlines. unfold Steps.collapse_blanks, Steps.collapse_newlines.
  fold (squeeze 3 newline [LF; LF] s).
  fold (squeeze 1 blank [SP] (squeeze 3 newline [LF; LF] s)).
  assert (∀ x, words (squeeze 1 blank [SP] x) = words x) as Hblanks.
  { intros x. apply words_squeeze; [|done|by repeat constructor].
    intros c Hc. by destruct (blank_cases c Hc) as [-> | ->]. }
  rewrite Hblanks.
  apply words_squeeze; [|done|by repeat constructor].
  by intros c ->%N.eqb_eq.
Qed.

End Words.

Section Occurrences.

Import TextProcessor.
Implicit Types (s w t e : str) (c : N).

Lemma first_word_cons c s :
  first_word (c :: s) = if isspace c then [] else c :: first_word s.
Proof. unfold first_word. simpl. by destruct (isspace c). Qed.

Lemma first_word_not_leads s : leads s = false → first_word s = [].
Proof.
  destruct s as [|c r]; [done|]. cbn [leads]. intros Hc%negb_false_iff.
  by rewrite first_word_cons, Hc.
Qed.

Lemma words_first s :
  leads s = true → ∃ l, words s = first_word s :: l.
Proof.
  induction s as [|c r IH]; [done|]. cbn [leads]. intros Hc%negb_true_iff.
  rewrite words_cons, first_word_cons, Hc.
  destruct (leads r) eqn:Hr.
  - destruct (IH eq_refl) as [l ->]. by exists l.
  - rewrite first_word_not_leads by done. by eexists.
Qed.

(** A text without spaces starts [s] when it starts its first word. *)
Lemma startswith_first_word e s :
  Forall (λ c, isspace c = false) e →
  startswith e s = startswith e (first_word s).
Proof.
  intros He. revert s. induction He as [|a e Ha _ IH]; intros s; [done|].
  destruct s as [|c r]; [done|]. rewrite first_word_cons.
  destruct (isspace c) eqn:Hc.
  - cbn [startswith]. rewrite (proj2 (N.eqb_neq a c)); [done|].
    intros ->. congruence.
  - cbn [startswith]. by rewrite IH.
Qed.

Lemma startswith_space e c s :
  e ≠ [] → Forall (λ c, isspace c = false) e → isspace c = true →
  startswith e (c :: s) = false.
Proof.
  intros Hne He Hc. rewrite startswith_first_word, first_word_cons, Hc by done.
  by destruct e.
Qed.

(** A text without spaces occurs in [s] when it occurs in a word of
    [s]. *)
Lemma occurs_words e s :
  e ≠ [] → Forall (λ c, isspace c = false) e →
  occurs e s = existsb (occurs e) (words s).
Proof.
  intros Hne He. induction s as [|c r IH]; [done|].
  cbn [occurs]. rewrite words_cons. destruct (isspace c) eqn:Hc.
  - by rewrite startswith_space.
  - rewrite IH. rewrite (startswith_first_word e (c :: r)) by done.
    rewrite first_word_cons, Hc. destruct (leads r) eqn:Hr.
    + destruct (words_first r Hr) as [l ->]. cbn [cons_head existsb occurs].
      by rewrite orb_assoc.
    + rewrite first_word_not_leads by done. cbn [existsb occurs].
      by rewrite orb_false_r.
Qed.

End Occurrences.

Section TagFree.

Import TextProcessor.
Implicit Types (s w t e : str) (c x : N).

Lemma has_cons x c s : has x (c :: s) = (x =? c)%N || has x s.
Proof. done. Qed.

Lemma has_app x s t : has x (s ++ t) = has x s || has x t.
Proof. apply existsb_app. Qed.

Lemma has_words x s :
  isspace x = false → has x s = existsb (has x) (words s).
Proof.
  intros Hx. induction s as [|c r IH]; [done|].
  rewrite has_cons, words_cons, IH. destruct (isspace c) eqn:Hc.
  - rewrite (proj2 (N.eqb_neq x c)); [done|]. intros ->. congruence.
  - destruct (leads r) eqn:Hr.
    + apply leads_words in Hr. destruct (words r) as [|w l]; [done|].
      cbn [cons_head existsb]. by rewrite has_cons, orb_assoc.
    + cbn [existsb]. rewrite has_cons. cbn [has existsb].
      by rewrite orb_false_r.
Qed.

Lemma has_join x (l : list str) :
  x ≠ SP → has x (join [SP] l) = existsb (has x) l.
Proof.
  intros Hx. induction l as [|w [|w' l] IH]; [done| |].
  - cbn [join existsb]. by rewrite orb_false_r.
  - rewrite join_cons_cons, !has_app, IH. cbn [existsb].
    cbn [has existsb]. rewrite (proj2 (N.eqb_neq x SP)) by done. done.
Qed.

Lemma has_spaced x s : isspace x = false → has x (spaced s) = has x s.
Proof.
  intros Hx. unfold spaced. rewrite has_join, <-has_words; [done..|].
  intros ->. done.
Qed.

Lemma spaced_cons c s :
  spaced (c :: s)
  = if isspace c then spaced s
    else if leads s then c :: spaced s
    else match words s with
         | [] => [c]
         | _ :: _ => c :: SP :: spaced s
         end.
Proof.
  unfold spaced. rewrite words_cons. destruct (isspace c); [done|].
  destruct (leads s) eqn:Hs.
  - apply leads_words in Hs. destruct (words s) as [|w [|w' l]]; done.
  - destruct (words s) as [|w l]; [done|]. by rewrite join_cons_cons.
Qed.

Lemma closes_spaced s : leads s = true → closes (spaced s) = closes s.
Proof.
  destruct s as [|c r]; [done|]. cbn [leads]. intros Hc%negb_true_iff.
  rewrite spaced_cons, Hc. destruct (leads r); [done|].
  by destruct (words r).
Qed.

Lemma closes_not_leads s : leads s = false → closes s = false.
Proof.
  destruct s as [|c r]; [done|]. cbn [leads closes].
  intros Hc%negb_false_iff. apply N.eqb_neq. intros ->. done.
Qed.

Lemma space_not_bracket c : isspace c = true → (c =? 60)%N = false.
Proof. intros Hc. apply N.eqb_neq. intros ->. done. Qed.

(** Whether a text has a tag span depends on its words only. *)
Lemma tag_free_spaced s : tag_free (spaced s) = tag_free s.
Proof.
  induction s as [|c r IH]; [done|].
  rewrite spaced_cons. cbn [tag_free]. destruct (isspace c) eqn:Hc.
  - by rewrite IH, space_not_bracket.
  - destruct (leads r) eqn:Hr.
    + cbn [tag_free]. by rewrite IH, closes_spaced, has_spaced.
    + rewrite (closes_not_leads r) by done.
      rewrite <-IH. rewrite <-(has_spaced 62 r) by done.
      unfold spaced. destruct (words r) as [|w l]; [done|].
      cbn [tag_free closes]. rewrite has_cons.
      change (62 =? SP)%N with false. change (SP =? 62)%N with false.
      change (SP =? 60)%N with false. done.
Qed.

Lemma entities_no_space :
  Forall (λ e, e ≠ [] ∧ Forall (λ c, isspace c = false) e) entities.
Proof. repeat constructor; done. Qed.

(** Cleaning a text free of markup leaves it free of markup. *)
Lemma markup_free_clean t :
  markup_free t →
  markup_free (Steps.strip_blank_lines
              (Steps.collapse_blanks (Steps.collapse_newlines t))).
Proof.
  intros [Htag Hent]. split.
  - rewrite <-tag_free_spaced. unfold spaced. rewrite words_clean.
    fold (spaced t). by rewrite tag_free_spaced.
  - pose proof entities_no_space as Hns. revert Hent Hns.
    generalize entities. intros l Hent Hns.
    induction Hent as [|e l He _ IH]; [constructor|].
    apply Forall_cons in Hns as [[Hne Hsp] Hns].
    constructor; [|by apply IH].
    rewrite occurs_words, words_clean, <-occurs_words; done.
Qed.

(** C9: on a text free of markup, that is, with no tag span and none of
    the entities, normalizing the normalized text changes nothing. *)
Theorem extract_text_idempotent (t : str) :
  markup_free t →
  extract_text (page_of (extract_text (page_of t)))
  = extract_text (page_of t).
Proof.
  intros Hfree.
  rewrite !(extract_text_markup_clean _ _ (raw_markup_page_of _)).
  rewrite (normalize_markup_free t) by done.
  rewrite normalize_markup_free by by apply markup_free_clean.
  apply clean_fixed.
  - apply content_lines_clean.
  - apply content_lines_tidy.
Qed.

End TagFree.

(** *** The normalization, pass by pass *)

Section Refinement.

Import TextProcessor.
Implicit Types (s w t e p : str) (c : N).

(** *** Decoding *)








(** *** Tag spans *)





(** *** Lines *)










End Refinement.


(** ** Segmentation *)

Section Segments.

Import TextProcessor.
Implicit Types (s w t p : str) (c : N).

Lemma len_app {A} (l k : list A) : len (l ++ k) = len l + len k.
Proof. unfold len. rewrite length_app. lia. Qed.

Lemma len_nonneg {A} (l : list A) : 0 ≤ len l.
Proof. unfold len. lia. Qed.

Lemma len_slice_from_tail (k : Z) s : 0 < k → len (slice_from (- k) s) ≤ k.
Proof.
  intros Hk. unfold slice_from, len.
  rewrite (proj2 (Z.leb_gt _ _)) by lia. rewrite length_drop. unfold len. lia.
Qed.

Lemma pieces_stripped (pieces : list str) x :
  x ∈ omap (λ p, if truthy (strip p) then Some (strip p) else None) pieces →
  strip x = x ∧ x ≠ [].
Proof.
  rewrite list_elem_of_omap. intros (y & _ & Hy).
  destruct (strip y) as [|c r] eqn:E; [done|]. injection Hy as <-.
  split; [|done]. rewrite <-E. apply strip_strip.
Qed.

Lemma paragraph_stripped text p :
  p ∈ _split_by_paragraphs text → strip p = p ∧ p ≠ [].
Proof. apply pieces_stripped. Qed.

Lemma sentence_stripped text s :
  s ∈ _split_by_sentences text → strip s = s ∧ s ≠ [].
Proof. apply pieces_stripped. Qed.

Lemma Forall_removelast {A} (P : A → Prop) (l : list A) :
  Forall P l → Forall P (removelast l).
Proof.
  induction 1 as [|x l Hx Hl IH]; [done|]. simpl.
  destruct l; [constructor|]. by constructor.
Qed.

(** *** The overlap between consecutive chunks *)

Lemma chained_nil ov : chained ov [].
Proof. intros i prev chunk H. done. Qed.

Lemma chained_singleton ov x : chained ov [x].
Proof. intros [|i] prev chunk H1 H2; done. Qed.

Lemma chained_snoc ov (l : list str) x :
  chained ov l → (∀ prev, last l = Some prev → overlapped ov prev x) →
  chained ov (l ++ [x]).
Proof.
  intros Hl Hx i prev chunk H1 H2.
  destruct (decide (S i < length l)%nat) as [Hi|Hi].
  - rewrite lookup_app_l in H1, H2 by lia. by eapply Hl.
  - apply lookup_lt_Some in H2 as Hlen. rewrite length_app in Hlen.
    simpl in Hlen. assert (S i = length l) as Hi' by lia.
    rewrite lookup_app_l in H1 by lia.
    rewrite lookup_app_r, Hi', Nat.sub_diag in H2 by lia.
    injection H2 as <-. apply Hx.
    rewrite last_lookup, <-Hi'. done.
Qed.

Lemma chained_snoc_inv ov (l : list str) x :
  chained ov (l ++ [x]) →
  chained ov l ∧ (∀ prev, last l = Some prev → overlapped ov prev x).
Proof.
  intros H. split.
  - intros i prev chunk H1 H2. apply (H i).
    + apply lookup_app_l_Some. done.
    + apply lookup_app_l_Some. done.
  - intros prev Hlast. rewrite last_lookup in Hlast.
    destruct l as [|y l]; [done|]. simpl in Hlast.
    apply (H (length l)).
    + by apply lookup_app_l_Some.
    + change (S (length l)) with (length (y :: l)).
      by rewrite list_lookup_middle.
Qed.

Lemma overlapped_app ov prev chunk more :
  overlapped ov prev chunk → overlapped ov prev (chunk ++ more).
Proof.
  intros [rest ->]. exists (rest ++ more). by rewrite <-!app_assoc.
Qed.

Lemma step_chained (chunk_size chunk_overlap : Z)
    (chunks : list str) (current_chunk p : str) :
  let next := step chunk_size chunk_overlap (chunks, current_chunk) p in
  0 < chunk_overlap → strip p ≠ [] → len (strip p) ≤ chunk_size →
  chained chunk_overlap (close chunks current_chunk) →
  (current_chunk = [] → chunks = []) →
  chained chunk_overlap (close next.1 next.2)
  ∧ (next.2 = [] → next.1 = []).
Proof.
  intros next Hov Hne Hshort Hchain Hempty. subst next. unfold step.
  assert ((len (strip p) >? chunk_size) = false) as ->.
  { rewrite Z.gtb_ltb. apply Z.ltb_ge. lia. }
  assert ((chunk_overlap >? 0) = true) as ->.
  { rewrite Z.gtb_ltb. apply Z.ltb_lt. lia. }
  destruct (_ >? _).
  - destruct (last (close chunks current_chunk)) as [prev|] eqn:Hlast.
    + cbn [fst snd]. split; [|by destruct (slice_from _ prev)].
      unfold close at 1.
      assert (truthy (slice_from (- chunk_overlap) prev ++ lit " " ++ strip p)
              = true) as -> by by destruct (slice_from _ prev).
      apply chained_snoc; [done|]. intros prev' Hprev.
      rewrite Hlast in Hprev. injection Hprev as <-. by eexists.
    + cbn [fst snd]. apply last_None in Hlast. rewrite Hlast.
      split; [|done]. unfold close. destruct (strip p); [done|].
      apply chained_singleton.
  - destruct current_chunk as [|c r]; cbn [truthy fst snd].
    + rewrite Hempty by done. split; [|done].
      unfold close. destruct (strip p); [done|]. apply chained_singleton.
    + split; [|done]. unfold close in *. cbn [truthy app] in *.
      apply chained_snoc_inv in Hchain as [Hchunks Hlast].
      apply chained_snoc; [done|]. intros prev Hprev.
      apply (overlapped_app _ _ (c :: r)). by apply Hlast.
Qed.

Lemma foldl_step_chained (chunk_size chunk_overlap : Z)
    (paragraphs : list str) (chunks : list str) (current_chunk : str) :
  let final :=
    foldl (step chunk_size chunk_overlap) (chunks, current_chunk)
      paragraphs in
  0 < chunk_overlap →
  Forall (λ p, strip p ≠ [] ∧ len (strip p) ≤ chunk_size) paragraphs →
  chained chunk_overlap (close chunks current_chunk) →
  (current_chunk = [] → chunks = []) →
  chained chunk_overlap (close final.1 final.2).
Proof.
  intros final Hov Hall. subst final. revert chunks current_chunk.
  induction Hall as [|p paragraphs [Hne Hshort] _ IH];
    intros chunks current_chunk Hchain Hempty; [done|].
  cbn [foldl].
  destruct (step_chained chunk_size chunk_overlap chunks current_chunk p)
    as [H1 H2]; [done..|].
  destruct (step _ _ _ _) as [chunks' current']. by apply IH.
Qed.

(** Without a paragraph longer than the chunk size, the chunks are chained
    by the overlap. *)
Lemma split_text_chained (self : TextProcessor.t) (text : str)
    (chunk_size chunk_overlap : option Z) (i : nat) (prev chunk : str) :
  0 < int_or chunk_overlap (TextProcessor.chunk_overlap self) →
  Forall (λ p, len p ≤ int_or chunk_size (TextProcessor.chunk_size self))
    (_split_by_paragraphs text) →
  split_text self text chunk_size chunk_overlap !! i = Some prev →
  split_text self text chunk_size chunk_overlap !! S i = Some chunk →
  ∃ rest,
    chunk
    = slice_from (- int_or chunk_overlap (TextProcessor.chunk_overlap self))
        prev ++ lit " " ++ rest.
Proof.
  intros Hov Hshort. unfold split_text.
  destruct (truthy text); [|done]. cbn [negb].
  destruct (truthy (_split_by_paragraphs text)); [|done]. cbn [negb].
  set (cs := int_or chunk_size _) in *.
  set (ov := int_or chunk_overlap _) in *.
  pose proof (foldl_step_chained cs ov (_split_by_paragraphs text) [] [])
    as H.
  destruct (foldl _ _ _) as [chunks current_chunk]. cbn [fst snd] in H.
  apply H; [done| |apply chained_nil|done].
  apply Forall_forall. intros p Hp.
  destruct (paragraph_stripped _ _ Hp) as [-> ?]. split; [done|].
  by eapply Forall_forall in Hshort.
Qed.

End Segments.

(** ** Segmentation and normalization at concrete inputs *)

(** C2, as stated, fails: with chunk size 10 and overlap 5, the second
    chunk of two paragraphs of nine characters is 15 characters long; it
    is not a sentence of a paragraph, and it holds three sentences. *)
Lemma split_text_bound_counterexample :
  ¬ Forall
      (λ chunk,
         len chunk ≤ 10
         ∨ (∃ paragraph,
              paragraph ∈ TextProcessor._split_by_paragraphs
                            Examples.two_paragraphs
              ∧ chunk ∈ TextProcessor._split_by_sentences paragraph)
         ∨ TextProcessor._split_by_sentences chunk = [chunk])
      (TextProcessor.split_text TextProcessor.init Examples.two_paragraphs
         (Some 10) (Some 5)).
Proof.
  assert (TextProcessor.split_text TextProcessor.init Examples.two_paragraphs
            (Some 10) (Some 5)
          = [lit "One. Two."; lit " Two. Six. Ten."]) as -> by by vm_compute.
  assert (TextProcessor._split_by_paragraphs Examples.two_paragraphs
          = [lit "One. Two."; lit "Six. Ten."]) as -> by by vm_compute.
  intros H. apply Forall_cons in H as [_ H]. apply Forall_cons in H as [H _].
  destruct H as [H|[(p & Hp & Hin)|H]].
  - by vm_compute in H.
  - apply elem_of_cons in Hp as [->|Hp];
      [|apply list_elem_of_singleton in Hp as ->].
    + assert (TextProcessor._split_by_sentences (lit "One. Two.")
              = [lit "One."; lit "Two."]) as E by by vm_compute.
      rewrite E in Hin.
      apply elem_of_cons in Hin as [Hin|Hin]; [done|].
      by apply list_elem_of_singleton in Hin.
    + assert (TextProcessor._split_by_sentences (lit "Six. Ten.")
              = [lit "Six."; lit "Ten."]) as E by by vm_compute.
      rewrite E in Hin.
      apply elem_of_cons in Hin as [Hin|Hin]; [done|].
      by apply list_elem_of_singleton in Hin.
  - by vm_compute in H.
Qed.

(** C6, as stated, fails: with chunk size 10 and overlap 3, a paragraph
    of two sentences gives two chunks, and the second does not start with
    the last three characters of the first. *)
Lemma split_text_overlap_counterexample :
  ¬ ∀ i prev chunk,
      TextProcessor.split_text TextProcessor.init Examples.two_sentences
        (Some 10) (Some 3) !! i = Some prev →
      TextProcessor.split_text TextProcessor.init Examples.two_sentences
        (Some 10) (Some 3) !! S i = Some chunk →
      ∃ rest, chunk = slice_from (- 3) prev ++ rest.
Proof.
  intros H.
  destruct (H 0%nat (lit "aaaaaaa.") (lit "bbbbbbb.")) as [rest E];
    [by vm_compute..|].
  by vm_compute in E.
Qed.

(** A text with spaces, a tab, blank lines and lone markup characters. *)
Lemma extract_text_idempotent_witness :
  markup_free Examples.plain_text
  ∧ TextProcessor.extract_text
      (page_of (TextProcessor.extract_text (page_of Examples.plain_text)))
    = TextProcessor.extract_text (page_of Examples.plain_text).
Proof.
  assert (markup_free Examples.plain_text) as H.
  { split; [by vm_compute|]. repeat constructor; by vm_compute. }
  split; [done|]. by apply (extract_text_idempotent Examples.plain_text).
Defined.

(** Markup with tags, entities and blank lines: the non-breaking space
    and the apostrophe are decoded, the other entities are left as they
    are, and the three newlines come out as one. *)
Example extract_text_markup :
  TextProcessor.extract_text
    (page_of (lit "<p>It&#39;s&nbsp;R&amp;D <b>now</b></p>" ++ [LF; LF; LF]
              ++ lit "  a &lt;b&gt; c"))
  = lit "It's R&amp;D now" ++ [LF] ++ lit "a &lt;b&gt; c".
Proof. by vm_compute. Qed.

Example extract_text_no_body :
  TextProcessor.extract_text {| TextProcessor.body := None |} = [].
Proof. reflexivity. Qed.

(** A short text is one chunk, with the sizes of the processor. *)
Example split_text_short :
  TextProcessor.split_text TextProcessor.init (lit "Hello world.") None None
  = [lit "Hello world."].
Proof. by vm_compute. Qed.

(** An overlap of 0 in the call is replaced by the overlap of the
    processor. *)
Example split_text_overlap_zero :
  TextProcessor.split_text
    {| TextProcessor.chunk_size := 10; TextProcessor.chunk_overlap := 5 |}
    Examples.short_paragraphs None (Some 0)
  = [lit "aaaaaaaa"; lit "aaaaa bbbbbbbb"].
Proof. by vm_compute. Qed.

(** Two vector matches of the same page, and documents that are not
    used. *)
Example merge_results_vector :
  Server.result_id <$>
    Server._merge_results 0 1
      [ {| Server.id := lit "7"; Server.title := lit "T";
           Server.content := lit "c"; Server.space := lit "S";
           Server.url := [] |} ]
      {| Server.matches := Some
           [ {| Server.match_metadata := Some {[ "page_id" := lit "42" ]};
                Server.match_score := Some 3 |};
             {| Server.match_metadata := None; Server.match_score := None |};
             {| Server.match_metadata := Some {[ "page_id" := lit "42" ]};
                Server.match_score := Some 2 |} ] |}
      5
  = [lit "42"].
Proof. by vm_compute. Qed.

(** * Further properties *)

(** ** Segmentation: what the chunks hold *)

Section Inked.

Import TextProcessor.
Implicit Types (s w t p : str) (c : N).

Lemma inked_lstrip s : inked s → inked (lstrip s).
Proof.
  induction s as [|c r IH]; [done|]. intros H. simpl.
  destruct (isspace c) eqn:E; [|done].
  apply IH. apply Exists_cons in H as [H|H]; [congruence|done].
Qed.

Lemma inked_rstrip s : inked s → inked (rstrip s).
Proof.
  induction s as [|c r IH]; [done|]. intros H. rewrite rstrip_cons.
  apply Exists_cons in H as [H|H].
  - destruct (decide _); [rewrite H|]; by left.
  - specialize (IH H). destruct (decide (rstrip r = [])) as [E|E].
    + rewrite E in IH. by apply Exists_nil in IH.
    + by right.
Qed.

Lemma inked_strip s : inked s → strip s ≠ [].
Proof.
  intros H. apply inked_lstrip, inked_rstrip in H.
  unfold strip. intros E. rewrite E in H. by apply Exists_nil in H.
Qed.

Lemma stripped_inked s : strip s = s → s ≠ [] → inked s.
Proof.
  intros E Hne. pose proof (strip_starts_clean s) as H. rewrite E in H.
  destruct s as [|c r]; [done|]. by left.
Qed.

Lemma long_step_inked (chunk_size : Z) (chunks : list str) s :
  inked (strip s) → Forall inked chunks →
  Forall inked (long_step chunk_size chunks s).
Proof.
  intros Hs Hall. unfold long_step.
  destruct (last chunks) as [last_chunk|] eqn:E.
  - destruct (_ >? _).
    + apply Forall_app. split; [done|by constructor].
    + apply Forall_app. split; [by apply Forall_removelast|].
      constructor; [|constructor].
      apply Exists_app. right. apply Exists_app. by right.
  - apply Forall_app. split; [done|by constructor].
Qed.

Lemma split_long_text_inked text (chunk_size : Z) :
  Forall inked (_split_long_text text chunk_size).
Proof.
  unfold _split_long_text.
  assert (Forall inked ([] : list str)) as Hnil by constructor.
  revert Hnil. generalize ([] : list str) as chunks.
  assert (Forall (λ s, inked (strip s)) (_split_by_sentences text)) as Hall.
  { apply Forall_forall. intros s Hs.
    destruct (sentence_stripped _ _ Hs) as [E Hne].
    rewrite E. by apply stripped_inked. }
  induction Hall as [|s l Hs _ IH]; intros chunks Hchunks; [done|].
  cbn [foldl]. apply IH. by apply long_step_inked.
Qed.

Lemma close_inked (chunks : list str) current :
  Forall inked chunks → current = [] ∨ inked current →
  Forall inked (close chunks current).
Proof.
  intros Hall Hcur. unfold close. destruct current as [|c r]; [done|].
  apply Forall_app. split; [done|]. constructor; [|constructor].
  by destruct Hcur.
Qed.

Lemma step_inked (chunk_size chunk_overlap : Z)
    (chunks : list str) (current p : str) :
  let next := step chunk_size chunk_overlap (chunks, current) p in
  inked (strip p) → Forall inked chunks → current = [] ∨ inked current →
  Forall inked next.1 ∧ (next.2 = [] ∨ inked next.2).
Proof.
  intros next Hp Hall Hcur. subst next.
  pose proof (close_inked _ _ Hall Hcur) as Hclose.
  unfold step. destruct (len (strip p) >? chunk_size).
  - split; [|by left]. cbn [fst]. apply Forall_app. split; [done|].
    apply split_long_text_inked.
  - destruct (_ >? _).
    + destruct (last (close chunks current)) as [prev|];
        [destruct (chunk_overlap >? 0)|]; (split; [done|right]); [|done..].
      cbn [snd]. apply Exists_app. right. apply Exists_app. by right.
    + destruct (truthy current); (split; [done|right]); [|done].
      cbn [snd]. apply Exists_app. right. apply Exists_app. by right.
Qed.

Lemma foldl_step_inked (chunk_size chunk_overlap : Z)
    (paragraphs chunks : list str) (current : str) :
  let final :=
    foldl (step chunk_size chunk_overlap) (chunks, current) paragraphs in
  Forall (λ p, inked (strip p)) paragraphs →
  Forall inked chunks → current = [] ∨ inked current →
  Forall inked (close final.1 final.2).
Proof.
  intros final Hps. subst final. revert chunks current.
  induction Hps as [|p l Hp _ IH]; intros chunks current H1 H2.
  - by apply close_inked.
  - cbn [foldl].
    destruct (step_inked chunk_size chunk_overlap chunks current p Hp H1 H2).
    destruct (step _ _ _ _) as [chunks' current']. by apply IH.
Qed.

(** X1: no chunk of [split_text] is empty or made of spaces only,
    whatever the text, the chunk size and the overlap. *)
Theorem split_text_no_blank_chunk (self : TextProcessor.t) (text : str)
    (chunk_size chunk_overlap : option Z) :
  Forall (λ chunk, strip chunk ≠ [])
    (split_text self text chunk_size chunk_overlap).
Proof.
  eapply Forall_impl; [|apply inked_strip].
  unfold split_text.
  destruct (truthy text); [|constructor]. cbn [negb].
  destruct (truthy (_split_by_paragraphs text)); [|constructor]. cbn [negb].
  set (cs := int_or chunk_size _). set (ov := int_or chunk_overlap _).
  pose proof (foldl_step_inked cs ov (_split_by_paragraphs text) [] []) as H.
  destruct (foldl _ _ _) as [chunks current]. apply H; [|constructor|by left].
  apply Forall_forall. intros p Hp.
  destruct (paragraph_stripped _ _ Hp) as [E Hne].
  rewrite E. by apply stripped_inked.
Qed.

End Inked.

Section Coverage.

Import TextProcessor.
Implicit Types (s w p : str) (c : N).

Lemma words_app_gap s rest :
  leads rest = false → words (s ++ rest) = words s ++ words rest.
Proof.
  destruct rest as [|d rest]; [by rewrite !app_nil_r|]. simpl.
  intros H. apply negb_false_iff in H.
  rewrite words_app_space by done. by rewrite H.
Qed.

Lemma split_go_cons m prev c r :
  Re.split_go m prev 0 (c :: r)
  = match m prev (c :: r) with
    | Some (S n) =>
        [] :: Re.split_go m (before (Some c) (take n r)) 0 (drop n r)
    | _ => cons_head c (Re.split_go m (Some c) 0 r)
    end.
Proof.
  cbn [Re.split_go]. destruct (m prev (c :: r)) as [[|n]|]; [done| |done].
  by rewrite split_go_skip.
Qed.

Lemma split_go_words m :
  gap m →
  ∀ s prev, ∃ h t rest,
    Re.split_go m prev 0 s = h :: t
    ∧ s = h ++ rest ∧ leads rest = false
    ∧ concat (words <$> t) = words rest.
Proof.
  intros Hgap s. induction s as [s IH] using str_length_ind. intros prev.
  destruct s as [|c r].
  - by exists [], [], [].
  - rewrite split_go_cons.
    destruct (m prev (c :: r)) as [[|n]|] eqn:E.
    + destruct (IH r ltac:(simpl; lia) (Some c)) as (h & t & rest & -> & -> & H1 & H2).
      by exists (c :: h), t, rest.
    + destruct (IH (drop n r) ltac:(simpl; rewrite length_drop; lia)
                  (before (Some c) (take n r)))
        as (h & t & rest & -> & Hs & H1 & H2).
      pose proof (Hgap _ _ _ E) as Hsp. cbn [take] in Hsp.
      exists [], (h :: t), (c :: r). split; [done|]. split; [done|].
      split.
      * inversion_clear Hsp as [|?? Hc _]. simpl. by rewrite Hc.
      * rewrite fmap_cons, concat_cons, H2, <-words_app_gap, <-Hs by done.
        transitivity (words (take (S n) (c :: r) ++ drop (S n) (c :: r)));
          [by rewrite words_spaces_app|by rewrite take_drop].
    + destruct (IH r ltac:(simpl; lia) (Some c)) as (h & t & rest & -> & -> & H1 & H2).
      by exists (c :: h), t, rest.
Qed.

Lemma words_split m s :
  gap m → concat (words <$> Re.split m s) = words s.
Proof.
  intros Hgap. unfold Re.split.
  destruct (split_go_words m Hgap s None) as (h & t & rest & -> & -> & H1 & H2).
  by rewrite fmap_cons, concat_cons, H2, words_app_gap.
Qed.

Lemma words_pieces (pieces : list str) :
  concat (words <$>
    omap (λ p, if truthy (strip p) then Some (strip p) else None) pieces)
  = concat (words <$> pieces).
Proof.
  induction pieces as [|p pieces IH]; [done|].
  cbn [omap list_omap]. rewrite fmap_cons, concat_cons, <-IH.
  rewrite <-(words_strip p).
  by destruct (strip p).
Qed.

Lemma gap_at_least k (q : N → bool) :
  (∀ c, q c = true → isspace c = true) → gap (Re.at_least k q).
Proof.
  intros Hq prev s n. unfold Re.at_least.
  destruct (_ && _); [|done]. intros [= <-].
  eapply Forall_impl; [apply run_take|]. done.
Qed.

Lemma gap_preceded_by q m : gap m → gap (Re.preceded_by q m).
Proof.
  intros Hgap prev s n. unfold Re.preceded_by.
  destruct prev as [c|]; [|done]. destruct (q c); [|done]. apply Hgap.
Qed.

Lemma words_paragraphs text :
  concat (words <$> _split_by_paragraphs text) = words text.
Proof.
  unfold _split_by_paragraphs. rewrite words_pieces. apply words_split.
  apply gap_at_least. intros c Hc. apply N.eqb_eq in Hc. by subst.
Qed.

Lemma words_sentences text :
  concat (words <$> _split_by_sentences text) = words text.
Proof.
  unfold _split_by_sentences. rewrite words_pieces. apply words_split.
  by apply gap_preceded_by, gap_at_least.
Qed.

(** *** The chunks of a long paragraph *)

Lemma join_snoc sep (l : list str) x :
  join sep (l ++ [x])
  = match l with [] => x | _ :: _ => join sep l ++ sep ++ x end.
Proof.
  induction l as [|y l IH]; [done|].
  destruct l as [|z l]; [done|].
  change ((y :: z :: l) ++ [x]) with (y :: z :: (l ++ [x])).
  rewrite !join_cons_cons.
  change (z :: l ++ [x]) with ((z :: l) ++ [x]). rewrite IH.
  by rewrite <-!app_assoc.
Qed.

Lemma join_app sep (l k : list str) :
  l ≠ [] → k ≠ [] → join sep (l ++ k) = join sep l ++ sep ++ join sep k.
Proof.
  intros Hl Hk. induction l as [|y l IH]; [done|].
  destruct l as [|z l].
  - destruct k; [done|]. apply join_cons_cons.
  - change ((y :: z :: l) ++ k) with (y :: z :: (l ++ k)).
    rewrite !join_cons_cons.
    change (z :: l ++ k) with ((z :: l) ++ k). rewrite IH by done.
    by rewrite <-!app_assoc.
Qed.

Lemma long_step_nonempty (chunk_size : Z) (chunks : list str) s :
  long_step chunk_size chunks s ≠ [].
Proof.
  unfold long_step. destruct (last chunks); [destruct (_ >? _)|];
    intros [_ ?]%app_eq_nil; done.
Qed.

Lemma join_cons_nonempty sep (x : str) (l : list str) :
  l ≠ [] → join sep (x :: l) = x ++ sep ++ join sep l.
Proof. by destruct l. Qed.

Lemma join_merge sep (l : list str) x z :
  join sep (l ++ [x ++ sep ++ z]) = join sep ((l ++ [x]) ++ [z]).
Proof.
  induction l as [|y l IH]; [done|]. cbn [app].
  rewrite !join_cons_nonempty by (by intros [_ ?]%app_eq_nil).
  by rewrite IH.
Qed.

Lemma long_step_join (chunk_size : Z) (chunks : list str) s :
  join [SP] (long_step chunk_size chunks s) = join [SP] (chunks ++ [strip s]).
Proof.
  unfold long_step. destruct (last chunks) as [x|] eqn:E; [|done].
  destruct (_ >? _); [done|].
  apply last_Some in E as [l ->]. rewrite removelast_last.
  apply (join_merge [SP]).
Qed.

Lemma foldl_long_step_join (chunk_size : Z) (sentences chunks : list str) :
  join [SP] (foldl (long_step chunk_size) chunks sentences)
  = join [SP] (chunks ++ (strip <$> sentences)).
Proof.
  revert chunks. induction sentences as [|s l IH]; intros chunks.
  - by rewrite app_nil_r.
  - cbn [foldl]. rewrite IH. rewrite fmap_cons.
    rewrite (cons_middle (strip s)), app_assoc.
    destruct (strip <$> l) as [|y k] eqn:E.
    + rewrite !app_nil_r. apply long_step_join.
    + rewrite (join_app [SP] (long_step chunk_size chunks s) (y :: k));
        [|apply long_step_nonempty|done].
      rewrite (join_app [SP] (chunks ++ [strip s]) (y :: k));
        [|by intros [_ ?]%app_eq_nil|done].
      by rewrite long_step_join.
Qed.

Lemma strip_sentences text :
  strip <$> _split_by_sentences text = _split_by_sentences text.
Proof.
  apply fmap_id_on, Forall_forall. intros s Hs.
  by destruct (sentence_stripped _ _ Hs).
Qed.

Lemma words_join_space d (l : list str) :
  isspace d = true → words (join [d] l) = concat (words <$> l).
Proof.
  intros Hd. induction l as [|x l IH]; [done|].
  destruct l as [|y l]; [simpl; by rewrite app_nil_r|].
  rewrite join_cons_cons. cbn [app]. rewrite words_app_space by done.
  by rewrite IH.
Qed.

Lemma words_split_long_text text (chunk_size : Z) :
  concat (words <$> _split_long_text text chunk_size) = words text.
Proof.
  rewrite <-(words_join_space SP) by done.
  unfold _split_long_text. rewrite foldl_long_step_join. cbn [app].
  rewrite strip_sentences, words_join_space by done.
  apply words_sentences.
Qed.

(** *** The chunks of a text *)

Lemma words_close (chunks : list str) current :
  concat (words <$> close chunks current)
  = concat (words <$> chunks) ++ words current.
Proof.
  unfold close. destruct current as [|c r]; simpl.
  - by rewrite app_nil_r.
  - rewrite fmap_app, concat_app. simpl. by rewrite app_nil_r.
Qed.

Lemma step_words (chunk_size chunk_overlap : Z)
    (chunks : list str) (current p : str) :
  let next := step chunk_size chunk_overlap (chunks, current) p in
  chunk_overlap ≤ 0 ∨ close chunks current = [] →
  concat (words <$> close next.1 next.2)
  = concat (words <$> close chunks current) ++ words p.
Proof.
  intros next Hov. subst next. rewrite <-(words_strip p).
  unfold step. destruct (len (strip p) >? chunk_size).
  - cbn [fst snd]. unfold close at 1. cbn [truthy].
    by rewrite fmap_app, concat_app, words_split_long_text.
  - destruct (_ >? _).
    + destruct (last (close chunks current)) as [prev|] eqn:E.
      * destruct (chunk_overlap >? 0) eqn:Hcmp.
        -- destruct Hov as [Hov|Hov]; [lia|]. by rewrite Hov in E.
        -- cbn [fst snd]. rewrite (words_close (close _ _)). done.
      * cbn [fst snd]. rewrite (words_close (close _ _)). done.
    + destruct (truthy current) eqn:Hcur; cbn [fst snd].
      * rewrite !words_close.
        change (current ++ [LF; LF] ++ strip p)
          with (current ++ LF :: ([LF] ++ strip p)).
        rewrite words_app_space by done.
        rewrite words_spaces_app by (by constructor).
        by rewrite <-app_assoc.
      * destruct current; [|done]. rewrite !words_close. simpl.
        by rewrite !app_nil_r.
Qed.

Lemma foldl_step_words (chunk_size chunk_overlap : Z)
    (paragraphs chunks : list str) (current : str) :
  let final :=
    foldl (step chunk_size chunk_overlap) (chunks, current) paragraphs in
  chunk_overlap ≤ 0 →
  concat (words <$> close final.1 final.2)
  = concat (words <$> close chunks current) ++ concat (words <$> paragraphs).
Proof.
  intros final Hov. subst final. revert chunks current.
  induction paragraphs as [|p l IH]; intros chunks current.
  - simpl. by rewrite app_nil_r.
  - cbn [foldl].
    pose proof (step_words chunk_size chunk_overlap chunks current p
                  (or_introl Hov)) as Hstep.
    destruct (step _ _ _ _) as [chunks' current']. cbn [fst snd] in Hstep.
    rewrite IH, Hstep, fmap_cons, concat_cons. by rewrite <-app_assoc.
Qed.

(** X3: when the overlap in force is not positive, the words of the
    chunks of [split_text], in order, are the words of the text. *)
Theorem split_text_words (self : TextProcessor.t) (text : str)
    (chunk_size chunk_overlap : option Z) :
  int_or chunk_overlap (TextProcessor.chunk_overlap self) ≤ 0 →
  concat (words <$> split_text self text chunk_size chunk_overlap)
  = words text.
Proof.
  intros Hov. unfold split_text.
  destruct text as [|c r]; [done|]. cbn [truthy negb].
  generalize (c :: r). clear c r. intros text.
  rewrite <-(words_paragraphs text).
  destruct (_split_by_paragraphs text) as [|p l] eqn:E; [done|].
  cbn [truthy negb]. rewrite <-E.
  pose proof (foldl_step_words
                (int_or chunk_size (TextProcessor.chunk_size self)) _
                (_split_by_paragraphs text) [] [] Hov) as H.
  destruct (foldl _ _ _) as [chunks current]. cbn [fst snd] in H.
  cbv beta iota. by rewrite H.
Qed.

(** *** The chunks of a normalized text *)

Lemma split_by_paragraphs_extract_text (page : Page) :
  _split_by_paragraphs (extract_text page)
  = if decide (extract_text page = []) then [] else [extract_text page].
Proof.
  destruct (extract_text_lines page) as (l & Hl & ->).
  unfold _split_by_paragraphs, Re.split.
  rewrite split_paragraphs_blank_line_free by by apply blank_line_free_join.
  cbn [omap list_omap]. rewrite strip_join_clean by done.
  by destruct (join [LF] l).
Qed.

Lemma strip_extract_text (page : Page) :
  strip (extract_text page) = extract_text page.
Proof.
  destruct (extract_text_lines page) as (l & Hl & ->).
  by apply strip_join_clean.
Qed.

(** X4: the text that [extract_text] returns is cut without overlap,
    whatever the overlap asked for: its chunks are the text itself when
    it fits the chunk size and the chunks of its sentences otherwise, and
    the words of the chunks are the words of the text. *)
Theorem split_text_extract_text (self : TextProcessor.t) (page : Page)
    (chunk_size chunk_overlap : option Z) :
  let text := extract_text page in
  let size := int_or chunk_size (TextProcessor.chunk_size self) in
  split_text self text chunk_size chunk_overlap
  = (if decide (text = []) then []
     else if len text >? size then _split_long_text text size
     else [text])
  ∧ concat (words <$> split_text self text chunk_size chunk_overlap)
    = words text.
Proof.
  intros text size.
  assert (split_text self text chunk_size chunk_overlap
          = if decide (text = []) then []
            else if len text >? size then _split_long_text text size
            else [text]) as E.
  { unfold split_text. fold size. subst text.
    rewrite split_by_paragraphs_extract_text.
    destruct (decide (extract_text page = [])) as [E0|Hne]; [by rewrite E0|].
    assert (truthy (extract_text page) = true) as Ht by by apply truthy_true.
    rewrite Ht. cbn [negb truthy foldl]. unfold step.
    rewrite strip_extract_text.
    destruct (len (extract_text page) >? size).
    - unfold close. by cbn [truthy app].
    - destruct (_ >? _); unfold close; cbn [truthy last app];
        by rewrite Ht. }
  split; [done|]. rewrite E.
  destruct (decide (text = [])) as [->|_]; [done|].
  destruct (len text >? size).
  - apply words_split_long_text.
  - simpl. by rewrite app_nil_r.
Qed.

End Coverage.

Lemma split_text_words_witness :
  int_or None
    (TextProcessor.chunk_overlap
       {| TextProcessor.chunk_size := 10; TextProcessor.chunk_overlap := 0 |})
  ≤ 0
  ∧ concat (words <$>
      TextProcessor.split_text
        {| TextProcessor.chunk_size := 10; TextProcessor.chunk_overlap := 0 |}
        Examples.two_paragraphs None None)
    = words Examples.two_paragraphs.
Proof.
  split; [simpl; lia|]. apply split_text_words. simpl. lia.
Defined.

(** ** Normalization: what the text of a page looks like *)

Section NormalizedText.

Import TextProcessor.
Implicit Types (s w : str) (c : N).

Lemma sub_go_cons m repl prev c r :
  Re.sub_go m repl prev 0 (c :: r)
  = match m prev (c :: r) with
    | Some (S n) =>
        repl ++ Re.sub_go m repl (before (Some c) (take n r)) 0 (drop n r)
    | _ => c :: Re.sub_go m repl (Some c) 0 r
    end.
Proof.
  cbn [Re.sub_go]. destruct (m prev (c :: r)) as [[|n]|]; [done| |done].
  by rewrite sub_go_skip.
Qed.

Lemma elem_of_sub_go m prev s x :
  x ∈ Re.sub_go m [] prev 0 s → x ∈ s.
Proof.
  revert prev. induction s as [s IH] using str_length_ind. intros prev.
  destruct s as [|c r]; [done|]. rewrite sub_go_cons.
  destruct (m prev (c :: r)) as [[|n]|].
  - intros [->|H]%elem_of_cons; [left|right].
    eapply IH; [|done]. simpl. lia.
  - cbn [app]. intros H. right. eapply subseteq_drop, IH; [|done].
    simpl. rewrite length_drop. lia.
  - intros [->|H]%elem_of_cons; [left|right].
    eapply IH; [|done]. simpl. lia.
Qed.

Lemma run_all_of p s : s !! Re.run p s = None → Forall (λ c, p c = true) s.
Proof.
  intros H. apply lookup_ge_None_1 in H. pose proof (run_le p s).
  rewrite <-(take_ge s (Re.run p s)) by lia. apply run_take.
Qed.

Lemma tag_free_strip_tags s prev :
  tag_free (Re.sub_go Re.tag [] prev 0 s) = true.
Proof.
  revert prev. induction s as [s IH] using str_length_ind. intros prev.
  destruct s as [|c r]; [done|]. rewrite sub_go_cons.
  assert (tag_free (c :: Re.sub_go Re.tag [] (Some c) 0 r) = true
          ∨ ∃ n, Re.tag prev (c :: r) = Some (S n)) as [H|[n H]].
  { assert (tag_free (Re.sub_go Re.tag [] (Some c) 0 r) = true) as Hr
      by (apply IH; simpl; lia).
    cbn [tag_free]. rewrite Hr, andb_true_r. cbn [Re.tag].
    destruct (c =? 60)%N eqn:Ec; [|by left].
    destruct (Re.run _ r) as [|k] eqn:En.
    - left. cbn [negb orb]. destruct r as [|d r]; [done|].
      simpl in En. destruct (d =? 62)%N eqn:Ed; [|done].
      rewrite sub_go_cons. cbn [Re.tag].
      apply N.eqb_eq in Ed. subst d. by cbn.
    - destruct (r !! S k) eqn:El.
      + right. exists (k + 2)%nat. done.
      + left. cbn [negb orb]. rewrite <-En in El.
        apply run_all_of in El.
        assert (has 62 (Re.sub_go Re.tag [] (Some c) 0 r) = false) as ->.
        { apply has_false. intros Hx%elem_of_sub_go.
          eapply Forall_forall in El; [|done]. done. }
        by rewrite orb_true_r. }
  - destruct (Re.tag prev (c :: r)) as [[|n]|]; [done| |done].
    cbn [app]. apply IH. simpl. rewrite length_drop. lia.
  - rewrite H. cbn [app]. apply IH. simpl. rewrite length_drop. lia.
Qed.

Lemma tag_free_words s s' : words s = words s' → tag_free s = tag_free s'.
Proof.
  intros E. rewrite <-(tag_free_spaced s), <-(tag_free_spaced s').
  unfold spaced. by rewrite E.
Qed.

(** X5: the text that [extract_text] returns has no tag span left: an
    opening bracket in it is followed at once by a closing bracket, or by
    none at all. *)
Theorem extract_text_tag_free (page : Page) :
  tag_free (extract_text page) = true.
Proof.
  destruct (raw_markup page) as [html|] eqn:E.
  - rewrite (extract_text_markup_clean _ _ E). cbn [Steps.normalize].
    rewrite (tag_free_words _ _ (words_clean _)).
    apply tag_free_strip_tags.
  - by rewrite extract_text_absent.
Qed.

Lemma tidy_no_tab s : tidy s → TAB ∉ s.
Proof.
  induction s as [|c r IH]; [intros _ H; by apply elem_of_nil in H|].
  intros (Hc & _ & Hr). apply not_elem_of_cons. split; [done|by apply IH].
Qed.

Lemma tidy_no_double_space s a b : tidy s → s ≠ a ++ [SP; SP] ++ b.
Proof.
  intros Htidy ->. induction a as [|c a IH].
  - destruct Htidy as (_ & H & _). specialize (H eq_refl). done.
  - apply IH. by destruct Htidy as (_ & _ & ?).
Qed.

(** X6: the text that [extract_text] returns is trimmed, and when it is
    not empty each of its lines is not empty, is trimmed, has no tab and
    no two spaces in a row. *)
Theorem extract_text_lines_trimmed (page : Page) :
  strip (extract_text page) = extract_text page
  ∧ (extract_text page = []
     ∨ Forall
         (λ line,
            line ≠ [] ∧ strip line = line ∧ (TAB ∉ line)
            ∧ ∀ a b, line ≠ a ++ [SP; SP] ++ b)
         (split LF (extract_text page))).
Proof.
  assert (∃ l, Forall clean_line l ∧ Forall tidy l
               ∧ extract_text page = join [LF] l) as (l & Hclean & Htidy & ->).
  { destruct (raw_markup page) as [html|] eqn:E.
    - rewrite (extract_text_markup_clean _ _ E).
      eexists. split; [apply content_lines_clean|].
      split; [apply content_lines_tidy|done].
    - rewrite extract_text_absent by done. exists []. by repeat split. }
  split; [by apply strip_join_clean|].
  destruct l as [|x l]; [by left|]. right.
  rewrite split_join; [|done|].
  - apply Forall_forall. intros line Hline.
    eapply Forall_forall in Hclean, Htidy; [|done..].
    destruct Hclean as (Hne & _ & Hs & He).
    split; [done|]. split; [by apply strip_clean|].
    split; [by apply tidy_no_tab|]. intros a b. by apply tidy_no_double_space.
  - eapply Forall_impl; [exact Hclean|]. by intros line (_ & ? & _).
Qed.

(** *** Previews *)

Lemma len_take_bound {A} (n : nat) (l : list A) : len (take n l) ≤ Z.of_nat n.
Proof. unfold len. rewrite length_take. lia. Qed.

(** X7: for a limit that is not negative, the preview is at most three
    characters longer than the limit; a text longer than the limit
    gives a trimmed head followed by three dots. *)
Theorem truncate_for_preview_length (text : str) (max_length : Z) :
  0 ≤ max_length →
  len (truncate_for_preview text max_length) ≤ max_length + 3
  ∧ (max_length < len text →
     ∃ head, truncate_for_preview text max_length = head ++ lit "..."
             ∧ strip head = head).
Proof.
  intros Hm. unfold truncate_for_preview.
  destruct (len text <=? max_length) eqn:E.
  - apply Z.leb_le in E. split; lia.
  - split.
    + rewrite len_app. change (len (lit "...")) with 3.
      unfold slice_to. rewrite (proj2 (Z.leb_le 0 max_length)) by done.
      pose proof (length_strip (take (Z.to_nat max_length) text)).
      pose proof (len_take_bound (Z.to_nat max_length) text).
      unfold len in *. lia.
    + intros _. eexists. split; [done|]. apply strip_strip.
Qed.

End NormalizedText.

Section CleanForEmbedding.

Import TextProcessor.
Implicit Types (s w : str) (c : N).

Variable word : N → bool.

Lemma sub_one_map (p : N → bool) x prev s :
  Re.sub_go (Re.one p) [x] prev 0 s = (λ c, if p c then x else c) <$> s.
Proof.
  revert prev. induction s as [|c r IH]; intros prev; [done|].
  cbn [Re.sub_go]. unfold Re.one at 1. rewrite fmap_cons.
  destruct (p c); cbn [app]; by rewrite IH.
Qed.

Lemma run_squeeze_none (p : N → bool) repl s :
  Re.run p s = O → Re.run p (squeeze 1 p repl s) = O.
Proof.
  destruct s as [|c r]; [done|]. intros H. rewrite squeeze_cons.
  destruct (decide _) as [[_ ?]|_]; [lia|].
  simpl in *. by destruct (p c).
Qed.

Lemma packed_squeeze s : packed (squeeze 1 isspace [SP] s).
Proof.
  induction s as [s IH] using str_length_ind.
  destruct s as [|c r]; [done|]. rewrite squeeze_cons.
  destruct (decide _) as [[_ Hrun]|Hrun].
  - cbn [app packed]. split.
    + intros _. split; [done|]. apply run_squeeze_none, run_drop.
    + apply IH. rewrite length_drop. simpl in *. lia.
  - split; [|apply IH; simpl; lia].
    intros Hc. simpl in Hrun. rewrite Hc in Hrun. lia.
Qed.

Lemma packed_lstrip s : packed s → packed (lstrip s).
Proof.
  induction s as [|c r IH]; [done|]. intros [Hc Hr]. cbn [lstrip].
  destruct (isspace c) eqn:E; [by apply IH|]. cbn [packed]. rewrite E. by split.
Qed.

Lemma packed_rstrip s : packed s → packed (rstrip s).
Proof.
  induction s as [|c r IH]; [done|]. intros [Hc Hr]. rewrite rstrip_cons.
  destruct (decide _) as [E|E].
  - destruct (isspace c) eqn:Ec; [done|]. cbn [packed]. rewrite Ec. by split.
  - split; [|by apply IH]. intros H. destruct (Hc H) as [-> Hrun].
    split; [done|]. by apply run_rstrip.
Qed.

Lemma ends_clean_tail c s : s ≠ [] → ends_clean (c :: s) → ends_clean s.
Proof. unfold ends_clean. destruct s; [done|]. by rewrite last_cons_cons. Qed.

Lemma packed_spaced s :
  packed s → starts_clean s → ends_clean s → spaced s = s.
Proof.
  induction s as [s IH] using str_length_ind.
  destruct s as [|c r]; [done|]. intros [_ Hr] Hc Hend. simpl in Hc.
  rewrite spaced_cons, Hc.
  destruct r as [|d r]; [done|].
  assert (ends_clean (d :: r)) as Hend' by by apply (ends_clean_tail c).
  destruct (leads (d :: r)) eqn:Hd.
  - f_equal. apply IH; [simpl; lia|done| |done].
    simpl in *. by apply negb_true_iff in Hd.
  - simpl in Hd. apply negb_false_iff in Hd.
    destruct Hr as [Hsp Hr]. destruct (Hsp Hd) as [-> Hrun].
    destruct r as [|e r]; [by vm_compute in Hend'|].
    assert (isspace e = false) as He.
    { simpl in Hrun. by destruct (isspace e). }
    assert (spaced (SP :: e :: r) = e :: r) as E.
    { rewrite spaced_cons. change (isspace SP) with true. cbn iota.
      apply IH; [simpl; lia|by destruct Hr|done|].
      by apply (ends_clean_tail SP). }
    rewrite E. rewrite words_cons. change (isspace SP) with true. cbn iota.
    destruct (words (e :: r)) eqn:Ew; [|done].
    exfalso. apply (leads_words (e :: r)); [|exact Ew]. simpl. by rewrite He.
Qed.

Lemma strip_squeeze_spaced s : strip (squeeze 1 isspace [SP] s) = spaced s.
Proof.
  rewrite <-(packed_spaced (strip (squeeze 1 isspace [SP] s))).
  - unfold spaced. rewrite words_strip.
    by rewrite (proj1 (words_squeeze 1 isspace [SP] s ltac:(done)
                         ltac:(done) ltac:(by constructor))).
  - apply packed_rstrip, packed_lstrip, packed_squeeze.
  - apply strip_starts_clean.
  - apply strip_ends_clean.
Qed.

Lemma spaced_spaced s : spaced (spaced s) = spaced s.
Proof.
  rewrite <-(strip_squeeze_spaced s). apply packed_spaced.
  - apply packed_rstrip, packed_lstrip, packed_squeeze.
  - apply strip_starts_clean.
  - apply strip_ends_clean.
Qed.

Lemma elem_of_squeeze k p repl s x :
  x ∈ squeeze k p repl s → x ∈ repl ∨ x ∈ s.
Proof.
  induction s as [s IH] using str_length_ind.
  destruct s as [|c r]; [rewrite squeeze_nil; by right|].
  rewrite squeeze_cons. destruct (decide _) as [[_ Hrun]|_].
  - intros [H|H]%elem_of_app; [by left|].
    apply IH in H as [H|H]; [by left| |rewrite length_drop; simpl in *; lia].
    right. eapply subseteq_drop, H.
  - intros [->|H]%elem_of_cons; [right; left|].
    apply IH in H as [H|H]; [by left|right; by right|simpl; lia].
Qed.

Lemma elem_of_spaced s x : x ∈ spaced s → x = SP ∨ x ∈ s.
Proof.
  rewrite <-strip_squeeze_spaced. intros H%elem_of_strip%elem_of_squeeze.
  destruct H as [H|H]; [left|by right]. by apply list_elem_of_singleton in H.
Qed.

Lemma kept_space : kept word SP = true.
Proof. unfold kept. change (isspace SP) with true. by rewrite orb_true_r. Qed.

(** X8: [clean_for_embedding] returns the words of the text in which
    every character outside the class is turned into a space, with one
    space between them; cleaning its result again changes nothing. *)
Theorem clean_for_embedding_words (text : str) :
  clean_for_embedding word text
  = join [SP] (words ((λ c, if kept word c then c else SP) <$> text))
  ∧ clean_for_embedding word (clean_for_embedding word text)
    = clean_for_embedding word text.
Proof.
  assert (∀ s, clean_for_embedding word s
               = spaced ((λ c, if kept word c then c else SP) <$> s)) as E.
  { intros s. unfold clean_for_embedding. change (lit " ") with [SP].
    etrans; [apply strip_squeeze_spaced|].
    unfold Re.sub. rewrite sub_one_map. f_equal. apply list_fmap_ext. intros _ c _. by destruct (kept word c). }
  split; [apply E|]. rewrite !E.
  set (u := _ <$> text).
  rewrite (fmap_id_on _ (spaced u)); [apply spaced_spaced|].
  apply Forall_forall. intros c [->|Hc]%elem_of_spaced.
  - by rewrite kept_space.
  - subst u. apply list_elem_of_fmap in Hc as (d & -> & _).
    destruct (kept word d) eqn:Hd; [by rewrite Hd|by rewrite kept_space].
Qed.

End CleanForEmbedding.

Lemma truncate_for_preview_length_witness :
  0 ≤ 5
  ∧ len (TextProcessor.truncate_for_preview (lit "hello world") 5) ≤ 5 + 3
  ∧ (5 < len (lit "hello world") →
     ∃ head, TextProcessor.truncate_for_preview (lit "hello world") 5
             = head ++ lit "..."
             ∧ strip head = head).
Proof.
  split; [lia|]. apply truncate_for_preview_length. lia.
Defined.

(** ** Merging, batching and requests *)

Section MergeBound.

Import Server.
Context {Score : Type} (score_0 score_1 : Score).

Lemma first_occurrences_length {A} (key : A → str) (l : list A) :
  (length (Spec.first_occurrences key l) ≤ length l)%nat.
Proof.
  induction l as [|x l IH]; [done|]. rewrite first_occurrences_cons.
  cbn [length].
  pose proof (length_filter (λ y, key y ≠ key x) (Spec.first_occurrences key l)).
  lia.
Qed.

Lemma len_slice_to {A} (k : Z) (l : list A) : 0 ≤ k → len (slice_to k l) ≤ k.
Proof.
  intros Hk. unfold slice_to, len. rewrite (proj2 (Z.leb_le 0 k)) by done.
  rewrite length_take. lia.
Qed.

Lemma merge_results_parts (documents : list Document)
    (vector_results : @VectorResults Score) (top_k : Z) :
  let vector_part :=
    Spec.first_occurrences match_page_id
      (filter (λ m, match_page_id m ≠ [])
         (slice_to top_k (default [] (matches vector_results)))) in
  _merge_results score_0 score_1 documents vector_results top_k
  = if decide (vector_part = [])
    then document_entry score_1 <$>
           Spec.first_occurrences id (slice_to top_k documents)
    else vector_entry score_0 <$> vector_part.
Proof.
  intros V. unfold _merge_results. rewrite vector_loop.
  rewrite (list_filter_iff (fresh_match ∅) (λ m, match_page_id m ≠ []))
    by (unfold fresh_match; set_solver).
  fold V. destruct V as [|v V'].
  - rewrite decide_True by done. cbn [fmap list_fmap app truthy negb].
    rewrite document_loop. cbn [app]. f_equal. f_equal.
    apply filter_all. set_solver.
  - rewrite decide_False by done. reflexivity.
Qed.

Lemma merge_results_length (documents : list Document)
    (vector_results : @VectorResults Score) (top_k : Z) :
  0 ≤ top_k →
  len (_merge_results score_0 score_1 documents vector_results top_k) ≤ top_k.
Proof.
  intros Hk. rewrite merge_results_parts. cbv zeta.
  set (l := slice_to top_k (default [] (matches vector_results))).
  pose proof (len_slice_to top_k (default [] (matches vector_results)) Hk)
    as Hl. fold l in Hl.
  pose proof (len_slice_to top_k documents Hk) as Hd.
  destruct (decide _) as [_|_]; unfold len in *; rewrite length_fmap.
  - pose proof (first_occurrences_length id (slice_to top_k documents)). lia.
  - pose proof (first_occurrences_length match_page_id
                  (filter (λ m, match_page_id m ≠ []) l)).
    pose proof (length_filter (λ m, match_page_id m ≠ []) l). lia.
Qed.

(** X9: for a [top_k] that is not negative, [_merge_results] returns at
    most [top_k] results, and each of them is built from one of the
    first [top_k] matches or from one of the first [top_k] documents. *)
Theorem merge_results_at_most_top_k (documents : list Document)
    (vector_results : @VectorResults Score) (top_k : Z) :
  0 ≤ top_k →
  len (_merge_results score_0 score_1 documents vector_results top_k) ≤ top_k
  ∧ Forall
      (λ r,
         (∃ m, m ∈ slice_to top_k (default [] (matches vector_results))
               ∧ r = vector_entry score_0 m)
         ∨ (∃ d, d ∈ slice_to top_k documents ∧ r = document_entry score_1 d))
      (_merge_results score_0 score_1 documents vector_results top_k).
Proof.
  intros Hk. split; [by apply merge_results_length|].
  rewrite merge_results_parts. cbv zeta.
  destruct (decide _) as [_|_]; apply Forall_fmap, Forall_forall.
  - intros d Hin. right. exists d.
    split; [|done]. by apply first_occurrences_elem_of in Hin.
  - intros m Hm. left. exists m. split; [|done].
    apply first_occurrences_elem_of in Hm.
    by apply list_elem_of_filter in Hm as [_ ?].
Qed.

End MergeBound.

Section Batches.

Import VectorStoreClient.
Context {Embedding : Type}.
Variable create : list str → result (list Embedding).

Lemma range_from_cons (fuel i stop step : nat) :
  (i < stop)%nat →
  range_from (S fuel) i stop step = i :: range_from fuel (i + step) stop step.
Proof. intros H. cbn [range_from]. by rewrite (proj2 (Nat.ltb_lt _ _)). Qed.

Lemma range_from_done (fuel i stop step : nat) :
  (stop ≤ i)%nat → range_from fuel i stop step = [].
Proof.
  intros H. destruct fuel; [done|]. cbn [range_from].
  by rewrite (proj2 (Nat.ltb_ge _ _)).
Qed.

(** What the loop does from the start [i], with enough fuel: the batches
    sent are pieces of at most [batch_size] texts that follow one another
    from [i] on; when nothing fails they reach the end of the texts, and
    the embeddings are those returned for them, in order. *)
Lemma embed_batches_from (texts : list str) (fuel i : nat)
    (embeddings : list Embedding) :
  (length texts ≤ i + fuel)%nat →
  let out :=
    embed_batches create (range_from fuel i (length texts) batch_size) texts
      embeddings in
  Forall (λ batch, (0 < length batch ≤ batch_size)%nat) out.1
  ∧ (∃ rest, drop i texts = concat out.1 ++ rest
       ∧ ∀ result, out.2 = Return result →
           rest = []
           ∧ ∃ data, Forall2 (λ batch d, create batch = Return d) out.1 data
                     ∧ result = embeddings ++ concat data).
Proof.
  revert i embeddings. induction fuel as [|fuel IH]; intros i embeddings Hfuel.
  - cbn. split; [constructor|]. exists (drop i texts). split; [done|].
    intros result [= <-]. split; [apply drop_ge; lia|].
    exists []. split; [constructor|by rewrite app_nil_r].
  - destruct (decide (i < length texts)%nat) as [Hi|Hi].
    + rewrite range_from_cons by done. cbn [embed_batches].
      set (batch := take batch_size (drop i texts)).
      assert (0 < length batch ≤ batch_size)%nat as Hbatch.
      { unfold batch. rewrite length_take, length_drop. unfold batch_size. lia. }
      assert (drop i texts = batch ++ drop (i + batch_size) texts) as Hsplit.
      { unfold batch. by rewrite <-drop_drop, take_drop. }
      destruct (create batch) as [data|e] eqn:Ecreate.
      * specialize (IH (i + batch_size)%nat (embeddings ++ data)
                      ltac:(unfold batch_size; lia)).
        destruct (embed_batches _ _ _ _) as [sent r]. cbn [fst snd] in *.
        destruct IH as (Hall & rest & Hrest & Hres).
        split; [by constructor|]. exists rest. split.
        { rewrite Hsplit, Hrest. cbn [concat]. by rewrite <-app_assoc. }
        intros result Hr. destruct (Hres result Hr) as (-> & ds & Hds & ->).
        split; [done|]. exists (data :: ds). split; [by constructor|].
        cbn [concat]. by rewrite <-app_assoc.
      * cbn [fst snd]. split; [constructor; [done|constructor]|].
        exists (drop (i + batch_size) texts). split.
        { rewrite Hsplit. cbn [concat]. by rewrite app_nil_r. }
        intros result [=].
    + rewrite range_from_done by lia. cbn.
      split; [constructor|]. exists (drop i texts). split; [done|].
      intros result [= <-]. split; [apply drop_ge; lia|].
      exists []. split; [constructor|by rewrite app_nil_r].
Qed.

(** X10: every batch that [batch_embed] sends holds between 1 and 100
    texts, and the batches sent are, in order, a prefix of the texts;
    when an embedding list is returned, every text was sent once, and the
    list is what the provider returned for the batches, in order. *)
Theorem batch_embed_batches (texts : list str) :
  let sent := (batch_embed create texts).1 in
  Forall (λ batch, (0 < length batch ≤ 100)%nat) sent
  ∧ concat sent `prefix_of` texts
  ∧ ∀ embeddings, (batch_embed create texts).2 = Return embeddings →
      concat sent = texts
      ∧ ∃ data, Forall2 (λ batch d, create batch = Return d) sent data
                ∧ embeddings = concat data.
Proof.
  unfold batch_embed. destruct texts as [|t texts].
  - cbn. split; [constructor|]. split; [done|]. intros ? [= <-].
    split; [done|]. exists []. by split; [constructor|].
  - cbn [truthy negb]. unfold range.
    destruct (embed_batches_from (t :: texts) (length (t :: texts)) 0 []
                ltac:(lia)) as (Hall & rest & Hrest & Hres).
    cbv zeta. split; [done|]. rewrite drop_0 in Hrest.
    split; [by exists rest|].
    intros embeddings Hr. destruct (Hres _ Hr) as (-> & data & Hdata & ->).
    rewrite app_nil_r in Hrest. split; [done|]. by exists data.
Qed.

(** X11: with a provider that embeds the texts of a batch one by one,
    in order, [batch_embed] returns the embeddings of the texts in
    order, whatever their number. *)
Theorem batch_embed_pointwise (f : str → Embedding) (texts : list str) :
  (∀ batch, create batch = Return (f <$> batch)) →
  (batch_embed create texts).2 = Return (f <$> texts).
Proof.
  intros Hcreate. unfold batch_embed. destruct texts as [|t texts]; [done|].
  cbn [truthy negb]. unfold range.
  destruct (embed_batches_from (t :: texts) (length (t :: texts)) 0 []
              ltac:(lia)) as (_ & rest & Hrest & Hres).
  rewrite drop_0 in Hrest.
  assert (∀ (sent : list (list str)) data,
            Forall2 (λ batch d, create batch = Return d) sent data →
            concat data = f <$> concat sent) as Hdata.
  { induction 1 as [|b d bs ds Hb _ IH]; [done|].
    rewrite Hcreate in Hb. injection Hb as <-.
    cbn [concat]. by rewrite fmap_app, IH. }
  assert (∀ (starts : list nat) acc,
            ∃ r, (embed_batches create starts (t :: texts) acc).2 = Return r)
    as Hreturns.
  { induction starts as [|i starts IH]; intros acc; [by eexists|].
    cbn [embed_batches]. rewrite Hcreate.
    destruct (IH (acc ++ (f <$> take batch_size (drop i (t :: texts)))))
      as [r Hr].
    set (p := embed_batches create starts (t :: texts) _) in *.
    destruct p as [sent r']. exists r. exact Hr. }
  destruct (Hreturns (range_from (length (t :: texts)) 0 (length (t :: texts))
                        batch_size) []) as [r Hr].
  destruct (Hres r Hr) as (-> & data & Hall & ->).
  rewrite app_nil_r in Hrest.
  rewrite Hr. cbn [app]. rewrite (Hdata _ _ Hall). by rewrite <-Hrest.
Qed.

End Batches.

Section Addresses.

Import ConfluenceClient.
Implicit Types (s : str) (c : N).

Lemma rstrip_char_cons ch c s :
  rstrip_char ch (c :: s)
  = if decide (rstrip_char ch s = []) then (if (c =? ch)%N then [] else [c])
    else c :: rstrip_char ch s.
Proof. cbn [rstrip_char]. by destruct (rstrip_char ch s). Qed.

Lemma rstrip_char_replicate ch (k : nat) : rstrip_char ch (replicate k ch) = [].
Proof.
  induction k as [|k IH]; [done|]. cbn [replicate].
  rewrite rstrip_char_cons, IH, decide_True by done. by rewrite N.eqb_refl.
Qed.

Lemma rstrip_char_app ch s (k : nat) :
  rstrip_char ch (s ++ replicate k ch) = rstrip_char ch s.
Proof.
  induction s as [|c s IH]; [apply rstrip_char_replicate|].
  cbn [app]. by rewrite !rstrip_char_cons, IH.
Qed.

Lemma rstrip_char_last ch s : last (rstrip_char ch s) ≠ Some ch.
Proof.
  induction s as [|c s IH]; [done|]. rewrite rstrip_char_cons.
  destruct (decide _) as [E|E].
  - destruct (c =? ch)%N eqn:Ec; [done|]. simpl.
    intros [= ->]. by rewrite N.eqb_refl in Ec.
  - destruct (rstrip_char ch s) as [|d r]; [done|]. by rewrite last_cons_cons.
Qed.

(** X12: slashes at the end of the address given to the client make no
    difference: the address kept never ends with a slash, and every
    request is the same as without them. *)
Theorem request_url_trailing_slashes {Upstream : Type}
    (transport : Upstream → string → str → option Params →
                 result Response * Upstream)
    (address email api_token : str) (k : nat) :
  last (url (init address email api_token)) ≠ Some 47%N
  ∧ init (address ++ replicate k 47%N) email api_token
    = init address email api_token
  ∧ ∀ u method endpoint params,
      _make_request transport
        (init (address ++ replicate k 47%N) email api_token)
        u method endpoint params
      = _make_request transport (init address email api_token)
          u method endpoint params.
Proof.
  assert (init (address ++ replicate k 47%N) email api_token
          = init address email api_token) as E
    by (unfold init; by rewrite rstrip_char_app).
  split; [apply rstrip_char_last|]. split; [done|].
  intros. by rewrite E.
Qed.

(** X13: [search_pages] puts the query between quotes as it is: a query
    that holds a quote adds conditions of its own, and gives here the
    very search that the space filter gives. *)
Theorem search_cql_not_escaped (query space : str) :
  space ≠ [] →
  search_cql (query ++ [34%N] ++ lit " AND space = " ++ [34%N] ++ space) None
  = search_cql query (Some space).
Proof.
  intros Hne. destruct space as [|c r]; [done|].
  unfold search_cql. by rewrite <-!app_assoc.
Qed.

End Addresses.

Lemma merge_results_at_most_top_k_witness :
  0 ≤ 5
  ∧ len (Server._merge_results 0 1
           [ {| Server.id := lit "7"; Server.title := lit "T";
                Server.content := lit "c"; Server.space := lit "S";
                Server.url := [] |} ]
           {| Server.matches := None |} 5) ≤ 5
  ∧ Forall
      (λ r,
         (∃ m, m ∈ slice_to 5 (default [] (Server.matches
                                             {| Server.matches := None |}))
               ∧ r = Server.vector_entry 0 m)
         ∨ (∃ d, d ∈ slice_to 5
                       [ {| Server.id := lit "7"; Server.title := lit "T";
                            Server.content := lit "c"; Server.space := lit "S";
                            Server.url := [] |} ]
                 ∧ r = Server.document_entry 1 d))
      (Server._merge_results 0 1
         [ {| Server.id := lit "7"; Server.title := lit "T";
              Server.content := lit "c"; Server.space := lit "S";
              Server.url := [] |} ]
         {| Server.matches := None |} 5).
Proof.
  split; [lia|]. apply merge_results_at_most_top_k. lia.
Defined.

Lemma batch_embed_pointwise_witness :
  (∀ batch : list str, Return (length <$> batch) = Return (length <$> batch))
  ∧ (VectorStoreClient.batch_embed (λ batch, Return (length <$> batch))
       [lit "a"; lit "bc"; lit "def"]).2
    = Return (length <$> [lit "a"; lit "bc"; lit "def"]).
Proof.
  split; [done|]. by apply (batch_embed_pointwise _ length).
Defined.

Lemma search_cql_not_escaped_witness :
  lit "DOC" ≠ []
  ∧ ConfluenceClient.search_cql
      (lit "guide" ++ [34%N] ++ lit " AND space = " ++ [34%N] ++ lit "DOC")
      None
    = ConfluenceClient.search_cql (lit "guide") (Some (lit "DOC")).
Proof.
  split; [done|]. by apply search_cql_not_escaped.
Defined.

(** ** Searching and synchronizing *)

Section Knowledge.

Import Server.
Context {Embedding Score Upstream : Type} (score_0 score_1 : Score).
Variable text_processor : TextProcessor.t.
Variable confluence_client : ConfluenceClient.t.
Variable transport :
  Upstream → string → str → option ConfluenceClient.Params →
  result ConfluenceClient.Response * Upstream.
Variable generate_embedding : str → result Embedding.
Variable vector_search : str → Z → result (@VectorResults Score).

Let search :=
  _search_knowledge score_0 score_1 text_processor confluence_client
    transport generate_embedding vector_search.
Let sync :=
  _sync_knowledge_source text_processor confluence_client transport
    generate_embedding.
Let listing (space : str) :=
  ConfluenceClient.space_pages_request transport confluence_client space.




(** X15: a page whose request fails is not left out: the loops take the
    error answer of the client for the page, and add a document with the
    title "Untitled", an empty content, no address, and the default
    space. *)
Theorem fetch_failed_page (documents : list Document) (u u' : Upstream)
    (page_id unknown : str) (e : exn) :
  transport u "GET"
    (ConfluenceClient.url confluence_client ++ lit "/wiki/rest/api"
     ++ lit "/content/" ++ page_id
     ++ lit "?expand=body.storage,version,space") None
  = (Raise e, u') →
  fetch confluence_client transport page_id unknown (documents, u)
  = (documents ++ [ {| id := page_id; title := lit "Untitled"; content := [];
                       space := unknown; url := [] |} ], u')
  ∧ (page_id ≠ [] →
     ∀ item, ConfluenceClient.content_id item = Some page_id →
       search_step confluence_client transport (documents, u) item
       = (documents ++ [ {| id := page_id; title := lit "Untitled";
                            content := []; space := lit "unknown";
                            url := [] |} ], u')).
Proof.
  intros Hfail.
  assert (∀ unknown,
            fetch confluence_client transport page_id unknown (documents, u)
            = (documents ++ [ {| id := page_id; title := lit "Untitled";
                                 content := []; space := unknown;
                                 url := [] |} ], u')) as Hfetch.
  { intros unknown'. unfold fetch, ConfluenceClient.get_page_content,
      ConfluenceClient.get_page_by_id, ConfluenceClient._make_request.
    by rewrite Hfail. }
  split; [apply Hfetch|]. intros Hne item Hitem.
  unfold search_step. rewrite Hitem. destruct page_id; [done|]. apply Hfetch.
Qed.

(** *** Synchronizing *)




End Knowledge.

(** A page whose body is [null] is left out: [extract_text] raises inside
    the [try] of the loop. *)
Example fetch_null_body :
  Server.fetch example_client service_null_body (lit "42") (lit "DOC")
    ([], ())
  = ([], ()).
Proof. reflexivity. Qed.

Lemma fetch_failed_page_witness :
  service_down () "GET"
    (ConfluenceClient.url example_client ++ lit "/wiki/rest/api"
     ++ lit "/content/" ++ lit "42"
     ++ lit "?expand=body.storage,version,space") None
  = (Raise (OtherError "connection refused"), ())
  ∧ Server.fetch example_client service_down (lit "42") (lit "DOC") ([], ())
    = ([] ++ [ {| Server.id := lit "42"; Server.title := lit "Untitled";
                  Server.content := []; Server.space := lit "DOC";
                  Server.url := [] |} ], ())
  ∧ (lit "42" ≠ [] →
     ∀ item, ConfluenceClient.content_id item = Some (lit "42") →
       Server.search_step example_client service_down ([], ()) item
       = ([] ++ [ {| Server.id := lit "42"; Server.title := lit "Untitled";
                     Server.content := []; Server.space := lit "unknown";
                     Server.url := [] |} ], ())).
Proof.
  split; [reflexivity|].
  apply (fetch_failed_page example_client service_down [] () () (lit "42")
           (lit "DOC") (OtherError "connection refused")).
  reflexivity.
Defined.


(** ** Listings that fail, paragraphs and sentences *)

Section PagingFailure.

Import ConfluenceClient.
Context {Upstream : Type}.
Variable transport :
  Upstream → string → str → option Params → result Response * Upstream.
Variable self : t.
Variable space : str.

Let request := space_pages_request transport self space.

(** X17: a request of [get_space_pages] that fails ends the listing as a
    page without results does: the pages of the full requests before it
    are returned, and the failure leaves no trace in the result. *)
Theorem get_space_pages_failed_request (k : nat) (u u' : Upstream) (e : exn) :
  (∀ j, (j < k)%nat → ¬ short request u j) →
  transport (state_before request u k) "GET"
    (url self ++ lit "/wiki/rest/api" ++ lit "/space/" ++ space
     ++ lit "/content/page?start=" ++ lit (pretty (Z.of_nat k * limit))
     ++ lit "&limit=" ++ lit (pretty limit)) None
  = (Raise e, u') →
  ∀ fuel, (k < fuel)%nat →
    get_space_pages request fuel u
    = Some (concat (page request u <$> seq 0 k), u').
Proof.
  intros Hfull Hfail fuel Hfuel.
  assert (request (state_before request u k) (Z.of_nat k * limit) limit
          = ([], u')) as Hrequest.
  { unfold request at 1, space_pages_request, _make_request.
    by rewrite Hfail. }
  rewrite request_page in Hrequest. injection Hrequest as Hpage Hstate.
  unfold get_space_pages.
  change (get_space_pages_loop request fuel u 0 [])
    with (get_space_pages_loop request fuel (state_before request u 0)
            (Z.of_nat 0 * limit) []).
  rewrite (loop_from request u k 0 fuel []).
  - rewrite decide_False by lia. cbn [app].
    rewrite seq_S, fmap_app, concat_app. cbn [fmap list_fmap concat Nat.add].
    rewrite Hpage. cbn [app]. rewrite app_nil_r. f_equal. f_equal.
    exact Hstate.
  - intros j Hj. apply Hfull. lia.
  - unfold short. cbn [Nat.add]. rewrite Hpage. done.
Qed.

End PagingFailure.

Section Atoms.

Import TextProcessor.
Implicit Types (s w p : str) (c : N).

(** *** Paragraphs *)

Lemma blank_line_free_tail c s : blank_line_free (c :: s) → blank_line_free s.
Proof. destruct s; [done|]. by intros [_ ?]. Qed.

Lemma blank_line_free_lstrip s : blank_line_free s → blank_line_free (lstrip s).
Proof.
  induction s as [|c r IH]; [done|]. intros H. cbn [lstrip].
  destruct (isspace c); [|done]. by eapply IH, blank_line_free_tail.
Qed.

Lemma blank_line_free_rstrip s : blank_line_free s → blank_line_free (rstrip s).
Proof.
  induction s as [|c r IH]; [done|]. intros H. rewrite rstrip_cons.
  destruct (decide _) as [E|E]; [by destruct (isspace c)|].
  specialize (IH (blank_line_free_tail _ _ H)).
  pose proof (rstrip_head r E) as Hhead.
  destruct (rstrip r) as [|d r'] eqn:Er; [done|].
  split; [|done]. destruct r as [|d' r'']; [done|].
  injection Hhead as ->. by destruct H.
Qed.

Lemma split_paragraphs_pieces s prev :
  ∃ h t,
    Re.split_go (Re.at_least 2 newline) prev 0 s = h :: t
    ∧ (h = [] ∨ head h = head s)
    ∧ blank_line_free h ∧ Forall blank_line_free t.
Proof.
  revert prev. induction s as [s IH] using str_length_ind. intros prev.
  destruct s as [|c r]; [by exists [], []; repeat split; [left|..]|].
  rewrite split_go_cons.
  assert (∀ prev', ∃ h t,
            cons_head c (Re.split_go (Re.at_least 2 newline) prev' 0 r) = h :: t
            ∧ (h = [] ∨ head h = head (c :: r))
            ∧ ((Re.run newline (c :: r) < 2)%nat → blank_line_free h)
            ∧ Forall blank_line_free t) as Hkeep.
  { intros prev'.
    destruct (IH r ltac:(simpl; lia) prev') as (h & t & -> & Hh & Hfree & Ht).
    exists (c :: h), t. split; [done|]. split; [by right|]. split; [|done].
    intros Hrun. destruct h as [|d h]; [done|]. split; [|done].
    intros [-> ->]. destruct Hh as [?|Hh]; [done|].
    destruct r as [|d' r]; [done|]. injection Hh as <-.
    simpl in Hrun. lia. }
  unfold Re.at_least at 1.
  destruct (_ && _) eqn:E.
  - destruct (Re.run newline (c :: r)) as [|n] eqn:En.
    { apply andb_true_iff in E as [_ E]. done. }
    destruct (IH (drop n r) ltac:(simpl; rewrite length_drop; lia)
                (before (Some c) (take n r)))
      as (h & t & -> & _ & Hfree & Ht).
    exists [], (h :: t). split; [done|]. split; [by left|]. split; [done|].
    by constructor.
  - destruct (Hkeep (Some c)) as (h & t & -> & Hh & Hfree & Ht).
    exists h, t. split; [done|]. split; [done|]. split; [|done].
    apply Hfree. apply andb_false_iff in E as [E|E].
    + apply Nat.leb_gt in E. lia.
    + apply Nat.ltb_ge in E. lia.
Qed.

(** X18: a paragraph of [_split_by_paragraphs] has no two newlines in a
    row, and splitting it again gives the paragraph itself. *)
Theorem split_by_paragraphs_atomic (text : str) :
  Forall
    (λ p, (∀ a b, p ≠ a ++ [LF; LF] ++ b) ∧ _split_by_paragraphs p = [p])
    (_split_by_paragraphs text).
Proof.
  apply Forall_forall. intros p Hp.
  destruct (paragraph_stripped _ _ Hp) as [Hstrip Hne].
  assert (blank_line_free p) as Hfree.
  { unfold _split_by_paragraphs in Hp.
    apply list_elem_of_omap in Hp as (piece & Hpiece & Hsome).
    destruct (truthy (strip piece)); [|done]. injection Hsome as <-.
    apply blank_line_free_rstrip, blank_line_free_lstrip.
    unfold Re.split in Hpiece.
    destruct (split_paragraphs_pieces text None) as (h & t & E & _ & Hh & Ht).
    rewrite E in Hpiece. apply elem_of_cons in Hpiece as [->|Hin]; [done|].
    by eapply Forall_forall in Ht. }
  split; [intros a b; by apply blank_line_free_spec|].
  unfold _split_by_paragraphs, Re.split.
  rewrite split_paragraphs_blank_line_free by done.
  cbn [omap list_omap]. rewrite Hstrip. by destruct p.
Qed.

(** *** Sentences *)

Lemma seamless_weaken prev s : seamless prev s → seamless None s.
Proof. destruct s as [|c r]; [done|]. intros [_ ?]. split; [|done]. by intros []. Qed.

Lemma seamless_lstrip s : seamless None s → seamless None (lstrip s).
Proof.
  induction s as [|c r IH]; [done|]. intros [Hc Hr]. cbn [lstrip].
  destruct (isspace c); [by eapply IH, seamless_weaken|].
  split; [by intros [[] _]|done].
Qed.

Lemma seamless_rstrip prev s : seamless prev s → seamless prev (rstrip s).
Proof.
  revert prev. induction s as [|c r IH]; intros prev; [done|].
  intros [Hc Hr]. rewrite rstrip_cons. destruct (decide _) as [E|E].
  - destruct (isspace c) eqn:Ec; [done|]. split; [|done].
    intros [_ H]. congruence.
  - split; [done|]. by apply IH.
Qed.

Lemma seamless_strip s : seamless None s → seamless None (strip s).
Proof. intros H. by apply seamless_rstrip, seamless_lstrip. Qed.

Lemma sentence_gap_none prev c r :
  ¬ (terminated prev ∧ isspace c = true) → sentence_gap prev (c :: r) = None.
Proof.
  intros H. unfold sentence_gap, Re.preceded_by.
  destruct prev as [p|]; [|done]. destruct (terminator p) eqn:Ep; [|done].
  unfold Re.at_least. cbn [Re.run].
  destruct (isspace c) eqn:Ec; [|done]. destruct H. by split.
Qed.

Lemma sentence_gap_some prev c r n :
  sentence_gap prev (c :: r) = Some n →
  terminated prev ∧ isspace c = true ∧ (0 < n)%nat.
Proof.
  unfold sentence_gap, Re.preceded_by.
  destruct prev as [p|]; [|done]. destruct (terminator p) eqn:Ep; [|done].
  unfold Re.at_least. cbn [Re.run].
  destruct (isspace c) eqn:Ec; [|done]. cbn. intros [= <-].
  repeat split; [done|lia].
Qed.

Lemma split_seamless prev s :
  seamless prev s → Re.split_go sentence_gap prev 0 s = [s].
Proof.
  revert prev. induction s as [|c r IH]; intros prev; [done|].
  intros [Hc Hr]. cbn [Re.split_go]. rewrite sentence_gap_none by done.
  by rewrite IH.
Qed.

Lemma split_sentences_pieces s prev :
  ∃ h t,
    Re.split_go sentence_gap prev 0 s = h :: t
    ∧ seamless prev h ∧ Forall (seamless None) t.
Proof.
  revert prev. induction s as [s IH] using str_length_ind. intros prev.
  destruct s as [|c r]; [by exists [], []|].
  rewrite split_go_cons.
  destruct (sentence_gap prev (c :: r)) as [[|n]|] eqn:E.
  - by apply sentence_gap_some in E as (_ & _ & ?); lia.
  - destruct (IH (drop n r) ltac:(simpl; rewrite length_drop; lia)
                (before (Some c) (take n r))) as (h & t & -> & Hh & Ht).
    exists [], (h :: t). split; [done|]. split; [done|].
    constructor; [by eapply seamless_weaken|done].
  - destruct (IH r ltac:(simpl; lia) (Some c)) as (h & t & -> & Hh & Ht).
    exists (c :: h), t. split; [done|]. split; [|done]. split; [|done].
    intros [Hp Hc]. unfold sentence_gap, Re.preceded_by in E.
    destruct prev as [p|]; [|done]. cbn in Hp. rewrite Hp in E.
    unfold Re.at_least in E. cbn [Re.run] in E. by rewrite Hc in E.
Qed.

(** X19: a sentence of [_split_by_sentences] has no space after a full
    stop, an exclamation mark or a question mark, and splitting it again
    gives the sentence itself. *)
Theorem split_by_sentences_atomic (text : str) :
  Forall (λ s, seamless None s ∧ _split_by_sentences s = [s])
    (_split_by_sentences text).
Proof.
  apply Forall_forall. intros s Hs.
  destruct (sentence_stripped _ _ Hs) as [Hstrip Hne].
  assert (seamless None s) as Hfree.
  { unfold _split_by_sentences in Hs.
    apply list_elem_of_omap in Hs as (piece & Hpiece & Hsome).
    destruct (truthy (strip piece)); [|done]. injection Hsome as <-.
    apply seamless_strip. unfold Re.split in Hpiece.
    destruct (split_sentences_pieces text None) as (h & t & E & Hh & Ht).
    fold sentence_gap in Hpiece.
    rewrite E in Hpiece. apply elem_of_cons in Hpiece as [->|Hin]; [done|].
    by eapply Forall_forall in Ht. }
  split; [done|].
  unfold _split_by_sentences, Re.split. fold sentence_gap.
  rewrite split_seamless by done.
  cbn [omap list_omap]. rewrite Hstrip. by destruct s.
Qed.

End Atoms.

(** A full page of 100 summaries, then a failure: the listing returns the
    100 summaries. *)
Lemma get_space_pages_failed_request_witness :
  (∀ j, (j < 1)%nat →
     ¬ ConfluenceClient.short
         (ConfluenceClient.space_pages_request service_failing example_client
            (lit "DOC")) 0%nat j)
  ∧ service_failing
      (ConfluenceClient.state_before
         (ConfluenceClient.space_pages_request service_failing example_client
            (lit "DOC")) 0%nat 1)
      "GET"
      (ConfluenceClient.url example_client ++ lit "/wiki/rest/api"
       ++ lit "/space/" ++ lit "DOC" ++ lit "/content/page?start="
       ++ lit (pretty (Z.of_nat 1 * ConfluenceClient.limit))
       ++ lit "&limit=" ++ lit (pretty ConfluenceClient.limit)) None
    = (Raise (OtherError "connection reset"), 2%nat)
  ∧ length (concat (ConfluenceClient.page
                      (ConfluenceClient.space_pages_request service_failing
                         example_client (lit "DOC")) 0%nat <$> seq 0 1))
    = 100%nat
  ∧ ∀ fuel, (1 < fuel)%nat →
      ConfluenceClient.get_space_pages
        (ConfluenceClient.space_pages_request service_failing example_client
           (lit "DOC")) fuel 0%nat
      = Some (concat (ConfluenceClient.page
                        (ConfluenceClient.space_pages_request service_failing
                           example_client (lit "DOC")) 0%nat <$> seq 0 1),
              2%nat).
Proof.
  assert (∀ j, (j < 1)%nat →
     ¬ ConfluenceClient.short
         (ConfluenceClient.space_pages_request service_failing example_client
            (lit "DOC")) 0%nat j) as H.
  { intros j Hj. assert (j = 0%nat) as -> by lia.
    unfold ConfluenceClient.short. by vm_compute. }
  split; [exact H|]. split; [reflexivity|]. split; [reflexivity|].
  apply (get_space_pages_failed_request service_failing example_client
           (lit "DOC") 1 0%nat 2%nat (OtherError "connection reset") H).
  reflexivity.
Defined.

Section Terminated.

Import TextProcessor.
Implicit Types (s w p : str) (c : N).

Lemma terminator_not_space c : terminator c = true → isspace c = false.
Proof.
  unfold terminator. intros H.
  apply orb_true_iff in H as [H|H]; [apply orb_true_iff in H as [H|H]|];
    apply N.eqb_eq in H; by subst.
Qed.

Lemma terminated_before prev s :
  terminated (before prev s) → ¬ terminated prev → ends_sentence s.
Proof.
  unfold before, ends_sentence. destruct (last s) as [c|]; [|done].
  intros H _. by exists c.
Qed.

Lemma gap_sentence_gap : gap sentence_gap.
Proof. by apply gap_preceded_by, gap_at_least. Qed.

Lemma before_space prev s :
  s ≠ [] → Forall (λ c, isspace c = true) s → ¬ terminated (before prev s).
Proof.
  intros Hne Hall. unfold before.
  destruct (last s) as [c|] eqn:E; [|by apply last_None in E].
  intros H%terminator_not_space.
  apply last_Some_elem_of in E. eapply Forall_forall in Hall; [|done].
  congruence.
Qed.

Lemma split_sentences_ends s prev :
  ∃ h t,
    Re.split_go sentence_gap prev 0 s = h :: t
    ∧ (t ≠ [] → terminated (before prev h))
    ∧ but_last ends_sentence t.
Proof.
  revert prev. induction s as [s IH] using str_length_ind. intros prev.
  destruct s as [|c r]; [by exists [], []|].
  rewrite split_go_cons.
  destruct (sentence_gap prev (c :: r)) as [[|n]|] eqn:E.
  - by apply sentence_gap_some in E as (_ & _ & ?); lia.
  - destruct (IH (drop n r) ltac:(simpl; rewrite length_drop; lia)
                (before (Some c) (take n r))) as (h & t & -> & Hh & Ht).
    exists [], (h :: t). split; [done|]. split.
    + intros _. by apply sentence_gap_some in E as (? & _).
    + cbn [but_last]. destruct t as [|y t]; [done|]. split; [|done].
      eapply terminated_before; [by apply Hh|].
      rewrite <-(before_cons None). apply before_space; [done|].
      apply (gap_sentence_gap _ _ _ E).
  - destruct (IH r ltac:(simpl; lia) (Some c)) as (h & t & -> & Hh & Ht).
    exists (c :: h), t. split; [done|]. split; [|done].
    intros Hne. rewrite before_cons. by apply Hh.
Qed.

Lemma last_lstrip s c :
  last s = Some c → isspace c = false → last (lstrip s) = Some c.
Proof.
  intros Hlast Hc. induction s as [|d r IH]; [done|]. cbn [lstrip].
  destruct (isspace d) eqn:Ed; [|done]. apply IH.
  destruct r as [|d' r]; [|by rewrite last_cons_cons in Hlast].
  injection Hlast as ->. congruence.
Qed.

Lemma last_rstrip s c :
  last s = Some c → isspace c = false → last (rstrip s) = Some c.
Proof.
  intros Hlast Hc. induction s as [|d r IH]; [done|]. rewrite rstrip_cons.
  destruct r as [|d' r].
  - injection Hlast as ->. cbn. by rewrite Hc.
  - rewrite last_cons_cons in Hlast. specialize (IH Hlast).
    destruct (decide _) as [E|E]; [by rewrite E in IH|].
    destruct (rstrip (d' :: r)); [done|]. by rewrite last_cons_cons.
Qed.

Lemma ends_sentence_strip s : ends_sentence s → ends_sentence (strip s).
Proof.
  intros (c & Hlast & Hc). exists c. split; [|done].
  pose proof (terminator_not_space _ Hc).
  unfold strip. apply last_rstrip; [|done]. by apply last_lstrip.
Qed.

Lemma but_last_pieces (pieces : list str) :
  but_last ends_sentence pieces →
  but_last ends_sentence
    (omap (λ p, if truthy (strip p) then Some (strip p) else None) pieces).
Proof.
  induction pieces as [|x r IH]; [done|]. cbn [but_last omap list_omap].
  destruct r as [|y r].
  - intros _. by destruct (truthy (strip x)).
  - intros [Hx Hr]. specialize (IH Hr). apply ends_sentence_strip in Hx.
    destruct (strip x) as [|c x'] eqn:Ex.
    { by destruct Hx as (? & ? & _). }
    cbn [truthy]. cbn [but_last].
    destruct (omap _ (y :: r)); [done|]. by split.
Qed.

Lemma but_last_lookup (P : str → Prop) (l : list str) (i : nat) x :
  but_last P l → l !! i = Some x → (S i < length l)%nat → P x.
Proof.
  revert i. induction l as [|y r IH]; intros i; [done|].
  destruct r as [|z r]; [simpl; lia|]. intros [Hy Hr].
  destruct i as [|i]; [by intros [= <-]|].
  cbn [lookup list_lookup]. intros Hx Hi. apply (IH i Hr Hx). simpl in *. lia.
Qed.

(** X20: every sentence of [_split_by_sentences] but the last one ends
    with a full stop, an exclamation mark or a question mark. *)
Theorem split_by_sentences_terminated (text : str) (i : nat) (s : str) :
  _split_by_sentences text !! i = Some s →
  (S i < length (_split_by_sentences text))%nat →
  ∃ c, last s = Some c ∧ (c = 46 ∨ c = 33 ∨ c = 63)%N.
Proof.
  intros Hs Hi.
  assert (but_last ends_sentence (_split_by_sentences text)) as Hall.
  { unfold _split_by_sentences, Re.split. fold sentence_gap.
    apply but_last_pieces.
    destruct (split_sentences_ends text None) as (h & t & -> & Hh & Ht).
    cbn [but_last]. destruct t as [|y t]; [done|]. split; [|done].
    eapply terminated_before; [by apply Hh|]. by intros []. }
  destruct (but_last_lookup _ _ _ _ Hall Hs Hi) as (c & Hlast & Hc).
  exists c. split; [done|]. unfold terminator in Hc.
  apply orb_true_iff in Hc as [Hc|Hc]; [apply orb_true_iff in Hc as [Hc|Hc]|];
    apply N.eqb_eq in Hc; auto.
Qed.

End Terminated.

Lemma split_by_sentences_terminated_witness :
  TextProcessor._split_by_sentences Examples.two_sentences !! 0%nat
  = Some (lit "aaaaaaa.")
  ∧ (1 < length (TextProcessor._split_by_sentences Examples.two_sentences))%nat
  ∧ ∃ c, last (lit "aaaaaaa.") = Some c ∧ (c = 46 ∨ c = 33 ∨ c = 63)%N.
Proof.
  assert (TextProcessor._split_by_sentences Examples.two_sentences !! 0%nat
          = Some (lit "aaaaaaa.")) as H1 by reflexivity.
  assert (1 < length (TextProcessor._split_by_sentences
                        Examples.two_sentences))%nat as H2
    by (vm_compute; lia).
  split; [exact H1|]. split; [exact H2|].
  exact (split_by_sentences_terminated Examples.two_sentences 0
           (lit "aaaaaaa.") H1 H2).
Defined.

(** ** Segmentation: the chunks, piece by piece *)

Section LongText.

Import TextProcessor.
Implicit Types (s w p : str) (c : N) (g : list str).

Variable chunk_size : Z.

Local Abbreviation grouped' := (grouped chunk_size).

Lemma grouped_singleton s : grouped' [s].
Proof.
  split; [done|]. destruct (decide (len s ≤ chunk_size)); [by left|].
  right. exists s. split; [done|lia].
Qed.

Lemma last_fmap {A B} (f : A → B) (l : list A) :
  last (f <$> l) = f <$> last l.
Proof.
  induction l as [|x l IH]; [done|]. destruct l; [done|].
  by rewrite fmap_cons, !last_cons_cons, <-IH.
Qed.

Lemma long_step_groups (groups : list (list str)) s :
  strip s = s → Forall grouped' groups →
  ∃ groups',
    long_step chunk_size (join [SP] <$> groups) s = join [SP] <$> groups'
    ∧ concat groups' = concat groups ++ [s]
    ∧ Forall grouped' groups'.
Proof.
  intros Hs Hall. unfold long_step. rewrite Hs, last_fmap.
  assert (∃ groups',
            (join [SP] <$> groups) ++ [s] = join [SP] <$> groups'
            ∧ concat groups' = concat groups ++ [s]
            ∧ Forall grouped' groups') as Hnew.
  { exists (groups ++ [[s]]). split; [by rewrite fmap_app|]. split.
    - rewrite concat_app. simpl. by rewrite ?app_nil_r.
    - apply Forall_app. split; [done|].
      constructor; [apply grouped_singleton|constructor]. }
  destruct (last groups) as [g|] eqn:E; [|done]. cbn [fmap option_fmap option_map].
  destruct (_ >? _) eqn:Hcmp; [done|].
  apply last_Some in E as [init ->].
  rewrite fmap_app. cbn [fmap list_fmap]. rewrite removelast_last.
  apply Forall_app in Hall as [Hinit Hg].
  inversion_clear Hg as [|?? [Hne _] _].
  exists (init ++ [g ++ [s]]). split; [|split].
  - rewrite fmap_app. cbn [fmap list_fmap]. f_equal. f_equal.
    rewrite join_snoc. by destruct g.
  - rewrite !concat_app. simpl. by rewrite ?app_nil_r, ?app_assoc.
  - apply Forall_app. split; [done|]. constructor; [|constructor].
    split; [by intros [_ ?]%app_eq_nil|]. left.
    rewrite join_snoc. destruct g as [|x g]; [done|].
    rewrite Z.gtb_ltb in Hcmp. apply Z.ltb_ge in Hcmp.
    rewrite !len_app in *. change (len [SP]) with 1.
    change (len (lit " ")) with 1 in Hcmp. lia.
Qed.

Lemma foldl_long_step_groups (sentences : list str)
    (groups : list (list str)) :
  Forall (λ s, strip s = s) sentences → Forall grouped' groups →
  ∃ groups',
    foldl (long_step chunk_size) (join [SP] <$> groups) sentences
    = join [SP] <$> groups'
    ∧ concat groups' = concat groups ++ sentences
    ∧ Forall grouped' groups'.
Proof.
  intros Hall. revert groups.
  induction Hall as [|s l Hs _ IH]; intros groups Hg.
  - exists groups. by rewrite app_nil_r.
  - cbn [foldl].
    destruct (long_step_groups groups s Hs Hg) as (g1 & -> & E1 & H1).
    destruct (IH g1 H1) as (g2 & -> & E2 & H2).
    exists g2. split; [done|]. split; [|done].
    by rewrite E2, E1, <-app_assoc.
Qed.

Lemma split_long_text_groups text :
  ∃ groups,
    _split_long_text text chunk_size = join [SP] <$> groups
    ∧ concat groups = _split_by_sentences text
    ∧ Forall grouped' groups.
Proof.
  unfold _split_long_text.
  destruct (foldl_long_step_groups (_split_by_sentences text) [])
    as (groups & E & Hc & Hg); [|constructor|by exists groups].
  apply Forall_forall. intros s Hs. by destruct (sentence_stripped _ _ Hs).
Qed.

(** X2: the chunks of [_split_long_text] are groups of consecutive
    sentences of the text, each group joined with single spaces: every
    sentence is in one chunk, whole, and the sentences keep their order;
    no group is empty, and a group of several sentences fits the chunk
    size. In particular the chunks joined with one space are the sentences
    joined with one space. *)
Theorem split_long_text_sentences (text : str) :
  ∃ groups : list (list str),
    _split_long_text text chunk_size = join [SP] <$> groups
    ∧ concat groups = _split_by_sentences text
    ∧ Forall (λ g, g ≠ []
                   ∧ (len (join [SP] g) ≤ chunk_size
                      ∨ ∃ s, g = [s] ∧ chunk_size < len s)) groups
    ∧ join [SP] (_split_long_text text chunk_size)
      = join [SP] (_split_by_sentences text).
Proof.
  destruct (split_long_text_groups text) as (groups & E & Hc & Hg).
  exists groups. split; [done|]. split; [done|]. split; [done|].
  unfold _split_long_text. rewrite foldl_long_step_join. cbn [app].
  f_equal. apply strip_sentences.
Qed.

End LongText.

Section Pieces.

Import TextProcessor.
Implicit Types (s w p : str) (c : N) (q : piece).

Variables chunk_size chunk_overlap : Z.
Variable known : list str.

Local Abbreviation sized' := (sized chunk_size known).
Local Abbreviation linked' := (linked chunk_size chunk_overlap).
Local Abbreviation link' := (link chunk_size chunk_overlap).
Local Abbreviation reads' := (reads chunk_size chunk_overlap known).

Lemma last_or_cons {A} (prev : option A) (y : A) (l : list A) :
  last_or prev (y :: l) = last_or (Some y) l.
Proof. unfold last_or. rewrite last_cons. by destruct (last l). Qed.

Lemma linked_app prev (l k : list piece) :
  linked' prev (l ++ k) ↔ linked' prev l ∧ linked' (last_or prev l) k.
Proof.
  revert prev. induction l as [|y l IH]; intros prev.
  - cbn [app linked]. unfold last_or. simpl. tauto.
  - cbn [app linked]. rewrite IH, last_or_cons. tauto.
Qed.

Lemma linked_sentences prev p (groups : list (list str)) :
  linked' prev (Sentences p <$> groups).
Proof.
  revert prev. induction groups as [|g groups IH]; intros prev; [done|].
  split; [done|apply IH].
Qed.

Lemma concat_infix {A} (groups : list (list A)) (g : list A) :
  g ∈ groups → ∃ a b, concat groups = a ++ g ++ b.
Proof.
  intros (l1 & l2 & ->)%list_elem_of_split.
  exists (concat l1), (concat l2). by rewrite concat_app.
Qed.

Lemma sentences_nonempty p :
  strip p = p → p ≠ [] → _split_by_sentences p ≠ [].
Proof.
  intros Hs Hne E. pose proof (words_sentences p) as H.
  rewrite E in H. symmetry in H. revert H. apply leads_words.
  pose proof (strip_starts_clean p) as Hc. rewrite Hs in Hc.
  destruct p as [|c r]; [done|]. simpl in *. by rewrite Hc.
Qed.

Lemma join_nonempty_sep sep (l : list str) :
  l ≠ [] → Forall (λ x, x ≠ []) l → join sep l ≠ [].
Proof.
  intros Hne Hall. destruct Hall as [|x l Hx Hl]; [done|].
  destruct l; [done|]. rewrite join_cons_cons. by destruct x.
Qed.

Lemma render_nonempty (x : piece) : sized' x → render x ≠ [].
Proof.
  destruct x as [prefix ps|p ss]; cbn.
  - intros (Hne & Hall & _) [_ E]%app_eq_nil. revert E.
    apply join_nonempty_sep; [done|].
    eapply Forall_impl; [done|]. by intros ? (_ & ? & _).
  - intros (Hne & _ & _ & (a & b & E) & _). apply join_nonempty_sep; [done|].
    apply Forall_forall. intros s Hs.
    assert (s ∈ _split_by_sentences p) as Hin.
    { rewrite E. apply elem_of_app. right. apply elem_of_app. by left. }
    by destruct (sentence_stripped _ _ Hin).
Qed.

Lemma reads_close chunks current closed open done :
  reads' chunks current closed open done →
  close chunks current = render <$> (closed ++ open_list open).
Proof.
  intros (-> & -> & _ & Hsized & _). unfold close.
  destruct open as [[prefix ps]|]; cbn [open_list].
  - apply Forall_app in Hsized as [_ Hx].
    inversion_clear Hx as [|?? Hx' _]. apply render_nonempty in Hx'.
    cbn [render] in Hx'. rewrite (proj2 (truthy_true _) Hx').
    by rewrite fmap_app.
  - by rewrite app_nil_r.
Qed.

Lemma units_snoc (l : list piece) (x : piece) :
  concat (units <$> (l ++ [x])) = concat (units <$> l) ++ units x.
Proof. rewrite fmap_app, concat_app. simpl. by rewrite app_nil_r. Qed.

Lemma done_snoc (done : list str) p :
  concat (paragraph_units chunk_size <$> (done ++ [p]))
  = concat (paragraph_units chunk_size <$> done)
    ++ paragraph_units chunk_size p.
Proof. rewrite fmap_app, concat_app. simpl. by rewrite app_nil_r. Qed.

(** A paragraph that opens a chunk. *)
Lemma reads_open chunks current closed open done p prefix :
  reads' chunks current closed open done →
  p ∈ known → p ≠ [] → len p ≤ chunk_size →
  link' (last_or None (closed ++ open_list open)) (Packed prefix [p]) →
  reads' (close chunks current) (prefix ++ p) (closed ++ open_list open)
    (Some (prefix, [p])) (done ++ [p]).
Proof.
  intros H Hin Hne Hlen Hlink. pose proof (reads_close _ _ _ _ _ H) as Hc.
  destruct H as (_ & _ & _ & Hsized & Hlinked & Hcov).
  split; [done|]. split; [done|]. split; [done|]. cbn [open_list].
  split; [|split].
  - apply Forall_app. split; [done|]. constructor; [|constructor].
    split; [done|]. split; [by repeat constructor|]. right. by exists p.
  - apply linked_app. split; [done|]. by split.
  - rewrite units_snoc, done_snoc, Hcov. cbn [units].
    unfold paragraph_units. by rewrite Z.gtb_ltb, (proj2 (Z.ltb_ge _ _)) by lia.
Qed.

Lemma step_reads chunks current closed open done p :
  let next := step chunk_size chunk_overlap (chunks, current) p in
  strip p = p → p ≠ [] → p ∈ known →
  reads' chunks current closed open done →
  ∃ closed' open', reads' next.1 next.2 closed' open' (done ++ [p]).
Proof.
  intros next Hs Hne Hin H. subst next. unfold step. rewrite Hs.
  pose proof (reads_close _ _ _ _ _ H) as Hclose.
  pose proof H as (Hch & Hcur & Hlast & Hsized & Hlinked & Hcov).
  set (pieces := closed ++ open_list open) in *.
  destruct (len p >? chunk_size) eqn:Hlong.
  - (* a paragraph that is cut into sentences *)
    rewrite Z.gtb_ltb in Hlong. apply Z.ltb_lt in Hlong.
    destruct (split_long_text_groups chunk_size p) as (groups & E & Hc & Hg).
    assert (groups ≠ []) as Hgroups.
    { intros ->. by apply (sentences_nonempty p). }
    exists (pieces ++ (Sentences p <$> groups)), None. cbn [fst snd].
    split; [|split; [done|split; [|split; [|split]]]].
    + rewrite Hclose, E, fmap_app, <-list_fmap_compose. done.
    + intros _. right. destruct (last groups) as [g|] eqn:Eg.
      * exists p, g. by rewrite last_app, last_fmap, Eg.
      * by apply last_None in Eg.
    + cbn [open_list]. rewrite app_nil_r. apply Forall_app. split; [done|].
      apply Forall_fmap, Forall_forall. intros g Hin'.
      pose proof Hin' as Hgr. eapply Forall_forall in Hgr; [|exact Hg].
      destruct Hgr as [Hgne Hbound].
      split; [done|]. split; [done|]. split; [done|]. split; [|done].
      rewrite <-Hc. by apply concat_infix.
    + cbn [open_list]. rewrite app_nil_r. apply linked_app.
      split; [done|apply linked_sentences].
    + cbn [open_list]. rewrite app_nil_r, fmap_app, concat_app, Hcov.
      rewrite done_snoc. f_equal.
      rewrite <-list_fmap_compose.
      rewrite (list_fmap_ext _ id groups) by done. rewrite list_fmap_id.
      unfold paragraph_units. rewrite (proj2 (Z.gtb_lt _ _)) by lia. done.
  - rewrite Z.gtb_ltb in Hlong. apply Z.ltb_ge in Hlong.
    destruct (len current + len p + 2 >? chunk_size) eqn:Hfull.
    + (* the paragraph does not fit: a chunk is opened *)
      rewrite Z.gtb_ltb in Hfull. apply Z.ltb_lt in Hfull.
      rewrite Hclose, last_fmap.
      destruct (last pieces) as [q|] eqn:Eq; cbn [fmap option_fmap option_map].
      * destruct (chunk_overlap >? 0) eqn:Hov.
        -- rewrite Z.gtb_ltb in Hov.
           exists pieces, (Some (slice_from (- chunk_overlap) (render q) ++ [SP],
                                 [p])).
           cbn [fst snd]. rewrite <-Hclose.
           change (lit " " ++ p) with ([SP] ++ p). rewrite app_assoc.
           apply reads_open; [done..|].
           cbn. unfold last_or. fold pieces. rewrite Eq. cbn. rewrite Hov.
           destruct q as [prefix ps|p' ss]; [done|].
           assert (open = None) as ->.
           { destruct open as [[prefix ps]|]; [|done].
             unfold pieces in Eq. cbn [open_list] in Eq.
             by rewrite last_snoc in Eq. }
           rewrite Hcur in Hfull. change (len []) with 0 in Hfull.
           by rewrite (proj2 (Z.ltb_lt _ _)) by lia.
        -- exists pieces, (Some ([], [p])). cbn [fst snd]. rewrite <-Hclose.
           apply (reads_open _ _ _ _ _ _ []); [done..|].
           cbn. unfold last_or. fold pieces. rewrite Eq. cbn.
           rewrite Z.gtb_ltb in Hov. by rewrite Hov.
      * exists pieces, (Some ([], [p])). cbn [fst snd]. rewrite <-Hclose.
        apply (reads_open _ _ _ _ _ _ []); [done..|].
        cbn. unfold last_or. fold pieces. by rewrite Eq.
    + rewrite Z.gtb_ltb in Hfull. apply Z.ltb_ge in Hfull.
      subst pieces. clear H Hclose.
      destruct open as [[prefix ps]|].
      * (* the paragraph joins the open chunk *)
        cbn [open_list] in *.
        apply Forall_app in Hsized as [Hsized Hx].
        inversion_clear Hx as [|?? Hx' _].
        pose proof (render_nonempty _ Hx') as Hrender.
        destruct Hx' as (Hps & Hall & _).
        cbn [render] in Hrender. rewrite <-Hcur in Hrender.
        rewrite (proj2 (truthy_true _) Hrender).
        exists closed, (Some (prefix, ps ++ [p])). cbn [fst snd open_list].
        split; [done|]. split; [|split; [done|split; [|split]]].
        -- rewrite Hcur, join_snoc, <-app_assoc. by destruct ps.
        -- apply Forall_app. split; [done|]. constructor; [|constructor].
           split; [by intros [_ ?]%app_eq_nil|]. split.
           ++ apply Forall_app. split; [done|]. by repeat constructor.
           ++ left. cbn [render]. rewrite join_snoc.
              destruct ps as [|p0 ps]; [done|].
              rewrite Hcur in Hfull. rewrite !len_app in *.
              change (len [LF; LF]) with 2. lia.
        -- apply linked_app in Hlinked as [Hl1 [Hl2 _]].
           apply linked_app. split; [done|]. split; [|done].
           cbn in *. by destruct ps.
        -- cbn [open_list]. rewrite units_snoc in Hcov.
           rewrite units_snoc, done_snoc, <-Hcov.
           cbn [units]. rewrite <-app_assoc. f_equal. f_equal.
           unfold paragraph_units.
           by rewrite Z.gtb_ltb, (proj2 (Z.ltb_ge _ _)) by lia.
      * (* the paragraph opens a chunk without prefix *)
        cbn [open_list] in *. rewrite app_nil_r in *.
        subst current. cbn [truthy].
        assert (close chunks [] = chunks) as Hc by done.
        exists closed, (Some ([], [p])). cbn [fst snd].
        rewrite <-Hc at 1. rewrite <-(app_nil_r closed) at 1.
        apply (reads_open _ _ _ None _ _ []); [|done..|].
        { repeat split; try done; cbn [open_list]; by rewrite app_nil_r. }
        cbn. unfold last_or. rewrite app_nil_r.
        destruct (Hlast eq_refl) as [->|(p' & ss & ->)]; [done|]. cbn.
        change (len []) with 0 in Hfull.
        rewrite (proj2 (Z.ltb_ge chunk_size _)) by lia.
        by rewrite andb_false_r.
Qed.

Lemma foldl_step_reads (paragraphs : list str) chunks current closed open
    done :
  let final :=
    foldl (step chunk_size chunk_overlap) (chunks, current) paragraphs in
  Forall (λ p, strip p = p ∧ p ≠ [] ∧ p ∈ known) paragraphs →
  reads' chunks current closed open done →
  ∃ closed' open',
    reads' final.1 final.2 closed' open' (done ++ paragraphs).
Proof.
  intros final Hall. subst final.
  revert chunks current closed open done.
  induction Hall as [|p l (Hs & Hne & Hin) _ IH];
    intros chunks current closed open done H.
  - exists closed, open. by rewrite app_nil_r.
  - cbn [foldl].
    destruct (step_reads chunks current closed open done p Hs Hne Hin H)
      as (closed' & open' & H').
    destruct (step _ _ _ _) as [chunks' current']. cbn [fst snd] in H'.
    destruct (IH _ _ _ _ _ H') as (closed'' & open'' & H'').
    exists closed'', open''. by rewrite <-app_assoc in H''.
Qed.

End Pieces.

Section Chunks.

Import TextProcessor.
Implicit Types (s w p : str) (c : N) (q : piece).

(** The chunks of [split_text], read as pieces. *)
Lemma split_text_pieces (self : TextProcessor.t) (text : str)
    (chunk_size chunk_overlap : option Z) :
  let size := int_or chunk_size (TextProcessor.chunk_size self) in
  let overlap := int_or chunk_overlap (TextProcessor.chunk_overlap self) in
  ∃ pieces : list piece,
    split_text self text chunk_size chunk_overlap = render <$> pieces
    ∧ concat (units <$> pieces) = text_units size text
    ∧ Forall (sized size (_split_by_paragraphs text)) pieces
    ∧ linked size overlap None pieces.
Proof.
  intros size overlap. unfold split_text. fold size overlap.
  destruct text as [|c r]; [by exists []|]. cbn [truthy negb].
  generalize (c :: r). clear c r. intros text. unfold text_units.
  destruct (_split_by_paragraphs text) as [|p0 l] eqn:E; [by exists []|].
  cbn [truthy negb]. rewrite <-E.
  destruct (foldl_step_reads size overlap (_split_by_paragraphs text)
              (_split_by_paragraphs text) [] [] [] None [])
    as (closed & open & H).
  { apply Forall_forall. intros p Hp.
    by destruct (paragraph_stripped _ _ Hp). }
  { repeat split; try done. by left. }
  destruct (foldl _ _ _) as [chunks current]. cbn [fst snd app] in H.
  pose proof (reads_close _ _ _ _ _ _ _ _ H) as Hclose.
  destruct H as (_ & _ & _ & Hsized & Hlinked & Hcov).
  by exists (closed ++ open_list open).
Qed.

Lemma linked_lookup size overlap prev (l : list piece) (i : nat) (x : piece) :
  linked size overlap prev l → l !! i = Some x →
  link size overlap (match i with O => prev | S j => l !! j end) x.
Proof.
  revert prev i. induction l as [|y l IH]; intros prev i; [done|].
  intros [Hy Hl]. destruct i as [|i]; [by intros [= <-]|].
  cbn [lookup list_lookup]. intros Hx.
  pose proof (IH _ _ Hl Hx) as H. by destruct i.
Qed.

Lemma expected_prefix_bound size overlap prev first :
  let prefix := expected_prefix size overlap prev first in
  prefix = [] ∨ (0 < overlap ∧ prefix ≠ [] ∧ len prefix ≤ overlap + 1).
Proof.
  unfold expected_prefix. destruct prev as [q|]; [|by left].
  destruct (0 <? overlap) eqn:E; [|by left]. apply Z.ltb_lt in E.
  cbn [andb]. destruct (match q with Packed _ _ => _ | _ => _ end); [|by left].
  right. split; [done|]. split; [by intros [_ ?]%app_eq_nil|].
  rewrite len_app. change (len [SP]) with 1.
  pose proof (len_slice_from_tail overlap (render q) E). lia.
Qed.

(** C2 (amended): with the chunk size and the overlap in force (the
    argument, or the value of the processor when the argument is absent
    or 0), the chunks of [split_text] are made of whole units. A chunk is
    one or more paragraphs of the text, none longer than the chunk size,
    joined by blank lines, after a prefix, which is the one that the
    chunk before gives ([link]): it is empty or, with a positive overlap,
    at most overlap + 1 characters long; or it is one or
    more consecutive sentences of a paragraph longer than the chunk size,
    joined by single spaces. Read in order, the paragraphs and sentences
    of the chunks are the paragraphs of the text, each paragraph longer
    than the chunk size replaced by its sentences: apart from the
    prefixes, nothing is cut, lost or repeated. A chunk is at most the
    chunk size long, unless it is a prefix and one paragraph (at most
    chunk size + overlap + 1), or one sentence that is longer than the
    chunk size. *)
Theorem split_text_chunk_bound (self : TextProcessor.t) (text : str)
    (chunk_size chunk_overlap : option Z) :
  let size := int_or chunk_size (TextProcessor.chunk_size self) in
  let overlap := int_or chunk_overlap (TextProcessor.chunk_overlap self) in
  ∃ pieces : list piece,
    split_text self text chunk_size chunk_overlap = render <$> pieces
    ∧ concat (units <$> pieces) = text_units size text
    ∧ Forall (sized size (_split_by_paragraphs text)) pieces
    ∧ (∀ i x, pieces !! i = Some x →
         link size overlap
           (match i with O => None | S j => pieces !! j end) x)
    ∧ Forall (λ x, match x with
                   | Packed prefix _ =>
                       prefix = [] ∨ (0 < overlap ∧ len prefix ≤ overlap + 1)
                   | Sentences _ _ => True
                   end) pieces
    ∧ Forall (λ x, len (render x) ≤ size
                   ∨ (∃ prefix p,
                        x = Packed prefix [p] ∧ prefix ≠ [] ∧ 0 < overlap
                        ∧ len p ≤ size
                        ∧ len (render x) ≤ size + overlap + 1)
                   ∨ (∃ p s, x = Sentences p [s] ∧ size < len s)) pieces.
Proof.
  intros size overlap.
  destruct (split_text_pieces self text chunk_size chunk_overlap)
    as (pieces & E & Hcov & Hsized & Hlinked).
  fold size overlap in E, Hcov, Hsized, Hlinked.
  exists pieces. split; [done|]. split; [done|]. split; [done|].
  assert (Forall (λ x, match x with
                       | Packed prefix _ =>
                           prefix = []
                           ∨ (0 < overlap ∧ prefix ≠ []
                              ∧ len prefix ≤ overlap + 1)
                       | Sentences _ _ => True
                       end) pieces) as Hprefix.
  { apply Forall_lookup. intros i x Hx.
    pose proof (linked_lookup _ _ _ _ _ _ Hlinked Hx) as Hl.
    destruct x as [prefix ps|p ss]; [|done]. cbn in Hl. rewrite Hl.
    apply expected_prefix_bound. }
  split; [intros i x Hx; by apply (linked_lookup _ _ _ _ _ _ Hlinked)|].
  split.
  - eapply Forall_impl; [exact Hprefix|].
    intros [prefix ps|p ss]; [|done]. intros [?|(? & _ & ?)]; auto.
  - apply Forall_forall. intros x Hx.
    eapply Forall_forall in Hsized as Hs; [|done].
    eapply Forall_forall in Hprefix as Hp; [|done].
    destruct x as [prefix ps|p ss].
    + destruct Hs as (_ & Hall & [?|[p ->]]); [by left|].
      inversion_clear Hall as [|?? (_ & _ & Hlen) _].
      destruct Hp as [->|(Hov & Hne & Hpre)]; [by left|].
      right; left. exists prefix, p. repeat split; try done.
      cbn. rewrite len_app. lia.
    + destruct Hs as (_ & _ & _ & _ & [?|(s & -> & ?)]); [by left|].
      right; right. by exists p, s.
Qed.

(** C6 (amended): with a positive overlap in force, and the chunks read
    as in C2, the first chunk has no prefix; a chunk of paragraphs that
    comes after a chunk of paragraphs starts with the last [overlap]
    characters of that chunk and a space; a chunk of paragraphs that
    comes after a chunk of sentences starts so when its first paragraph
    is longer than the chunk size - 2, and has no prefix otherwise; a
    chunk of sentences is its sentences joined by single spaces, with
    nothing before them. When no paragraph is longer than the chunk size,
    every chunk after the first starts with the last [overlap]
    characters of the chunk before it and a space. *)
Theorem split_text_overlap (self : TextProcessor.t) (text : str)
    (chunk_size chunk_overlap : option Z) :
  let size := int_or chunk_size (TextProcessor.chunk_size self) in
  let overlap := int_or chunk_overlap (TextProcessor.chunk_overlap self) in
  0 < overlap →
  ∃ pieces : list piece,
    split_text self text chunk_size chunk_overlap = render <$> pieces
    ∧ concat (units <$> pieces) = text_units size text
    ∧ Forall (sized size (_split_by_paragraphs text)) pieces
    ∧ (∀ prefix ps, pieces !! 0%nat = Some (Packed prefix ps) → prefix = [])
    ∧ (∀ i prev prefix ps,
         pieces !! i = Some prev → pieces !! S i = Some (Packed prefix ps) →
         prefix
         = if match prev with
              | Packed _ _ => true
              | Sentences _ _ => size <? len (default [] (head ps)) + 2
              end
           then slice_from (- overlap) (render prev) ++ [SP]
           else [])
    ∧ (Forall (λ p, len p ≤ size) (_split_by_paragraphs text) →
       ∀ i prev chunk,
         split_text self text chunk_size chunk_overlap !! i = Some prev →
         split_text self text chunk_size chunk_overlap !! S i = Some chunk →
         ∃ rest, chunk = slice_from (- overlap) prev ++ lit " " ++ rest).
Proof.
  intros size overlap Hov.
  destruct (split_text_pieces self text chunk_size chunk_overlap)
    as (pieces & E & Hcov & Hsized & Hlinked).
  fold size overlap in E, Hcov, Hsized, Hlinked.
  exists pieces. split; [done|]. split; [done|]. split; [done|].
  split; [|split].
  - intros prefix ps Hx.
    by pose proof (linked_lookup _ _ _ _ _ _ Hlinked Hx) as Hl.
  - intros i prev prefix ps Hprev Hx.
    pose proof (linked_lookup _ _ _ _ _ _ Hlinked Hx) as Hl.
    cbn in Hl. rewrite Hprev in Hl. cbn in Hl.
    by rewrite (proj2 (Z.ltb_lt _ _) Hov) in Hl.
  - intros Hshort i prev chunk. by apply split_text_chained.
Qed.

End Chunks.

(** The chunks of the example, with chunk size 10 and overlap 5: the
    second starts with the tail of the first; the two sentences are
    chunks of their own; the paragraph after them has no prefix, and the
    last one starts with the whole chunk before it. *)
Example split_text_mixed :
  TextProcessor.split_text TextProcessor.init Examples.mixed_paragraphs
    (Some 10) (Some 5)
  = render <$>
      [ Packed [] [lit "aaaaaaaa"];
        Packed (lit "aaaaa ") [lit "bbbbbbbb"];
        Sentences (lit "One two. Three four.") [lit "One two."];
        Sentences (lit "One two. Three four.") [lit "Three four."];
        Packed [] [lit "cc"];
        Packed (lit "cc ") [lit "dddddddddd"] ].
Proof. by vm_compute. Qed.

Lemma split_text_overlap_witness :
  0 < int_or (Some 5) (TextProcessor.chunk_overlap TextProcessor.init)
  ∧ ∃ pieces : list piece,
      TextProcessor.split_text TextProcessor.init Examples.mixed_paragraphs
        (Some 10) (Some 5)
      = render <$> pieces
      ∧ concat (units <$> pieces) = text_units 10 Examples.mixed_paragraphs
      ∧ Forall (sized 10 (TextProcessor._split_by_paragraphs Examples.mixed_paragraphs))
          pieces
      ∧ (∀ prefix ps,
           pieces !! 0%nat = Some (Packed prefix ps) → prefix = [])
      ∧ (∀ i prev prefix ps,
           pieces !! i = Some prev →
           pieces !! S i = Some (Packed prefix ps) →
           prefix
           = if match prev with
                | Packed _ _ => true
                | Sentences _ _ => 10 <? len (default [] (head ps)) + 2
                end
             then slice_from (- 5) (render prev) ++ [SP]
             else [])
      ∧ (Forall (λ p, len p ≤ 10)
           (TextProcessor._split_by_paragraphs Examples.mixed_paragraphs) →
         ∀ i prev chunk,
           TextProcessor.split_text TextProcessor.init Examples.mixed_paragraphs
             (Some 10) (Some 5) !! i = Some prev →
           TextProcessor.split_text TextProcessor.init Examples.mixed_paragraphs
             (Some 10) (Some 5) !! S i = Some chunk →
           ∃ rest, chunk = slice_from (- 5) prev ++ lit " " ++ rest).
Proof.
  assert (0 < int_or (Some 5) (TextProcessor.chunk_overlap TextProcessor.init))
    as H by by vm_compute.
  split; [exact H|].
  exact (split_text_overlap TextProcessor.init Examples.mixed_paragraphs
           (Some 10) (Some 5) H).
Defined.
